(** * garmin_token_store: packing and unpacking the Garmin token store

    A shallow embedding of [scripts/garmin_token_store.py] and of the parts of
    the Python runtime it calls ([posixpath], [os], [shutil], [zipfile],
    [base64], [json]), followed by the properties of the token-store codec.

    Layout:
    - [PyStr]      the [str] methods the module uses;
    - [PosixPath]  [os.path] on a POSIX host ([os.sep = "/"]);
    - [FileSys]    a directory tree, with the [os]/[shutil] calls as
                   state-passing operations that return or raise;
    - [TokenStore] the six functions of the module;
    - [Demo]       a small executable runtime to run the model on inputs;
    - [Tests]      the test methods of [tests/test_garmin_token_store.py]
                   that call the module;
    - the theorems. *)

From Stdlib Require Import Strings.String Strings.Ascii Strings.Byte.
From Stdlib Require Import List Bool Arith NArith Lia.
From Stdlib Require Import Permutation Sorted Mergesort Orders.
Import ListNotations.
Local Open Scope string_scope.
Local Open Scope list_scope.

Set Implicit Arguments.
Set Warnings "-register-all".

(** String concatenation is written [+++], so that [++] stays the one of
    lists. *)
Infix "+++" := String.append (right associativity, at level 60).

(* ------------------------------------------------------------------ *)
(** ** Python [str] methods *)

Module PyStr.

Definition sep_char : ascii := "/"%char.
Definition backslash : ascii := "\"%char.

Definition is_sep (c : ascii) : bool := Ascii.eqb c sep_char.

(** [s.startswith(pre)] *)
Definition startswith (s pre : string) : bool := String.prefix pre s.

(** [sub in s] *)
Fixpoint contains (sub s : string) : bool :=
  String.prefix sub s
  || match s with
     | EmptyString => false
     | String _ r => contains sub r
     end.

(** [s.endswith("/")] *)
Fixpoint endswith_sep (s : string) : bool :=
  match s with
  | EmptyString => false
  | String c EmptyString => is_sep c
  | String _ r => endswith_sep r
  end.

(** [s.replace(a, b)] for one-character [a] and [b] *)
Fixpoint replace_char (a b : ascii) (s : string) : string :=
  match s with
  | EmptyString => EmptyString
  | String c r =>
      String (if Ascii.eqb c a then b else c) (replace_char a b r)
  end.

(** [s.split("/")]: never the empty list; [k] separators give [k+1]
    fields. *)
Fixpoint split_sep (s : string) : list string :=
  match s with
  | EmptyString => [EmptyString]
  | String c r =>
      if is_sep c then EmptyString :: split_sep r
      else match split_sep r with
           | [] => [String c EmptyString]
           | w :: ws => String c w :: ws
           end
  end.

(** ["/".join(comps)] *)
Definition join_sep (comps : list string) : string := String.concat "/" comps.

(** [s.lstrip("/")], as the [while arcname[0] in (os.sep, os.altsep)] loop
    of [zipfile] does it. *)
Fixpoint lstrip_sep (s : string) : string :=
  match s with
  | String c r => if is_sep c then lstrip_sep r else s
  | EmptyString => EmptyString
  end.

(** [s.rstrip("/")] *)
Fixpoint rstrip_sep (s : string) : string :=
  match s with
  | EmptyString => EmptyString
  | String c r =>
      match rstrip_sep r with
      | EmptyString => if is_sep c then EmptyString else String c EmptyString
      | r' => String c r'
      end
  end.

(** [s[: s.rfind("/") + 1]]: the part of [s] up to and including its last
    separator, empty when there is none. *)
Fixpoint upto_last_sep (s : string) : string :=
  match s with
  | EmptyString => EmptyString
  | String c r =>
      match upto_last_sep r with
      | EmptyString => if is_sep c then String c EmptyString else EmptyString
      | r' => String c r'
      end
  end.

(** [s == "/" * len(s)] *)
Fixpoint all_sep (s : string) : bool :=
  match s with
  | EmptyString => true
  | String c r => is_sep c && all_sep r
  end.

Definition nonempty (s : string) : bool :=
  match s with EmptyString => false | _ => true end.

End PyStr.

(* ------------------------------------------------------------------ *)
(** ** [posixpath] *)

Module PosixPath.
Import PyStr.

Definition curdir : string := ".".
Definition pardir : string := "..".

(** [posixpath.isabs] *)
Definition isabs (p : string) : bool := startswith p "/".

(** [posixpath.join(a, b)] for two arguments. *)
Definition join (a b : string) : string :=
  if startswith b "/" then b
  else if negb (nonempty a) || endswith_sep a then a +++ b
  else a +++ "/" +++ b.

(** One turn of the loop of [normpath] over the components; [new_comps]
    is kept in order, [comp] is appended at its end or the last one is
    popped. *)
Definition norm_step (initial_slashes : bool) (new_comps : list string)
           (comp : string) : list string :=
  if String.eqb comp "" || String.eqb comp curdir then new_comps
  else if negb (String.eqb comp pardir)
          || (negb initial_slashes && match new_comps with [] => true | _ => false end)
          || match new_comps with
             | [] => false
             | _ => String.eqb (last new_comps "") pardir
             end
       then new_comps ++ [comp]
       else removelast new_comps.

Definition norm_comps (initial_slashes : bool) (comps : list string)
  : list string :=
  fold_left (norm_step initial_slashes) comps [].

(** The number of leading slashes [normpath] keeps: POSIX allows one or
    two, and treats three or more as one. *)
Definition initial_slashes (path : string) : nat :=
  if startswith path "/" then
    if startswith path "//" && negb (startswith path "///") then 2 else 1
  else 0.

Definition slashes (n : nat) : string :=
  match n with 0 => "" | 1 => "/" | _ => "//" end.

(** [posixpath.normpath] *)
Definition normpath (path : string) : string :=
  if negb (nonempty path) then curdir
  else
    let n := initial_slashes path in
    let comps := norm_comps (negb (Nat.eqb n 0)) (split_sep path) in
    let path' := slashes n +++ join_sep comps in
    if nonempty path' then path' else curdir.

(** [posixpath.dirname] *)
Definition dirname (p : string) : string :=
  let head := upto_last_sep p in
  if nonempty head && negb (all_sep head) then rstrip_sep head else head.


(** *** Vocabulary for the statements about paths *)

(** The non-empty fields of a path string. *)
Definition fcomps (s : string) : list string :=
  filter nonempty (split_sep s).

Fixpoint no_sep (s : string) : bool :=
  match s with
  | EmptyString => true
  | String c r => negb (is_sep c) && no_sep r
  end.

(** Neither empty nor one of the two dot names. *)
Definition proper (c : string) : bool :=
  nonempty c && negb (String.eqb c curdir) && negb (String.eqb c pardir).

(** What a directory entry can be called. *)
Definition valid_name (c : string) : bool :=
  nonempty c && no_sep c
  && negb (String.eqb c curdir) && negb (String.eqb c pardir).

Definition field (c : string) : Prop :=
  proper c = true /\ no_sep c = true.

(** [/c1/c2.../ck], what follows the first component in ["/".join]. *)
Fixpoint tail_str (l : list string) : string :=
  match l with
  | [] => ""
  | c :: l' => "/" +++ c +++ tail_str l'
  end.

(** The name has no backslash in it. *)
Fixpoint no_backslash (s : string) : bool :=
  match s with
  | EmptyString => true
  | String c r => negb (Ascii.eqb c backslash) && no_backslash r
  end.

Section WithCwd.
(** [os.getcwd()], as the list of its components: the working directory
    is the string [/c1/c2/...]. *)
Variable cwd : list string.

Definition getcwd : string := "/" +++ join_sep cwd.

(** [path] itself when it is absolute, [join(os.getcwd(), path)] when it
    is not: the argument [abspath] hands to [normpath]. *)
Definition absolutize (path : string) : string :=
  if isabs path then path else join getcwd path.

(** [posixpath.abspath] *)
Definition abspath (path : string) : string := normpath (absolutize path).

(** [[x for x in abspath(p).split(sep) if x]], the component list
    [relpath] computes for each of its arguments. *)
Definition abs_components (p : string) : list string :=
  filter nonempty (split_sep (abspath p)).

(** [len(commonprefix([a, b]))] on component lists *)
Fixpoint common_len (a b : list string) : nat :=
  match a, b with
  | x :: a', y :: b' => if String.eqb x y then S (common_len a' b') else 0
  | _, _ => 0
  end.

(** [posixpath.relpath(path, start)]; [join( *rel_list)] of components
    none of which is absolute or empty is ["/".join(rel_list)]. *)
Definition relpath (path start : string) : string :=
  let start_list := abs_components start in
  let path_list := abs_components path in
  let i := common_len start_list path_list in
  let rel_list :=
    repeat pardir (List.length start_list - i) ++ skipn i path_list in
  match rel_list with
  | [] => curdir
  | _ => fold_left join (tl rel_list) (hd "" rel_list)
  end.
End WithCwd.

End PosixPath.


(* ------------------------------------------------------------------ *)
(** ** The file system and the [os] / [shutil] calls

    A file system is a tree: a regular file holds bytes, a directory holds
    named entries in the order the operating system lists them
    ([os.scandir]).  There are no symbolic links, devices or permission
    bits, so a path names the node found by walking the components of its
    absolute normal form from the root. *)

Module FileSys.
Import PyStr PosixPath.

Definition bytes := list byte.
Definition path := list string.

Inductive node : Type :=
| File (data : bytes)
| Dir (entries : list (string * node)).

Definition entries_t := list (string * node).

Definition is_dir (n : node) : bool :=
  match n with Dir _ => true | File _ => false end.

Fixpoint assoc (name : string) (es : entries_t) : option node :=
  match es with
  | [] => None
  | (k, v) :: es' => if String.eqb k name then Some v else assoc name es'
  end.

(** Replace the entry called [name] where it stands, or add it after the
    others. *)
Fixpoint set_entry (name : string) (v : node) (es : entries_t) : entries_t :=
  match es with
  | [] => [(name, v)]
  | (k, w) :: es' =>
      if String.eqb k name then (k, v) :: es'
      else (k, w) :: set_entry name v es'
  end.

Definition del_entry (name : string) (es : entries_t) : entries_t :=
  filter (fun kv => negb (String.eqb (fst kv) name)) es.

Fixpoint tree_get (p : path) (n : node) : option node :=
  match p with
  | [] => Some n
  | c :: p' =>
      match n with
      | File _ => None
      | Dir es =>
          match assoc c es with
          | Some child => tree_get p' child
          | None => None
          end
      end
  end.

Inductive os_error : Type :=
| FileNotFoundError
| FileExistsError
| IsADirectoryError
| NotADirectoryError
| DeviceBusy.

Inductive result (A : Type) : Type :=
| Ok (a : A)
| Err (e : os_error).
Arguments Ok {A} a.
Arguments Err {A} e.

Definition map_result {A B} (f : A -> B) (r : result A) : result B :=
  match r with Ok a => Ok (f a) | Err e => Err e end.

(** [open(p, "wb")] followed by the write of [data]: the parent must be a
    directory, and [p] itself must not be one. *)
Fixpoint tree_write (p : path) (data : bytes) (n : node) : result node :=
  match n with
  | File _ =>
      match p with
      | [] => Ok (File data)
      | _ :: _ => Err NotADirectoryError
      end
  | Dir es =>
      match p with
      | [] => Err IsADirectoryError
      | c :: p' =>
          match assoc c es with
          | Some child =>
              map_result (fun child' => Dir (set_entry c child' es))
                         (tree_write p' data child)
          | None =>
              match p' with
              | [] => Ok (Dir (set_entry c (File data) es))
              | _ :: _ => Err FileNotFoundError
              end
          end
      end
  end.

(** [os.makedirs(p, exist_ok=True)]: every missing directory on the way is
    created; a regular file on the way, or at [p], is an error and nothing
    is created then. *)
Fixpoint tree_mkdirs (p : path) (n : node) : result node :=
  match n with
  | File _ =>
      match p with
      | [] => Err FileExistsError
      | _ :: _ => Err NotADirectoryError
      end
  | Dir es =>
      match p with
      | [] => Ok n
      | c :: p' =>
          map_result (fun child' => Dir (set_entry c child' es))
                     (tree_mkdirs p' match assoc c es with
                                     | Some child => child
                                     | None => Dir []
                                     end)
      end
  end.

(** Unlink the entry [p] names (with all that is below it). *)
Fixpoint tree_del (p : path) (n : node) : node :=
  match n with
  | File _ => n
  | Dir es =>
      match p with
      | [] => n
      | [c] => Dir (del_entry c es)
      | c :: p' =>
          match assoc c es with
          | Some child => Dir (set_entry c (tree_del p' child) es)
          | None => n
          end
      end
  end.

(** *** Vocabulary for the statements about the tree *)

(** The content of the regular file at [p], if there is one. *)
Definition file_at (p : path) (fs : node) : option bytes :=
  match tree_get p fs with
  | Some (File data) => Some data
  | _ => None
  end.

Definition dir_at (p : path) (fs : node) : bool :=
  match tree_get p fs with
  | Some (Dir _) => true
  | _ => false
  end.

(** [p] is [t] or lies below it. *)
Definition below (t p : path) : Prop := exists rest, p = t ++ rest.

(** *** Exceptions and the state monad of the functions *)

Inductive exn : Type :=
| OSError (e : os_error)
| ValueError (msg : string)
| RuntimeError (msg : string)
| BadZipFile.

Inductive outcome (A : Type) : Type :=
| Return (a : A)
| Raise (e : exn).
Arguments Return {A} a.
Arguments Raise {A} e.

(** A call takes the file system and gives it back, changed by what was
    done before a return or a raise. *)
Definition M (A : Type) : Type := node -> node * outcome A.

Definition ret {A} (a : A) : M A := fun fs => (fs, Return a).
Definition raise {A} (e : exn) : M A := fun fs => (fs, Raise e).
Definition bind {A B} (c : M A) (k : A -> M B) : M B :=
  fun fs =>
    match c fs with
    | (fs', Return a) => k a fs'
    | (fs', Raise e) => (fs', Raise e)
    end.
Definition get_fs : M node := fun fs => (fs, Return fs).

(** [try: c  except E: handler], where [caught] tells the exceptions of
    class [E]: the handler runs on the file system as [c] left it. *)
Definition try_except {A} (c : M A) (caught : exn -> bool) (handler : M A)
  : M A :=
  fun fs =>
    match c fs with
    | (fs', Return a) => (fs', Return a)
    | (fs', Raise e) => if caught e then handler fs' else (fs', Raise e)
    end.

Definition lift (r : node -> result node) : M unit :=
  fun fs =>
    match r fs with
    | Ok fs' => (fs', Return tt)
    | Err e => (fs, Raise (OSError e))
    end.

(** [for x in xs: body(x)] *)
Fixpoint for_each {X} (xs : list X) (body : X -> M unit) : M unit :=
  match xs with
  | [] => ret tt
  | x :: xs' => bind (body x) (fun _ => for_each xs' body)
  end.

Section Calls.
Variable cwd : list string.

(** The node a path string names.  The path is resolved on its text, as
    [os.path.abspath] does; the operating system walks the components
    instead, and finds the same node when no component is empty, [.] or
    [..] and the tree has no symbolic link.  It refuses the empty string, a
    final [/] after the name of a file and a [..] after a name that is not
    there or names a file, which the calls below do not: statements about
    a path that is handed to the operating system as it is are made for
    paths without such components. *)
Definition resolve (p : string) : path := abs_components cwd p.

Definition stat (p : string) (fs : node) : option node :=
  tree_get (resolve p) fs.

(** [os.path.isfile] *)
Definition isfile (p : string) (fs : node) : bool :=
  match stat p fs with Some (File _) => true | _ => false end.

(** [os.path.isdir] *)
Definition isdir (p : string) (fs : node) : bool :=
  match stat p fs with Some (Dir _) => true | _ => false end.

(** [os.remove] *)
Definition os_remove (p : string) : M unit :=
  fun fs =>
    match stat p fs with
    | Some (File _) => (tree_del (resolve p) fs, Return tt)
    | Some (Dir _) => (fs, Raise (OSError IsADirectoryError))
    | None => (fs, Raise (OSError FileNotFoundError))
    end.

(** [shutil.rmtree]: the root directory can be emptied but not
    removed. *)
Definition rmtree (p : string) : M unit :=
  fun fs =>
    match stat p fs with
    | Some (Dir _) =>
        match resolve p with
        | [] => (Dir [], Raise (OSError DeviceBusy))
        | _ :: _ => (tree_del (resolve p) fs, Return tt)
        end
    | Some (File _) => (fs, Raise (OSError NotADirectoryError))
    | None => (fs, Raise (OSError FileNotFoundError))
    end.

(** [os.makedirs(p, exist_ok=True)] *)
Definition makedirs (p : string) : M unit :=
  lift (tree_mkdirs (resolve p)).

(** [with open(p, "wb") as f: f.write(data)] *)
Definition write_file (p : string) (data : bytes) : M unit :=
  lift (tree_write (resolve p) data).

(** [open(p, "rb").read()] *)
Definition read_file (p : string) : M bytes :=
  fun fs =>
    match stat p fs with
    | Some (File data) => (fs, Return data)
    | Some (Dir _) => (fs, Raise (OSError IsADirectoryError))
    | None => (fs, Raise (OSError FileNotFoundError))
    end.

(** [os.walk(top)], top-down: one triple [(root, dirs, files)] for the
    directory, then the walk of each of [dirs] in their listed order;
    nothing when [top] cannot be listed. *)
Definition dir_names (es : entries_t) : list string :=
  map fst (filter (fun kv => is_dir (snd kv)) es).
Definition file_names (es : entries_t) : list string :=
  map fst (filter (fun kv => negb (is_dir (snd kv))) es).

Fixpoint walk_node (top : string) (n : node)
  : list (string * list string * list string) :=
  match n with
  | File _ => []
  | Dir es =>
      (top, dir_names es, file_names es)
        :: (fix walk_entries (l : entries_t) :=
              match l with
              | [] => []
              | (name, child) :: l' =>
                  (if is_dir child then walk_node (join top name) child
                   else [])
                    ++ walk_entries l'
              end) es
  end.

Definition walk (top : string) (fs : node)
  : list (string * list string * list string) :=
  match stat top fs with
  | Some n => walk_node top n
  | None => []
  end.
End Calls.

End FileSys.

(* ------------------------------------------------------------------ *)
(** ** JSON values, zip members and the library calls *)

Module Lib.
Import FileSys.

(** What [json.loads] returns.  A [dict] is kept as the list of its items
    in insertion order; [json.loads] leaves no key twice. *)
Inductive json : Type :=
| JNull
| JBool (b : bool)
| JNumber (digits : string)
| JString (s : string)
| JArray (items : list json)
| JObject (items : list (string * json)).

(** [payload.get(key)] *)
Fixpoint dict_get (key : string) (items : list (string * json))
  : option json :=
  match items with
  | [] => None
  | (k, v) :: items' =>
      if String.eqb k key then Some v else dict_get key items'
  end.

(** [key in payload] *)
Definition dict_has (key : string) (items : list (string * json)) : bool :=
  existsb (fun kv => String.eqb (fst kv) key) items.

(** A member of an archive as [infolist()] and [archive.open(member)]
    show it: its name and its decompressed content.  An archive keeps for
    each member also the modification time and the mode of the file it was
    written from; they are not kept here. *)
Record ZipMember : Type := mkMember {
  filename : string;
  content : bytes
}.

(** [ZipInfo.is_dir()] on a POSIX host *)
Definition member_is_dir (m : ZipMember) : bool :=
  PyStr.endswith_sep (filename m).

(** An entry of an archive that was opened.  Its data is read well, and
    it is the member [m]; or it is not: [archive.open] raises [e], and
    nothing is [written], or the copy of the data raises [e] after the
    bytes [written] went to the destination ([zipfile.BadZipFile] for a
    header or a checksum that is wrong). *)
Inductive ZipEntry : Type :=
| Readable (m : ZipMember)
| Unreadable (name : string) (written : option bytes) (e : exn).

Definition entry_name (entry : ZipEntry) : string :=
  match entry with
  | Readable m => filename m
  | Unreadable name _ _ => name
  end.

Definition entry_is_dir (entry : ZipEntry) : bool :=
  PyStr.endswith_sep (entry_name entry).

(** The calls into [zipfile], [base64], [json] and the codec of text
    files, and the working directory of the process.

    - [zip_write ms]: the bytes in the buffer once a
      [ZipFile(buffer, "w", ZIP_DEFLATED)] to which the members [ms] were
      written, in this order, is closed, each with the modification time
      and the mode its file has during the call; the bytes of two calls
      are to be compared only where these are the same;
    - [zip_read b]: the entries of [ZipFile(io.BytesIO(b))] in
      [infolist()] order, each with what [archive.open] and the reading of
      its data give; [None] when [ZipFile] itself raises [BadZipFile];
    - [b64encode d]: [base64.b64encode(d).decode("ascii")];
    - [b64decode s]: [base64.b64decode(s, validate=True)], [None] when it
      raises, and then [b64decode_error s] is the text of the exception;
    - [utf8_decode b]: [b.decode("utf-8")], [None] when it raises;
    - [json_loads s]: [json.loads(s)], [None] when it raises;
    - [json_dump v]: the bytes [json.dump(v, f)] leaves in a file opened
      with [open(path, "w", encoding="utf-8")]. *)
Record Runtime : Type := mkRuntime {
  cwd : list string;
  zip_write : list ZipMember -> bytes;
  zip_read : bytes -> option (list ZipEntry);
  b64encode : bytes -> string;
  b64decode : string -> option bytes;
  b64decode_error : string -> string;
  utf8_decode : bytes -> option string;
  json_loads : string -> option json;
  json_dump : json -> bytes
}.

(** [sorted(files)]: Python compares [str] by code point, which is the
    byte order of the UTF-8 names kept here. *)
Module StringOrder <: Orders.TotalLeBool.
Definition t := string.
Definition leb := String.leb.
Theorem leb_total : forall x y, leb x y = true \/ leb y x = true.
Proof. exact String.leb_total. Qed.
End StringOrder.
Module StringSort := Mergesort.Sort StringOrder.

Definition sorted (l : list string) : list string := StringSort.sort l.

End Lib.

(* ------------------------------------------------------------------ *)
(** ** [scripts/garmin_token_store.py] *)

Module TokenStore.
Import PyStr PosixPath FileSys Lib.

Definition OAUTH1_TOKEN_FILENAME : string := "oauth1_token.json".
Definition OAUTH2_TOKEN_FILENAME : string := "oauth2_token.json".

(** The three exceptions the module raises itself, under the names the
    specification gives them. *)
Definition UnsafeArchiveEntryError (raw_name : string) : exn :=
  ValueError ("Unsafe token store archive entry: " +++ raw_name).
Definition EmptyArchiveError : exn :=
  RuntimeError "Generated Garmin token store archive was empty.".
Definition InvalidEncodingError (cause : string) : exn :=
  ValueError ("Invalid Garmin token_store_b64 value: " +++ cause).

Definition is_BadZipFile (e : exn) : bool :=
  match e with BadZipFile => true | _ => false end.

Notation "x <- c ;; k" := (bind c (fun x => k))
  (at level 61, c at next level, right associativity).
Notation "c ;;; k" := (bind c (fun _ => k))
  (at level 61, right associativity).

Section Program.
Variable rt : Runtime.

Local Abbreviation isfile := (FileSys.isfile (cwd rt)).
Local Abbreviation isdir := (FileSys.isdir (cwd rt)).
Local Abbreviation abspath := (PosixPath.abspath (cwd rt)).
Local Abbreviation relpath := (PosixPath.relpath (cwd rt)).
Local Abbreviation makedirs := (FileSys.makedirs (cwd rt)).
Local Abbreviation write_file := (FileSys.write_file (cwd rt)).
Local Abbreviation read_file := (FileSys.read_file (cwd rt)).

Definition token_store_ready (directory : string) (fs : node) : bool :=
  isfile (join directory OAUTH1_TOKEN_FILENAME) fs
  && isfile (join directory OAUTH2_TOKEN_FILENAME) fs.

Definition _write_json (path : string) (payload : json) : M unit :=
  write_file path (json_dump rt payload).

(** [with open(path, "r", encoding="utf-8") as f: json.load(f)] under
    [try ... except Exception], [None] when anything is raised.  The
    newline translation of text mode turns a carriage return into a line
    feed, both white space between JSON tokens and both refused inside
    a JSON string, so it is left out. *)
Definition load_json_file (path : string) (fs : node) : option json :=
  match read_file path fs with
  | (_, Return data) =>
      match utf8_decode rt data with
      | Some text => json_loads rt text
      | None => None
      end
  | (_, Raise _) => None
  end.

Definition hydrate_token_store_from_legacy_file
           (path directory : string) : M unit :=
  fs <- get_fs ;;
  if negb (isfile path fs) then ret tt
  else
    match load_json_file path fs with
    | None => ret tt
    | Some payload =>
        match payload with
        | JObject items =>
            let oauth1 := dict_get "oauth1_token" items in
            let oauth2 := dict_get "oauth2_token" items in
            match oauth1 with
            | Some (JObject o1) =>
                _write_json (join directory OAUTH1_TOKEN_FILENAME)
                            (JObject o1)
            | _ => ret tt
            end ;;;
            match oauth2 with
            | Some (JObject o2) =>
                _write_json (join directory OAUTH2_TOKEN_FILENAME)
                            (JObject o2)
            | _ => ret tt
            end
        | _ => ret tt
        end
    end.

(** [ZipInfo.from_file]'s treatment of [arcname], as [archive.write]
    applies it: [normpath], then the leading separators dropped. *)
Definition zip_arcname (arcname : string) : string :=
  lstrip_sep (normpath arcname).

(** The body of the inner loop: [archive.write(full_path, arcname)]
    reads the file and appends a member, with the name and the data kept
    here and the modification time and the mode of the file, which are
    not. *)
Definition archive_write (directory root filename : string)
  : M ZipMember :=
  let full_path := join root filename in
  let rel_path := relpath full_path directory in
  data <- read_file full_path ;;
  ret (mkMember (zip_arcname rel_path) data).

Fixpoint collect {X Y} (xs : list X) (f : X -> M (list Y)) : M (list Y) :=
  match xs with
  | [] => ret []
  | x :: xs' =>
      ys <- f x ;;
      zs <- collect xs' f ;;
      ret (ys ++ zs)
  end.

(** The members written by the two nested loops, in order. *)
Definition archive_members (directory : string) : M (list ZipMember) :=
  fs <- get_fs ;;
  collect (FileSys.walk (cwd rt) directory fs)
          (fun '(root, _dirs, files) =>
             collect (sorted files)
                     (fun filename =>
                        m <- archive_write directory root filename ;;
                        ret [m])).

Definition encode_token_store_dir_as_zip_b64 (directory : string)
  : M string :=
  members <- archive_members directory ;;
  let data := zip_write rt members in
  match data with
  | [] => raise EmptyArchiveError
  | _ :: _ => ret (b64encode rt data)
  end.

Definition decode_token_store_b64 (encoded : string) : outcome bytes :=
  match b64decode rt encoded with
  | Some data => Return data
  | None => Raise (InvalidEncodingError (b64decode_error rt encoded))
  end.

Definition _clear_and_prepare_dir (path : string) : M unit :=
  fs <- get_fs ;;
  (if isfile path fs then os_remove (cwd rt) path
   else if isdir path fs then rmtree (cwd rt) path
   else ret tt) ;;;
  makedirs path.

(** The checks of one member of [_safe_extract_zip], up to the write:
    the destination when the member passes, [None] when it is
    refused. *)
Definition safe_destination (target_abs raw_name : string)
  : option string :=
  let normalized_name := replace_char backslash sep_char raw_name in
  if startswith normalized_name "/" || startswith normalized_name "../"
  then None
  else if contains "/../" normalized_name
          || String.eqb normalized_name ".."
  then None
  else
    let destination := abspath (join target_abs normalized_name) in
    if negb (String.eqb destination target_abs)
       && negb (startswith destination (target_abs +++ "/"))
    then None
    else Some destination.

Definition extract_member (target_abs : string) (member : ZipMember)
  : M unit :=
  let raw_name := filename member in
  if negb (nonempty raw_name) then ret tt
  else
    match safe_destination target_abs raw_name with
    | None => raise (UnsafeArchiveEntryError raw_name)
    | Some destination =>
        if member_is_dir member then makedirs destination
        else
          makedirs (dirname destination) ;;;
          write_file destination (content member)
    end.

(** The same turn of the loop for a member whose data cannot be read:
    the checks and the directories are as before, then [archive.open]
    raises [e], or the destination is opened and the copy raises [e] after
    the bytes [written]. *)
Definition extract_unreadable (target_abs raw_name : string)
           (written : option bytes) (e : exn) : M unit :=
  if negb (nonempty raw_name) then ret tt
  else
    match safe_destination target_abs raw_name with
    | None => raise (UnsafeArchiveEntryError raw_name)
    | Some destination =>
        if endswith_sep raw_name then makedirs destination
        else
          makedirs (dirname destination) ;;;
          match written with
          | None => raise e
          | Some data => write_file destination data ;;; raise e
          end
    end.

Definition extract_entry (target_abs : string) (entry : ZipEntry)
  : M unit :=
  match entry with
  | Readable member => extract_member target_abs member
  | Unreadable raw_name written e =>
      extract_unreadable target_abs raw_name written e
  end.

Definition _safe_extract_zip (archive : list ZipEntry)
           (target_dir : string) : M unit :=
  let target_abs := abspath target_dir in
  for_each archive (extract_entry target_abs).

Definition legacy_fallback (token_bytes : bytes)
           (token_store_path : string) : M unit :=
  let payload :=
    match utf8_decode rt token_bytes with
    | Some text => json_loads rt text
    | None => None
    end in
  match payload with
  | Some (JObject items) =>
      let oauth1 := dict_get "oauth1_token" items in
      let oauth2 := dict_get "oauth2_token" items in
      match oauth1 with
      | Some (JObject o1) =>
          _write_json (join token_store_path OAUTH1_TOKEN_FILENAME)
                      (JObject o1)
      | _ => ret tt
      end ;;;
      match oauth2 with
      | Some (JObject o2) =>
          _write_json (join token_store_path OAUTH2_TOKEN_FILENAME)
                      (JObject o2)
      | _ => ret tt
      end ;;;
      (if dict_has "oauth_token" items
          && dict_has "oauth_token_secret" items
       then _write_json (join token_store_path OAUTH1_TOKEN_FILENAME)
                        (JObject items)
       else ret tt) ;;;
      (if dict_has "access_token" items
       then _write_json (join token_store_path OAUTH2_TOKEN_FILENAME)
                        (JObject items)
       else ret tt)
  | _ => ret tt
  end.

(** The [try] block: [zipfile.ZipFile(io.BytesIO(token_bytes))] raises
    [BadZipFile] for bytes that are no archive; otherwise the archive is
    extracted, and [extracted = True] is reached when that returns. *)
Definition open_and_extract (token_bytes : bytes)
           (token_store_path : string) : M bool :=
  match zip_read rt token_bytes with
  | Some archive =>
      _safe_extract_zip archive token_store_path ;;;
      ret true
  | None => raise BadZipFile
  end.

Definition write_token_store_bytes (token_bytes : bytes)
           (token_store_path : string) : M string :=
  _clear_and_prepare_dir token_store_path ;;;
  extracted <- try_except (open_and_extract token_bytes token_store_path)
                          is_BadZipFile
                          (* except zipfile.BadZipFile: extracted = False *)
                          (ret false) ;;
  if extracted then ret token_store_path
  else
    legacy_fallback token_bytes token_store_path ;;;
    ret token_store_path.
End Program.

End TokenStore.

(* ------------------------------------------------------------------ *)
(** ** An executable runtime

    Base64 as RFC 4648 defines it; a container that lays members out one
    after the other, each followed by a check of its data, and ends, as
    every zip file does, with the 22-byte end-of-central-directory record; ASCII as the decodable text; a reader
    and a writer for JSON objects, arrays, plain strings, integers and the
    three literals.  It serves to run the functions above on concrete
    inputs. *)

Module Demo.
Import PyStr PosixPath FileSys Lib.
Local Open Scope N_scope.

Definition b64_alphabet : list ascii :=
  list_ascii_of_string
    "ABCDEFGHIJKLMNOPQRSTUVWXYZabcdefghijklmnopqrstuvwxyz0123456789+/".

Definition b64_char (n : N) : ascii :=
  nth (N.to_nat (n mod 64)) b64_alphabet "="%char.

Fixpoint index_of (c : ascii) (l : list ascii) (i : N) : option N :=
  match l with
  | [] => None
  | d :: l' => if Ascii.eqb c d then Some i else index_of c l' (i + 1)
  end.

Definition b64_val (c : ascii) : option N := index_of c b64_alphabet 0.

Definition byte_N (b : byte) : N := Byte.to_N b.
Definition N_byte (n : N) : byte :=
  match Byte.of_N (n mod 256) with Some b => b | None => x00 end.

Fixpoint b64_encode_list (l : list byte) : list ascii :=
  match l with
  | [] => []
  | [a] =>
      let n := byte_N a * 65536 in
      [b64_char (n / 262144); b64_char (n / 4096); "="%char; "="%char]
  | [a; b] =>
      let n := byte_N a * 65536 + byte_N b * 256 in
      [b64_char (n / 262144); b64_char (n / 4096); b64_char (n / 64);
       "="%char]
  | a :: b :: c :: r =>
      let n := byte_N a * 65536 + byte_N b * 256 + byte_N c in
      b64_char (n / 262144) :: b64_char (n / 4096) :: b64_char (n / 64)
               :: b64_char n :: b64_encode_list r
  end%list.

Definition demo_b64encode (d : bytes) : string :=
  string_of_list_ascii (b64_encode_list d).

Definition pad : ascii := "="%char.

Fixpoint b64_decode_list (l : list ascii) : option (list byte) :=
  match l with
  | [] => Some []
  | a :: b :: c :: d :: r =>
      match b64_val a, b64_val b with
      | Some x, Some y =>
          match r, Ascii.eqb c pad, Ascii.eqb d pad with
          | [], true, true =>
              Some [N_byte ((x * 64 + y) / 16)]
          | [], false, true =>
              match b64_val c with
              | Some z => let n := (x * 64 + y) * 64 + z in
                          Some [N_byte (n / 1024); N_byte (n / 4)]
              | None => None
              end
          | _, _, _ =>
              match b64_val c, b64_val d, b64_decode_list r with
              | Some z, Some w, Some rest =>
                  let n := ((x * 64 + y) * 64 + z) * 64 + w in
                  Some (N_byte (n / 65536) :: N_byte (n / 256)
                               :: N_byte n :: rest)
              | _, _, _ => None
              end
          end
      | _, _ => None
      end
  | _ => None
  end%list.

Definition demo_b64decode (s : string) : option bytes :=
  b64_decode_list (list_ascii_of_string s).

(** The text of the exception, for the two ways a text is refused. *)
Definition demo_b64decode_error (s : string) : string :=
  if forallb (fun c => match b64_val c with
                       | Some _ => true
                       | None => Ascii.eqb c pad
                       end) (list_ascii_of_string s)
  then "Incorrect padding"
  else "Only base64 data is allowed".

(** Little-endian fields *)
Definition le16 (n : N) : bytes := [N_byte n; N_byte (n / 256)]%list.
Definition le32 (n : N) : bytes :=
  [N_byte n; N_byte (n / 256); N_byte (n / 65536);
   N_byte (n / 16777216)]%list.
Definition un16 (b : bytes) : N :=
  match b with
  | lo :: hi :: _ => byte_N lo + 256 * byte_N hi
  | _ => 0
  end%list.
Definition un32 (b : bytes) : N :=
  match b with
  | b0 :: b1 :: b2 :: b3 :: _ =>
      byte_N b0 + 256 * (byte_N b1 + 256 * (byte_N b2 + 256 * byte_N b3))
  | _ => 0
  end%list.

Definition len {A} (l : list A) : N := N.of_nat (List.length l).

(** The check of the data of a member: the sum of its bytes, where a
    zip file has a CRC-32. *)
Definition checksum (data : bytes) : byte :=
  N_byte (fold_left (fun s x => s + byte_N x) data 0).

Definition member_record (m : ZipMember) : bytes :=
  let name := list_byte_of_string (filename m) in
  (le16 (len name) ++ name ++ le32 (len (content m)) ++ content m
     ++ [checksum (content m)])%list.

(** [PK\005\006], the counts of members, and a central directory of size
    and offset zero with no comment. *)
Definition end_record (n : N) : bytes :=
  ([x50; x4b; x05; x06] ++ le16 0 ++ le16 0 ++ le16 n ++ le16 n
     ++ le32 0 ++ le32 0 ++ le16 0)%list.

Definition bytes_eqb (a b : bytes) : bool :=
  if list_eq_dec Byte.byte_eq_dec a b then true else false.

Definition demo_zip_write (ms : list ZipMember) : bytes :=
  (concat (map member_record ms) ++ end_record (len ms))%list.

(** A member whose check fails is listed all the same; reading it raises
    [BadZipFile] when the end of its data is reached, which for data of
    less than one buffer is before anything is copied. *)
Fixpoint read_records (n : nat) (b : bytes) : option (list ZipEntry) :=
  match n with
  | O => match b with [] => Some [] | _ => None end%list
  | S n' =>
      let nl := N.to_nat (un16 b) in
      let b1 := skipn 2 b in
      let name := firstn nl b1 in
      let b2 := skipn nl b1 in
      let dl := N.to_nat (un32 b2) in
      let b3 := skipn 4 b2 in
      let data := firstn dl b3 in
      let b4 := skipn dl b3 in
      if (Nat.ltb (List.length b) 7
          || negb (Nat.eqb (List.length name) nl)
          || negb (Nat.eqb (List.length data) dl)
          || Nat.ltb (List.length b4) 1)%bool
      then None
      else
        match read_records n' (skipn 1 b4) with
        | Some ms =>
            Some ((if bytes_eqb (firstn 1 b4) [checksum data]
                   then Readable (mkMember (string_of_list_byte name) data)
                   else Unreadable (string_of_list_byte name) (Some [])
                                   BadZipFile) :: ms)
        | None => None
        end
  end%list.

Definition demo_zip_read (b : bytes) : option (list ZipEntry) :=
  let k := (List.length b - 22)%nat in
  let tail := skipn k b in
  let n := un16 (skipn 8 tail) in
  if (Nat.leb 22 (List.length b) && bytes_eqb tail (end_record n))%bool
  then read_records (N.to_nat n) (firstn k b)
  else None.

Definition demo_utf8_decode (b : bytes) : option string :=
  if forallb (fun x => byte_N x <? 128) b
  then Some (string_of_list_byte b) else None.

(** *** JSON *)

Definition is_ws (c : ascii) : bool :=
  (Ascii.eqb c " " || Ascii.eqb c "010" || Ascii.eqb c "013"
   || Ascii.eqb c "009")%char%bool.
Definition is_digit (c : ascii) : bool :=
  let n := N_of_ascii c in (48 <=? n) && (n <=? 57).
Definition quote : ascii := ascii_of_nat 34.

Fixpoint skip_ws (l : list ascii) : list ascii :=
  match l with
  | c :: r => if is_ws c then skip_ws r else l
  | [] => []
  end%list.

(** The characters of a string up to its closing quote; escapes and
    control characters are refused. *)
Fixpoint read_string (l : list ascii) : option (string * list ascii) :=
  match l with
  | [] => None
  | c :: r =>
      if Ascii.eqb c quote then Some (EmptyString, r)
      else if (Ascii.eqb c backslash || (N_of_ascii c <? 32))%bool then None
      else match read_string r with
           | Some (s, r') => Some (String c s, r')
           | None => None
           end
  end%list.

Fixpoint read_digits (l : list ascii) : string * list ascii :=
  match l with
  | c :: r =>
      if is_digit c then let (s, r') := read_digits r in (String c s, r')
      else (EmptyString, l)
  | [] => (EmptyString, [])
  end%list.

Definition expect (word : string) (v : json) (l : list ascii)
  : option (json * list ascii) :=
  let w := list_ascii_of_string word in
  if string_dec (string_of_list_ascii (firstn (List.length w) l)) word
  then Some (v, skipn (List.length w) l) else None.

Fixpoint read_value (fuel : nat) (l : list ascii)
  : option (json * list ascii) :=
  match fuel with
  | O => None
  | S fuel' =>
      match skip_ws l with
      | [] => None
      | c :: r =>
          if Ascii.eqb c quote then
            match read_string r with
            | Some (s, r') => Some (JString s, r')
            | None => None
            end
          else if Ascii.eqb c "{" then
            match skip_ws r with
            | "}"%char :: r' => Some (JObject [], r')
            | _ =>
                option_map (fun '(kvs, l') => (JObject kvs, l'))
                ((fix items (n : nat) (l : list ascii)
                   : option (list (string * json) * list ascii) :=
                   match n with
                   | O => None
                   | S n' =>
                       match skip_ws l with
                       | q :: l1 =>
                           if Ascii.eqb q quote then
                             match read_string l1 with
                             | Some (k, l2) =>
                                 match skip_ws l2 with
                                 | ":"%char :: l3 =>
                                     match read_value fuel' l3 with
                                     | Some (v, l4) =>
                                         match skip_ws l4 with
                                         | ","%char :: l5 =>
                                             match items n' l5 with
                                             | Some (kvs, l6) =>
                                                 Some ((k, v) :: kvs, l6)
                                             | None => None
                                             end
                                         | "}"%char :: l5 =>
                                             Some ([(k, v)], l5)
                                         | _ => None
                                         end
                                     | None => None
                                     end
                                 | _ => None
                                 end
                             | None => None
                             end
                           else None
                       | [] => None
                       end
                   end) (List.length r) r)
            end
          else if Ascii.eqb c "[" then
            match skip_ws r with
            | "]"%char :: r' => Some (JArray [], r')
            | _ =>
                option_map (fun '(vs, l') => (JArray vs, l'))
                ((fix items (n : nat) (l : list ascii)
                   : option (list json * list ascii) :=
                   match n with
                   | O => None
                   | S n' =>
                       match read_value fuel' l with
                       | Some (v, l1) =>
                           match skip_ws l1 with
                           | ","%char :: l2 =>
                               match items n' l2 with
                               | Some (vs, l3) => Some (v :: vs, l3)
                               | None => None
                               end
                           | "]"%char :: l2 => Some ([v], l2)
                           | _ => None
                           end
                       | None => None
                       end
                   end) (List.length r) r)
            end
          else if (is_digit c || Ascii.eqb c "-")%bool then
            let (ds, r') := read_digits r in
            if (Ascii.eqb c "-" && negb (nonempty ds))%bool then None
            else Some (JNumber (String c ds), r')
          else if Ascii.eqb c "t" then expect "true" (JBool true) (c :: r)
          else if Ascii.eqb c "f" then expect "false" (JBool false) (c :: r)
          else if Ascii.eqb c "n" then expect "null" JNull (c :: r)
          else None
      end
  end%list.

Definition demo_json_loads (s : string) : option json :=
  let l := list_ascii_of_string s in
  match read_value (S (List.length l)) l with
  | Some (v, rest) =>
      match skip_ws rest with
      | [] => Some v
      | _ => None
      end%list
  | None => None
  end.

(** [json.dumps] with its default separators. *)
Fixpoint dumps (v : json) : string :=
  match v with
  | JNull => "null"
  | JBool true => "true"
  | JBool false => "false"
  | JNumber d => d
  | JString s => String quote (s +++ String quote "")
  | JArray vs => "[" +++ String.concat ", " (map dumps vs) +++ "]"
  | JObject kvs =>
      "{" +++ String.concat ", "
                (map (fun kv => String quote (fst kv +++ String quote ": ")
                                       +++ dumps (snd kv)) kvs)
          +++ "}"
  end.

Definition demo_json_dump (v : json) : bytes := list_byte_of_string (dumps v).

Definition runtime (cwd : list string) : Runtime :=
  {| cwd := cwd;
     zip_write := demo_zip_write;
     zip_read := demo_zip_read;
     b64encode := demo_b64encode;
     b64decode := demo_b64decode;
     b64decode_error := demo_b64decode_error;
     utf8_decode := demo_utf8_decode;
     json_loads := demo_json_loads;
     json_dump := demo_json_dump |}.

Definition text (s : string) : bytes := list_byte_of_string s.

(** JSON text is written here with an apostrophe where the quotation mark
    stands. *)
Definition q (s : string) : string := replace_char "'" quote s.

End Demo.


(* ------------------------------------------------------------------ *)
(** ** Vocabulary of the statements *)

Module Spec.
Import PyStr PosixPath FileSys Lib TokenStore.

(** A call leaves the entry at [q] as it was: the same file content if it
    is a file, a directory if it was one. *)
Definition preserves {A} (q : path) (c : M A) : Prop :=
  forall fs, file_at q (fst (c fs)) = file_at q fs
             /\ dir_at q (fst (c fs)) = dir_at q fs.

(** The ways in which [path] gives [hydrate_token_store_from_legacy_file]
    no JSON object: it is not a regular file, reading and parsing it raises,
    or what is parsed is not a [dict]. *)
Definition no_legacy_object (rt : Runtime) (path : string) (fs : node)
  : Prop :=
  isfile (cwd rt) path fs = false
  \/ load_json_file rt path fs = None
  \/ exists v, load_json_file rt path fs = Some v
               /\ forall items, v <> JObject items.

(** The payload of one of the four writes of the legacy fallback: the
    sub-object when there is one, the whole payload when the flattened keys
    are there, nothing otherwise. *)
Definition sub_object (o : option json) : option json :=
  match o with
  | Some (JObject x) => Some (JObject x)
  | _ => None
  end.

Definition when (c : bool) (v : json) : option json :=
  if c then Some v else None.

Definition maybe_write (rt : Runtime) (t name : string) (o : option json)
  : M unit :=
  match o with
  | Some v => _write_json rt (join t name) v
  | None => ret tt
  end.

(** The first of three contents that is there: what the flattened rule
    wrote, else what the sub-object rule wrote, else what was there. *)
Definition pick (a b c : option bytes) : option bytes :=
  match a with Some x => Some x | None =>
  match b with Some x => Some x | None => c end end.

(** The target of [write_token_store_bytes] once it is cleared and while
    the fallback writes into it: a directory in which neither token file
    name is taken by a directory. *)
Definition store_dir (rt : Runtime) (t : string) (fs : node) : Prop :=
  dir_at (resolve (cwd rt) t) fs = true
  /\ dir_at (resolve (cwd rt) t ++ [OAUTH1_TOKEN_FILENAME]) fs = false
  /\ dir_at (resolve (cwd rt) t ++ [OAUTH2_TOKEN_FILENAME]) fs = false.

(** [rt] with other text and JSON codecs. *)
Definition with_json (rt : Runtime) (u : bytes -> option string)
           (l : string -> option json) (d : json -> bytes) : Runtime :=
  mkRuntime (cwd rt) (zip_write rt) (zip_read rt) (b64encode rt)
            (b64decode rt) (b64decode_error rt) u l d.

(** [json.loads(token_bytes.decode("utf-8"))], [None] when it raises. *)
Definition parse_payload (rt : Runtime) (token_bytes : bytes) : option json :=
  match utf8_decode rt token_bytes with
  | Some text => json_loads rt text
  | None => None
  end.

(** *** Entries [_safe_extract_zip] must refuse *)

(** [raw_name.replace(backslash, "/")] *)
Definition normalized (raw_name : string) : string :=
  replace_char backslash sep_char raw_name.

(** The four tests on the normalized name. *)
Definition unsafe_name (n : string) : bool :=
  startswith n "/" || startswith n "../"
  || contains "/../" n || String.eqb n "..".

(** The resolved destination is neither the target root nor inside it past
    a separator. *)
Definition escapes (rt : Runtime) (target_abs n : string) : bool :=
  let destination := abspath (cwd rt) (join target_abs n) in
  negb (String.eqb destination target_abs)
  && negb (startswith destination (target_abs +++ "/")).

(** An entry that is not skipped for its empty name and fails one of the
    tests, whether its data can be read or not. *)
Definition unsafe_entry (rt : Runtime) (target_abs : string) (m : ZipEntry)
  : Prop :=
  nonempty (entry_name m) = true
  /\ (unsafe_name (normalized (entry_name m)) = true
      \/ escapes rt target_abs (normalized (entry_name m)) = true).

(** Reading the data of the entry does not raise [BadZipFile]. *)
Definition reads_without_BadZipFile (m : ZipEntry) : Prop :=
  match m with
  | Unreadable _ _ BadZipFile => False
  | _ => True
  end.

(** [q] lies inside the directory [t], not at it. *)
Definition strictly_below (t q : path) : Prop :=
  exists c rest, q = t ++ c :: rest.

(** Every file there is after the call is at or below [t], or was there
    before with the same content. *)
Definition no_new_files_outside {A} (t : path) (c : M A) : Prop :=
  forall fs q d,
    file_at q (fst (c fs)) = Some d -> below t q \/ file_at q fs = Some d.

Definition keeps_dirs {A} (c : M A) : Prop :=
  forall fs q, dir_at q fs = true -> dir_at q (fst (c fs)) = true.

(** The part of [write_token_store_bytes] after the clearing. *)
Definition after_clear (rt : Runtime) (token_bytes : bytes) (target : string)
  : M string :=
  bind (try_except (open_and_extract rt token_bytes target) is_BadZipFile
                   (ret false))
       (fun extracted : bool =>
          if extracted then ret target
          else bind (legacy_fallback rt token_bytes target)
                    (fun _ => ret target)).

(** The legacy fallback and the return that follows it. *)
Definition fallback_and_return (rt : Runtime) (token_bytes : bytes)
           (target : string) : M string :=
  bind (legacy_fallback rt token_bytes target) (fun _ => ret target).

(** *** Directory trees *)

(** There is a regular file in the tree. *)
Fixpoint has_file (n : node) : bool :=
  match n with
  | File _ => true
  | Dir es =>
      (fix any (l : entries_t) : bool :=
         match l with
         | [] => false
         | (_, child) :: l' => has_file child || any l'
         end) es
  end.

(** A directory tree as a file system has it: in every directory the
    names are valid and no name is there twice. *)
Inductive wf_node : node -> Prop :=
| wf_file d : wf_node (File d)
| wf_dir es :
    NoDup (map fst es) ->
    Forall (fun kv => valid_name (fst kv) = true /\ wf_node (snd kv)) es ->
    wf_node (Dir es).

Definition file_data (name : string) (es : entries_t) : bytes :=
  match assoc name es with
  | Some (File d) => d
  | _ => []
  end.

(** The members of the archive of a tree, by the tree alone: for each
    directory, top-down, its files in sorted order under their path from
    the top, then the same for its subdirectories in listed order. *)
Fixpoint tree_members (ds : list string) (n : node) : list ZipMember :=
  match n with
  | File _ => []
  | Dir es =>
      map (fun f => mkMember (join_sep (ds ++ [f])) (file_data f es))
          (sorted (file_names es))
      ++ (fix sub (l : entries_t) : list ZipMember :=
            match l with
            | [] => []
            | (k, child) :: l' =>
                (if is_dir child then tree_members (ds ++ [k]) child
                 else [])
                  ++ sub l'
            end) es
  end.

Definition file_entries (es : entries_t) : entries_t :=
  filter (fun kv => negb (is_dir (snd kv))) es.
Definition dir_entries (es : entries_t) : entries_t :=
  filter (fun kv => is_dir (snd kv)) es.

(** The same directory content: the same entries with the same content,
    listed in any order. *)
Inductive same_content : node -> node -> Prop :=
| same_file d : same_content (File d) (File d)
| same_dir es l es' :
    Permutation es l ->
    Forall2 (fun a b => fst a = fst b /\ same_content (snd a) (snd b)) l es' ->
    same_content (Dir es) (Dir es').

(** The same directory content with the subdirectories of every directory
    listed in the same order, the files in any order. *)
Inductive same_but_file_order : node -> node -> Prop :=
| sbf_file d : same_but_file_order (File d) (File d)
| sbf_dir es es' :
    Permutation (file_entries es) (file_entries es') ->
    Forall2 (fun a b => fst a = fst b /\ same_but_file_order (snd a) (snd b))
            (dir_entries es) (dir_entries es') ->
    same_but_file_order (Dir es) (Dir es').

Definition leb_true (a b : string) : Prop := String.leb a b = true.

(** No name in the tree has a backslash in it. *)
Inductive portable : node -> Prop :=
| portable_file d : portable (File d)
| portable_dir es :
    Forall (fun kv => no_backslash (fst kv) = true /\ portable (snd kv)) es ->
    portable (Dir es).

(** A member that stands for a file of the tree [src]: its name is the
    path of the file, made of names without a backslash, and its content is
    the content of the file. *)
Definition member_of (src : node) (m : ZipMember) : Prop :=
  exists q,
    q <> [] /\ Forall field q /\ Forall (fun c => no_backslash c = true) q
    /\ filename m = join_sep q /\ file_at q src = Some (content m).

(** What is below the target [tc] is found in [src] at the same place. *)
Definition mirrors (tc : path) (src fs : node) : Prop :=
  dir_at tc fs = true
  /\ (forall q d, file_at (tc ++ q) fs = Some d -> file_at q src = Some d)
  /\ (forall q, dir_at (tc ++ q) fs = true -> dir_at q src = true).

(** A fresh target: nothing is there, and the directory it is to be made
    in exists. *)
Definition fresh_target (rt : Runtime) (target : string) (fs : node) : Prop :=
  tree_get (resolve (cwd rt) target) fs = None
  /\ dir_at (removelast (resolve (cwd rt) target)) fs = true.

(** The archive [ms] survives [zipfile] and [base64]: it is written to a
    buffer that is not empty, read back as it was written, every member
    read well, and so are the bytes through base64. *)
Definition codec_round_trip (rt : Runtime) (ms : list ZipMember) : Prop :=
  zip_write rt ms <> []
  /\ zip_read rt (zip_write rt ms) = Some (map Readable ms)
  /\ b64decode rt (b64encode rt (zip_write rt ms)) = Some (zip_write rt ms).

(** The members [encode_token_store_dir_as_zip_b64] writes for
    [directory], the empty list should the walk raise. *)
Definition archive_of (rt : Runtime) (directory : string) (fs : node)
  : list ZipMember :=
  match snd (archive_members rt directory fs) with
  | Return ms => ms
  | Raise _ => []
  end.

End Spec.

(** Inputs on which the functions are run below. *)
Module Inputs.
Import PyStr PosixPath FileSys Lib TokenStore Demo.

Definition rt0 : Runtime := runtime ["home"; "u"].

(** A file system with a legacy session file, a file that is no JSON, and
    a directory whose [oauth1_token.json] is itself in the legacy format. *)
Definition fs_legacy : node :=
  Dir [("home", Dir [("u", Dir [])]);
       ("legacy.json",
        File (text (q "{'oauth1_token': {'oauth_token': 'a', 'oauth_token_secret': 'b'}, 'oauth2_token': {'access_token': 'c'}}")));
       ("broken.json", File (text "{not json"));
       ("d", Dir [("oauth1_token.json",
                   File (text (q "{'oauth1_token': {'a': 1}}")))])].

(** A flattened legacy payload, and one that has both a sub-object and
    the flattened keys. *)
Definition flat_payload : bytes :=
  text (q "{'oauth_token': 'a', 'oauth_token_secret': 'b', 'access_token': 'c'}").

Definition mixed_payload : bytes :=
  text (q "{'oauth1_token': {'x': 1}, 'oauth_token': 'a', 'oauth_token_secret': 'b', 'oauth2_token': {'y': 2}, 'access_token': 'c'}").

(** The archive of the test [test_zip_slip_is_rejected], after a harmless
    member. *)
Definition evil_archive : list ZipMember :=
  [mkMember "ok.txt" (text "fine"); mkMember "../evil.txt" (text "blocked")].

Definition evil_zip : bytes := demo_zip_write evil_archive.

Definition fs_dst : node :=
  Dir [("home", Dir [("u", Dir [])]); ("dst", Dir [])].

(** Two file systems whose directory [/d] has the same content, the two
    subdirectories listed one way and the other. *)
Definition fs_ab : node :=
  Dir [("d", Dir [("a", Dir [("x", File (text "1"))]);
                  ("b", Dir [("y", File (text "2"))])])].
Definition fs_ba : node :=
  Dir [("d", Dir [("b", Dir [("y", File (text "2"))]);
                  ("a", Dir [("x", File (text "1"))])])].

(** A ready token store with a subdirectory, and a place for a copy. *)
Definition token1 : bytes := text (q "{'oauth_token': 'a', 'oauth_token_secret': 'b'}").
Definition token2 : bytes := text (q "{'access_token': 'c'}").

Definition store_tree : node :=
  Dir [("oauth2_token.json", File token2);
       ("oauth1_token.json", File token1);
       ("sub", Dir [("note", File (text "n"))])].

Definition fs_store : node :=
  Dir [("home", Dir [("u", Dir [])]); ("src", store_tree); ("dst", Dir [])].

(** The same store with one more file, whose name starts with two dots
    and a backslash. *)
Definition fs_store_backslash : node :=
  Dir [("home", Dir [("u", Dir [])]);
       ("src", Dir [("oauth2_token.json", File token2);
                    ("oauth1_token.json", File token1);
                    ("..\evil", File (text "e"))]);
       ("dst", Dir [])].

(** And with a file whose name is that of a token file and a backslash. *)
Definition fs_store_alias : node :=
  Dir [("home", Dir [("u", Dir [])]);
       ("src", Dir [("oauth2_token.json", File token2);
                    ("oauth1_token.json", File token1);
                    ("oauth1_token.json\", File (text "other"))]);
       ("dst", Dir [])].

(** Encode [src], decode, and write into [dst]. *)
Definition round_trip (rt : Runtime) (src dst : string) : M string :=
  fun fs =>
    match encode_token_store_dir_as_zip_b64 rt src fs with
    | (fs1, Return encoded) =>
        match decode_token_store_b64 rt encoded with
        | Return token_bytes => write_token_store_bytes rt token_bytes dst fs1
        | Raise e => (fs1, Raise e)
        end
    | (fs1, Raise e) => (fs1, Raise e)
    end.

End Inputs.
(** More vocabulary. *)
Module MoreSpec.
Import PyStr PosixPath FileSys Lib TokenStore.

(** A call leaves every regular file that is not at or below [t] as it
    was, and removes no directory that is not at or below [t]. *)
Definition keeps_outside {A} (t : path) (c : M A) : Prop :=
  forall fs q,
    ~ below t q ->
    file_at q (fst (c fs)) = file_at q fs
    /\ (dir_at q fs = true -> dir_at q (fst (c fs)) = true).

(** A path string made of plain names: no component is empty, [.] or
    [..], but for the empty one before a leading [/].  The calls of [os]
    resolve a path on its text here; for a plain path, in a tree without
    symbolic links, that is the entry the operating system finds, while
    the empty string, a final [/] after the name of a file, or a [..] after
    a name that is not there, are refused by the operating system.  The
    theorems below about calls that hand a path to the operating system as
    it is are stated for plain paths. *)
Definition plain (p : string) : bool :=
  match split_sep p with
  | "" :: c :: rest => forallb proper (c :: rest)
  | comps => forallb proper comps
  end.

(** No regular file stands where a directory is needed on the way to
    [p]. *)
Definition no_file_above (p : path) (fs : node) : Prop :=
  forall p1 p2, p = p1 ++ p2 -> p2 <> [] -> file_at p1 fs = None.

End MoreSpec.

(** More inputs: a file system with a legacy session file in the flattened
    format. *)
Module MoreInputs.
Import PyStr PosixPath FileSys Lib TokenStore Demo.

Definition fs_flat : node :=
  Dir [("home", Dir [("u", Dir [])]);
       ("flat.json", File Inputs.flat_payload);
       ("d", Dir [])].

(** The payload of the test [test_write_legacy_json_payload], and bytes
    that are neither an archive nor JSON. *)
Definition nested_payload : bytes :=
  text (q "{'oauth1_token': {'oauth_token': 'a', 'oauth_token_secret': 'b'}, 'oauth2_token': {'access_token': 'c'}}").

Definition junk : bytes := text "not a token store".

(** The record of a member with a wrong check byte. *)
Definition corrupt_record (m : ZipMember) : bytes :=
  let name := list_byte_of_string (filename m) in
  le16 (len name) ++ name ++ le32 (len (content m)) ++ content m
    ++ [N_byte (byte_N (checksum (content m)) + 1)].

(** An archive of one member, whose check is wrong. *)
Definition corrupt_zip : bytes :=
  corrupt_record (mkMember "oauth1_token.json" Inputs.token1) ++ end_record 1.

(** The archive of the zip-slip test with the check of its first member
    wrong. *)
Definition corrupt_evil_zip : bytes :=
  corrupt_record (mkMember "ok.txt" (text "fine"))
    ++ member_record (mkMember "../evil.txt" (text "blocked"))
    ++ end_record 2.

End MoreInputs.

(* ------------------------------------------------------------------ *)
(** ** [tests/test_garmin_token_store.py]

    The test methods that call the module, each as the call it makes and
    the boolean it asserts.  [tempfile.TemporaryDirectory()] gives the path
    of a new empty directory; it is an argument here, and the theorems
    about a test say what they need of it.  [json.dumps(payload)] encoded
    as UTF-8 is [json_dump payload]: the text [json.dump] writes is the
    text [json.dumps] returns, and the file encodes it as UTF-8. *)

Module Tests.
Import PyStr PosixPath FileSys Lib TokenStore.

Definition oauth1_payload : json :=
  JObject [("oauth_token", JString "a"); ("oauth_token_secret", JString "b")].
Definition oauth2_payload : json :=
  JObject [("access_token", JString "c")].

(** The [payload] of [test_write_legacy_json_payload] and of
    [test_hydrate_from_legacy_file]. *)
Definition legacy_payload : json :=
  JObject [("oauth1_token", oauth1_payload); ("oauth2_token", oauth2_payload)].

Section Program.
Variable rt : Runtime.

Definition _write_required_tokens (directory : string) : M unit :=
  write_file (cwd rt) (join directory "oauth1_token.json")
             (json_dump rt oauth1_payload) ;;;
  write_file (cwd rt) (join directory "oauth2_token.json")
             (json_dump rt oauth2_payload).

(** [assertTrue(token_store_ready(token_store))] after the round trip. *)
Definition test_round_trip_zip_b64_write (src_dir dst_dir : string)
  : M bool :=
  _write_required_tokens src_dir ;;;
  encoded <- encode_token_store_dir_as_zip_b64 rt src_dir ;;
  token_bytes <- (fun fs => (fs, decode_token_store_b64 rt encoded)) ;;
  let token_store := join dst_dir ".garmin_token_store" in
  write_token_store_bytes rt token_bytes token_store ;;;
  fs <- get_fs ;;
  ret (token_store_ready rt token_store fs).

Definition test_write_legacy_json_payload (dst_dir : string) : M bool :=
  let token_bytes := json_dump rt legacy_payload in
  let token_store := join dst_dir ".garmin_token_store" in
  write_token_store_bytes rt token_bytes token_store ;;;
  fs <- get_fs ;;
  ret (token_store_ready rt token_store fs).

Definition test_hydrate_from_legacy_file (tmpdir : string) : M bool :=
  let legacy_path := join tmpdir "garth-session.json" in
  write_file (cwd rt) legacy_path (json_dump rt legacy_payload) ;;;
  hydrate_token_store_from_legacy_file rt legacy_path tmpdir ;;;
  fs <- get_fs ;;
  ret (token_store_ready rt tmpdir fs).

End Program.

End Tests.
(* ------------------------------------------------------------------ *)
(** ** The model on concrete inputs *)

Module PathExamples.
Import PyStr PosixPath.

Example split_root : split_sep "/" = [""; ""].
Proof. reflexivity. Qed.

Example split_abs : split_sep "/a//b/" = [""; "a"; ""; "b"; ""].
Proof. reflexivity. Qed.

Example normpath_dots : normpath "/a/./b/../../c/" = "/c".
Proof. reflexivity. Qed.

Example normpath_rel : normpath "a/../../b" = "../b".
Proof. reflexivity. Qed.

Example normpath_two : normpath "//a/.." = "//".
Proof. reflexivity. Qed.

Example normpath_three : normpath "///a" = "/a".
Proof. reflexivity. Qed.

Example abspath_rel : abspath ["home"; "u"] "x/../y" = "/home/u/y".
Proof. reflexivity. Qed.

Example abspath_empty : abspath ["home"; "u"] "" = "/home/u".
Proof. reflexivity. Qed.

Example dirname_1 : dirname "/a/b/c" = "/a/b".
Proof. reflexivity. Qed.

Example dirname_2 : dirname "/a" = "/".
Proof. reflexivity. Qed.

Example dirname_3 : dirname "a" = "".
Proof. reflexivity. Qed.

Example dirname_4 : dirname "//a" = "//".
Proof. reflexivity. Qed.

Example relpath_1 : relpath ["w"] "d/sub/f" "d" = "sub/f".
Proof. reflexivity. Qed.

Example relpath_2 : relpath ["w"] "/x" "d" = "../../x".
Proof. reflexivity. Qed.

Example contains_1 : contains "/../" "a/../b" = true.
Proof. reflexivity. Qed.

Example contains_2 : contains "/../" "a/.." = false.
Proof. reflexivity. Qed.
End PathExamples.

Module DemoExamples.
Import PyStr PosixPath FileSys Lib Demo.

Example b64_empty_zip :
  demo_b64encode (demo_zip_write []) = "UEsFBgAAAAAAAAAAAAAAAAAAAAAAAA==".
Proof. reflexivity. Qed.

Example b64_rfc4648 :
  map (fun s => demo_b64encode (text s)) ["f"; "fo"; "foo"; "foob"; "fooba"]
  = ["Zg=="; "Zm8="; "Zm9v"; "Zm9vYg=="; "Zm9vYmE="].
Proof. reflexivity. Qed.

Example b64_back :
  demo_b64decode "Zm9vYmE=" = Some (text "fooba")
  /\ demo_b64decode "!not-valid-base64!" = None.
Proof. split; reflexivity. Qed.

Example json_back :
  demo_json_loads (q "{'a': {'b': [1, true, null]}, 'c': 'd'}")
  = Some (JObject [("a", JObject [("b", JArray [JNumber "1"; JBool true;
                                                JNull])]);
                   ("c", JString "d")]).
Proof. reflexivity. Qed.

End DemoExamples.

(* ------------------------------------------------------------------ *)
(** ** Facts about the directory tree *)

Module FileSysFacts.
Import PyStr PosixPath FileSys.


Lemma assoc_set_same name v es : assoc name (set_entry name v es) = Some v.
Proof.
  induction es as [|[k w] es IH]; simpl.
  - now rewrite String.eqb_refl.
  - destruct (String.eqb_spec k name) as [->|Hne]; simpl.
    + now rewrite String.eqb_refl.
    + destruct (String.eqb_spec k name); [contradiction|exact IH].
Qed.

Lemma assoc_set_other name name' v es :
  name <> name' -> assoc name' (set_entry name v es) = assoc name' es.
Proof.
  intros Hne. induction es as [|[k w] es IH]; simpl.
  - destruct (String.eqb_spec name name'); [contradiction|reflexivity].
  - destruct (String.eqb_spec k name) as [->|Hk]; simpl.
    + destruct (String.eqb_spec name name'); [contradiction|reflexivity].
    + now rewrite IH.
Qed.

Lemma assoc_del_same name es : assoc name (del_entry name es) = None.
Proof.
  induction es as [|[k w] es IH]; simpl; [reflexivity|].
  destruct (String.eqb_spec k name) as [->|Hk]; simpl; [exact IH|].
  destruct (String.eqb_spec k name); [contradiction|exact IH].
Qed.

Lemma assoc_del_other name name' es :
  name <> name' -> assoc name' (del_entry name es) = assoc name' es.
Proof.
  intros Hne. induction es as [|[k w] es IH]; simpl; [reflexivity|].
  destruct (String.eqb_spec k name) as [->|Hk]; simpl.
  - destruct (String.eqb_spec name name'); [contradiction|exact IH].
  - now rewrite IH.
Qed.

Lemma tree_get_app p q n :
  tree_get (p ++ q) n =
  match tree_get p n with Some m => tree_get q m | None => None end.
Proof.
  revert n. induction p as [|c p IH]; intros n; simpl; [reflexivity|].
  destruct n as [d|es]; [reflexivity|].
  destruct (assoc c es); [apply IH|reflexivity].
Qed.

(** *** Writing a file *)

Lemma tree_write_get p data n n' :
  tree_write p data n = Ok n' -> tree_get p n' = Some (File data).
Proof.
  revert n n'. induction p as [|c p IH]; intros n n' H.
  - destruct n; simpl in H; [|discriminate]. now inversion H.
  - destruct n as [d|es]; simpl in H; [discriminate|].
    destruct (assoc c es) as [child|] eqn:Hc.
    + destruct (tree_write p data child) as [child'|] eqn:Hw;
        simpl in H; [|discriminate].
      inversion H; subst. simpl. rewrite assoc_set_same. eauto.
    + destruct p; [|discriminate]. inversion H; subst. simpl.
      now rewrite assoc_set_same.
Qed.

Lemma tree_write_frame p data n n' q :
  tree_write p data n = Ok n' -> q <> p -> file_at q n' = file_at q n.
Proof.
  unfold file_at.
  revert n n' q. induction p as [|c p IH]; intros n n' q H Hq.
  - destruct n; simpl in H; [|discriminate]. inversion H; subst.
    destruct q; [contradiction|reflexivity].
  - destruct n as [d|es]; simpl in H; [discriminate|].
    destruct q as [|c' q]; [destruct (assoc c es) as [child|];
      [destruct (tree_write p data child); simpl in H; [|discriminate]
      |destruct p; [|discriminate]]; inversion H; reflexivity|].
    destruct (String.eqb_spec c c') as [<-|Hne].
    + assert (Hq' : q <> p) by congruence.
      destruct (assoc c es) as [child|] eqn:Hc.
      * destruct (tree_write p data child) as [child'|] eqn:Hw;
          simpl in H; [|discriminate].
        inversion H; subst. simpl. rewrite assoc_set_same, Hc. eauto.
      * destruct p; [|discriminate]. inversion H; subst. simpl.
        rewrite assoc_set_same, Hc.
        destruct q; [contradiction|reflexivity].
    + assert (Hn' : exists es', n' = Dir (set_entry c es' es)
                                /\ True).
      { destruct (assoc c es) as [child|].
        - destruct (tree_write p data child); simpl in H; [|discriminate].
          inversion H; eauto.
        - destruct p; [|discriminate]. inversion H; eauto. }
      destruct Hn' as [v [-> _]]. simpl.
      now rewrite assoc_set_other.
Qed.

(** A successful write leaves directories directories. *)
Lemma tree_write_dir p data n n' q :
  tree_write p data n = Ok n' -> dir_at q n' = dir_at q n.
Proof.
  unfold dir_at.
  revert n n' q. induction p as [|c p IH]; intros n n' q H.
  - destruct n; simpl in H; [|discriminate]. inversion H; subst.
    destruct q; reflexivity.
  - destruct n as [d|es]; simpl in H; [discriminate|].
    destruct q as [|c' q]; [destruct (assoc c es) as [child|];
      [destruct (tree_write p data child); simpl in H; [|discriminate]
      |destruct p; [|discriminate]]; inversion H; reflexivity|].
    destruct (String.eqb_spec c c') as [<-|Hne].
    + destruct (assoc c es) as [child|] eqn:Hc.
      * destruct (tree_write p data child) as [child'|] eqn:Hw;
          simpl in H; [|discriminate].
        inversion H; subst. simpl. rewrite assoc_set_same, Hc. eauto.
      * destruct p; [|discriminate]. inversion H; subst. simpl.
        rewrite assoc_set_same, Hc. destruct q; reflexivity.
    + assert (Hn' : exists v, n' = Dir (set_entry c v es)).
      { destruct (assoc c es) as [child|].
        - destruct (tree_write p data child); simpl in H; [|discriminate].
          inversion H; eauto.
        - destruct p; [|discriminate]. inversion H; eauto. }
      destruct Hn' as [v ->]. simpl.
      now rewrite assoc_set_other.
Qed.


(** *** Creating directories *)

Lemma set_entry_same name v es :
  assoc name es = Some v -> set_entry name v es = es.
Proof.
  induction es as [|[k w] es IH]; simpl; [discriminate|].
  destruct (String.eqb_spec k name) as [->|Hk]; intros H.
  - now inversion H.
  - now rewrite IH.
Qed.

Lemma tree_mkdirs_files p n n' q :
  tree_mkdirs p n = Ok n' -> file_at q n' = file_at q n.
Proof.
  unfold file_at.
  revert n n' q. induction p as [|c p IH]; intros n n' q H.
  - destruct n; simpl in H; [discriminate|]. now inversion H.
  - destruct n as [d|es]; simpl in H; [discriminate|].
    destruct (tree_mkdirs p _) as [child'|] eqn:Hm; simpl in H;
      [|discriminate].
    inversion H; subst. destruct q as [|c' q]; [reflexivity|]. simpl.
    destruct (String.eqb_spec c c') as [<-|Hne].
    + rewrite assoc_set_same. rewrite (IH _ _ q Hm).
      destruct (assoc c es); [reflexivity|]. now destruct q.
    + now rewrite assoc_set_other.
Qed.

Lemma tree_mkdirs_dir p n n' :
  tree_mkdirs p n = Ok n' -> dir_at p n' = true.
Proof.
  unfold dir_at.
  revert n n'. induction p as [|c p IH]; intros n n' H.
  - destruct n; simpl in H; [discriminate|]. now inversion H.
  - destruct n as [d|es]; simpl in H; [discriminate|].
    destruct (tree_mkdirs p _) as [child'|] eqn:Hm; simpl in H;
      [|discriminate].
    inversion H; subst. simpl. rewrite assoc_set_same. eauto.
Qed.

Lemma tree_mkdirs_keeps_dirs p n n' q :
  tree_mkdirs p n = Ok n' -> dir_at q n = true -> dir_at q n' = true.
Proof.
  unfold dir_at.
  revert n n' q. induction p as [|c p IH]; intros n n' q H.
  - destruct n; simpl in H; [discriminate|]. now inversion H.
  - destruct n as [d|es]; simpl in H; [discriminate|].
    destruct (tree_mkdirs p _) as [child'|] eqn:Hm; simpl in H;
      [|discriminate].
    inversion H; subst. destruct q as [|c' q]; [reflexivity|]. simpl.
    destruct (String.eqb_spec c c') as [<-|Hne].
    + rewrite assoc_set_same.
      destruct (assoc c es) as [child|]; [|discriminate]. eauto.
    + now rewrite assoc_set_other.
Qed.

(** The directory made where nothing was is empty. *)
Lemma tree_mkdirs_fresh p n n' :
  tree_mkdirs p n = Ok n' -> tree_get p n = None ->
  tree_get p n' = Some (Dir []).
Proof.
  revert n n'. induction p as [|c p IH]; intros n n' H Hg.
  - discriminate.
  - destruct n as [d|es]; simpl in H; [discriminate|].
    destruct (tree_mkdirs p _) as [child'|] eqn:Hm; simpl in H;
      [|discriminate].
    inversion H; subst. simpl in *. rewrite assoc_set_same.
    destruct (assoc c es) as [child|]; [eauto|].
    clear - Hm. revert child' Hm.
    induction p as [|c' p IHp]; intros child' Hm; simpl in Hm.
    + now inversion Hm.
    + destruct (tree_mkdirs p (Dir [])) as [g|] eqn:Hg; simpl in Hm;
        [|discriminate].
      inversion Hm; subst. simpl. rewrite String.eqb_refl. eauto.
Qed.

Lemma tree_mkdirs_existing p n :
  dir_at p n = true -> tree_mkdirs p n = Ok n.
Proof.
  unfold dir_at.
  revert n. induction p as [|c p IH]; intros n H.
  - destruct n; [discriminate|reflexivity].
  - destruct n as [d|es]; simpl in *; [discriminate|].
    destruct (assoc c es) as [child|] eqn:Hc; [|discriminate].
    rewrite (IH _ H). simpl. now rewrite set_entry_same.
Qed.

(** Directories can be made below a directory that has no entry of the
    first name, or has a directory there. *)
Lemma tree_mkdirs_below_empty p : exists n', tree_mkdirs p (Dir []) = Ok n'.
Proof.
  induction p as [|c p [n' IH]]; simpl; [eauto|].
  rewrite IH. simpl. eauto.
Qed.

(** *** Removing an entry *)

Lemma tree_del_gone p r n :
  p <> [] -> tree_get (p ++ r) (tree_del p n) = None.
Proof.
  revert n. induction p as [|c p IH]; intros n Hp; [contradiction|].
  destruct n as [d|es]; [reflexivity|].
  destruct p as [|c' p].
  - simpl. now rewrite assoc_del_same.
  - change (tree_del (c :: c' :: p) (Dir es))
      with (match assoc c es with
            | Some child => Dir (set_entry c (tree_del (c' :: p) child) es)
            | None => Dir es
            end).
    destruct (assoc c es) as [child|] eqn:Hc.
    + change ((c :: c' :: p) ++ r) with (c :: ((c' :: p) ++ r)).
      cbn [tree_get]. rewrite assoc_set_same. apply IH. discriminate.
    + change ((c :: c' :: p) ++ r) with (c :: ((c' :: p) ++ r)).
      cbn [tree_get]. now rewrite Hc.
Qed.

Lemma tree_del_files p n q :
  ~ below p q -> file_at q (tree_del p n) = file_at q n.
Proof.
  unfold file_at.
  revert n q. induction p as [|c p IH]; intros n q Hq.
  - destruct n; reflexivity.
  - destruct n as [d|es]; [reflexivity|].
    destruct q as [|c' q].
    { destruct p; [reflexivity|]. simpl.
      destruct (assoc c es); reflexivity. }
    destruct p as [|c2 p].
    + simpl. destruct (String.eqb_spec c c') as [<-|Hne].
      * exfalso. apply Hq. now exists q.
      * now rewrite assoc_del_other.
    + change (tree_del (c :: c2 :: p) (Dir es))
        with (match assoc c es with
              | Some child => Dir (set_entry c (tree_del (c2 :: p) child) es)
              | None => Dir es
              end).
      destruct (assoc c es) as [child|] eqn:Hc; [|reflexivity].
      cbn [tree_get].
      destruct (String.eqb_spec c c') as [<-|Hne].
      * rewrite assoc_set_same, Hc. apply IH.
        intros [r Hr]. apply Hq. exists r. simpl. now f_equal.
      * now rewrite assoc_set_other.
Qed.

Lemma tree_del_dirs p n q :
  ~ below p q -> dir_at q (tree_del p n) = dir_at q n.
Proof.
  unfold dir_at.
  revert n q. induction p as [|c p IH]; intros n q Hq.
  - destruct n; reflexivity.
  - destruct n as [d|es]; [reflexivity|].
    destruct q as [|c' q].
    { destruct p; [reflexivity|]. simpl.
      destruct (assoc c es); reflexivity. }
    destruct p as [|c2 p].
    + simpl. destruct (String.eqb_spec c c') as [<-|Hne].
      * exfalso. apply Hq. now exists q.
      * now rewrite assoc_del_other.
    + change (tree_del (c :: c2 :: p) (Dir es))
        with (match assoc c es with
              | Some child => Dir (set_entry c (tree_del (c2 :: p) child) es)
              | None => Dir es
              end).
      destruct (assoc c es) as [child|] eqn:Hc; [|reflexivity].
      cbn [tree_get].
      destruct (String.eqb_spec c c') as [<-|Hne].
      * rewrite assoc_set_same, Hc. apply IH.
        intros [r Hr]. apply Hq. exists r. simpl. now f_equal.
      * now rewrite assoc_set_other.
Qed.

End FileSysFacts.

(* ------------------------------------------------------------------ *)
(** ** Facts about strings and paths *)

Module PathFacts.
Import PyStr PosixPath.


Lemma append_nil_r s : s +++ "" = s.
Proof. induction s; simpl; congruence. Qed.

Lemma append_assoc a b c : (a +++ b) +++ c = a +++ b +++ c.
Proof. induction a; simpl; congruence. Qed.

Lemma prefix_nil s : String.prefix "" s = true.
Proof. now destruct s. Qed.

Lemma prefix_cons a s1 b s2 :
  String.prefix (String a s1) (String b s2)
  = Ascii.eqb a b && String.prefix s1 s2.
Proof.
  simpl. destruct (Ascii.ascii_dec a b) as [->|Hne].
  - now rewrite Ascii.eqb_refl.
  - apply Ascii.eqb_neq in Hne. now rewrite Hne.
Qed.

Lemma prefix_split a s :
  String.prefix a s = true -> exists r, s = a +++ r.
Proof.
  revert s. induction a as [|c a IH]; intros s H.
  - exists s. reflexivity.
  - destruct s as [|d s]; simpl in H; [discriminate|].
    destruct (Ascii.ascii_dec c d) as [->|]; [|discriminate].
    destruct (IH _ H) as [r ->]. now exists r.
Qed.

Lemma prefix_append a r : String.prefix a (a +++ r) = true.
Proof.
  induction a as [|c a IH]; simpl; [now destruct r|].
  destruct (Ascii.ascii_dec c c); [exact IH|contradiction].
Qed.

Lemma split_sep_not_nil s : split_sep s <> [].
Proof.
  destruct s as [|c r]; simpl; [discriminate|].
  destruct (is_sep c); [discriminate|].
  destruct (split_sep r); discriminate.
Qed.

Lemma split_sep_app a b :
  split_sep (a +++ String sep_char b) = split_sep a ++ split_sep b.
Proof.
  induction a as [|c a IH]; simpl.
  - reflexivity.
  - rewrite IH. destruct (is_sep c); [reflexivity|].
    destruct (split_sep a) eqn:Ha; [|reflexivity].
    now apply split_sep_not_nil in Ha.
Qed.

Lemma split_sep_no_sep s : no_sep s = true -> split_sep s = [s].
Proof.
  induction s as [|c r IH]; simpl; [reflexivity|].
  destruct (is_sep c); simpl; [discriminate|].
  intros H. now rewrite (IH H).
Qed.

Lemma split_sep_fields s : Forall (fun c => no_sep c = true) (split_sep s).
Proof.
  induction s as [|c r IH]; simpl.
  - repeat constructor.
  - destruct (is_sep c) eqn:Hc.
    + constructor; [reflexivity|exact IH].
    + destruct (split_sep r) as [|w ws]; inversion IH; subst;
        constructor; simpl; try rewrite Hc; auto.
Qed.

Lemma fcomps_app a b : fcomps (a +++ String sep_char b) = fcomps a ++ fcomps b.
Proof. unfold fcomps. now rewrite split_sep_app, filter_app. Qed.

Lemma fcomps_empty : fcomps "" = [].
Proof. reflexivity. Qed.

Lemma fcomps_sep_l b : fcomps (String sep_char b) = fcomps b.
Proof. exact (fcomps_app "" b). Qed.

Lemma valid_name_no_sep c : valid_name c = true -> no_sep c = true.
Proof.
  unfold valid_name. intros H.
  repeat (apply andb_prop in H; destruct H as [H ?]). assumption.
Qed.

Lemma valid_name_nonempty c : valid_name c = true -> nonempty c = true.
Proof.
  unfold valid_name. intros H.
  repeat (apply andb_prop in H; destruct H as [H ?]). assumption.
Qed.

Lemma fcomps_name c : valid_name c = true -> fcomps c = [c].
Proof.
  intros H. unfold fcomps.
  rewrite (split_sep_no_sep _ (valid_name_no_sep _ H)). simpl.
  now rewrite (valid_name_nonempty _ H).
Qed.

Lemma fcomps_fields s :
  Forall (fun c => nonempty c = true /\ no_sep c = true) (fcomps s).
Proof.
  unfold fcomps. pose proof (split_sep_fields s) as H.
  induction H as [|c l Hc Hl IH]; simpl; [constructor|].
  destruct (nonempty c) eqn:Hn; [constructor; auto|exact IH].
Qed.

Lemma endswith_sep_split s :
  endswith_sep s = true -> exists s0, s = s0 +++ String sep_char "".
Proof.
  induction s as [|c r IH]; simpl; [discriminate|].
  destruct r as [|d r'].
  - unfold is_sep. intros H. apply Ascii.eqb_eq in H. subst.
    now exists "".
  - intros H. destruct (IH H) as [s0 Hs0]. exists (String c s0).
    simpl. now rewrite <- Hs0.
Qed.

Lemma startswith_sep s :
  startswith s "/" = true <-> exists r, s = String sep_char r.
Proof.
  unfold startswith. split.
  - intros H. apply prefix_split in H. destruct H as [r ->]. now exists r.
  - intros [r ->]. simpl. now destruct r.
Qed.

(** [join] adds the fields of a relative second argument to those of the
    first. *)
Lemma fcomps_join_rel a b :
  isabs b = false -> fcomps (join a b) = fcomps a ++ fcomps b.
Proof.
  unfold join, isabs. intros ->.
  destruct (nonempty a) eqn:Ha; simpl.
  - destruct (endswith_sep a) eqn:He.
    + destruct (endswith_sep_split _ He) as [a0 ->].
      rewrite append_assoc. simpl. rewrite !fcomps_app.
      now rewrite fcomps_empty, app_nil_r.
    + apply fcomps_app.
  - destruct a; [reflexivity|discriminate].
Qed.

Lemma join_abs a b : isabs b = true -> join a b = b.
Proof. unfold join, isabs. now intros ->. Qed.

Lemma isabs_spec s :
  isabs s = match s with EmptyString => false | String c _ => is_sep c end.
Proof.
  unfold isabs, startswith, is_sep. destruct s as [|c s]; [reflexivity|].
  rewrite prefix_cons, prefix_nil, andb_true_r. apply Ascii.eqb_sym.
Qed.

Lemma isabs_join_rel a b :
  isabs b = false -> isabs (join a b) = isabs a.
Proof.
  intros Hb. unfold join. fold (isabs b). rewrite Hb.
  destruct a as [|c a]; [exact Hb|].
  destruct (_ || _); now rewrite !isabs_spec.
Qed.

(** *** The loop of [normpath] *)


Lemma norm_step_empty b acc : norm_step b acc "" = acc.
Proof. reflexivity. Qed.

Lemma norm_skip_empty b l acc :
  fold_left (norm_step b) l acc
  = fold_left (norm_step b) (filter nonempty l) acc.
Proof.
  revert acc. induction l as [|c l IH]; intros acc; simpl; [reflexivity|].
  destruct c as [|x c]; simpl; [apply IH|].
  apply IH.
Qed.

Lemma norm_step_proper b acc c :
  proper c = true -> norm_step b acc c = acc ++ [c].
Proof.
  unfold proper, norm_step. intros H.
  apply andb_prop in H. destruct H as [H H3].
  apply andb_prop in H. destruct H as [H1 H2].
  destruct c as [|x c]; [discriminate|].
  apply negb_true_iff in H2, H3.
  rewrite H2, H3. reflexivity.
Qed.

Lemma norm_proper b l acc :
  Forall (fun c => proper c = true) l ->
  fold_left (norm_step b) l acc = acc ++ l.
Proof.
  intros H. revert acc. induction H as [|c l Hc Hl IH]; intros acc; simpl.
  - now rewrite app_nil_r.
  - rewrite (norm_step_proper _ _ _ Hc), IH, <- app_assoc. reflexivity.
Qed.

Lemma last_snoc (l : list string) c d : last (l ++ [c]) d = c.
Proof.
  induction l as [|x l IH]; simpl; [reflexivity|].
  destruct (l ++ [c]) eqn:E; [now destruct l|exact IH].
Qed.

Lemma Forall_removelast {A} (P : A -> Prop) l :
  Forall P l -> Forall P (removelast l).
Proof.
  intros H. induction H as [|x l Hx Hl IH]; simpl; [constructor|].
  destruct l; [constructor|]. constructor; assumption.
Qed.

Lemma last_In {A} (l : list A) d : l <> [] -> In (last l d) l.
Proof.
  induction l as [|x l IH]; [contradiction|]. intros _.
  destruct l as [|y l]; [now left|].
  right. apply IH. discriminate.
Qed.

(** From an absolute path the loop never keeps [..]. *)
Lemma norm_step_abs_proper acc c :
  Forall (fun c => proper c = true) acc ->
  Forall (fun c => proper c = true) (norm_step true acc c).
Proof.
  intros Hacc. unfold norm_step.
  destruct (String.eqb_spec c "") as [->|Hne]; [exact Hacc|].
  destruct (String.eqb_spec c curdir) as [->|Hnd]; [exact Hacc|].
  cbn [orb].
  destruct (String.eqb_spec c pardir) as [->|Hnp]; cbn [negb orb andb].
  - destruct acc as [|a acc']; [constructor|].
    destruct (String.eqb_spec (last (a :: acc') "") pardir) as [Hl|Hl].
    + exfalso.
      assert (Hin : In (last (a :: acc') "") (a :: acc'))
        by (apply last_In; discriminate).
      rewrite Forall_forall in Hacc. specialize (Hacc _ Hin).
      rewrite Hl in Hacc. discriminate.
    + now apply Forall_removelast.
  - apply Forall_app. split; [exact Hacc|]. constructor; [|constructor].
    unfold proper. destruct c; [contradiction|]. cbn [nonempty andb].
    apply String.eqb_neq in Hnd, Hnp. now rewrite Hnd, Hnp.
Qed.

Lemma norm_abs_proper l acc :
  Forall (fun c => proper c = true) acc ->
  Forall (fun c => proper c = true) (fold_left (norm_step true) l acc).
Proof.
  revert acc. induction l as [|c l IH]; intros acc H; simpl; [exact H|].
  apply IH, norm_step_abs_proper, H.
Qed.

(** The loop keeps what was kept when fields are only added or popped
    above it. *)
Lemma norm_step_no_sep b acc c :
  Forall (fun c => no_sep c = true) acc -> no_sep c = true ->
  Forall (fun c => no_sep c = true) (norm_step b acc c).
Proof.
  intros Hacc Hc. unfold norm_step.
  destruct (_ || _); [exact Hacc|].
  destruct (_ || _).
  - apply Forall_app. split; [exact Hacc|]. now constructor.
  - now apply Forall_removelast.
Qed.

Lemma norm_no_sep b l acc :
  Forall (fun c => no_sep c = true) acc ->
  Forall (fun c => no_sep c = true) l ->
  Forall (fun c => no_sep c = true) (fold_left (norm_step b) l acc).
Proof.
  intros Hacc Hl. revert acc Hacc.
  induction Hl as [|c l Hc Hl IH]; intros acc Hacc; simpl; [exact Hacc|].
  apply IH, norm_step_no_sep; assumption.
Qed.

(** *** [normpath], [abspath] and the node a path names *)

Lemma split_join_sep comps :
  comps <> [] -> Forall (fun c => no_sep c = true) comps ->
  split_sep (join_sep comps) = comps.
Proof.
  intros Hne H. induction H as [|c l Hc Hl IH]; [contradiction|].
  destruct l as [|d l].
  - simpl. now apply split_sep_no_sep.
  - change (join_sep (c :: d :: l))
      with (c +++ String sep_char (join_sep (d :: l))).
    rewrite split_sep_app, (split_sep_no_sep _ Hc), IH; [reflexivity|].
    discriminate.
Qed.


Lemma field_valid c : field c <-> valid_name c = true.
Proof.
  unfold field, valid_name, proper. split.
  - intros [H1 H2].
    apply andb_prop in H1. destruct H1 as [H1 H4].
    apply andb_prop in H1. destruct H1 as [H1 H3].
    now rewrite H1, H2, H3, H4.
  - intros H.
    apply andb_prop in H. destruct H as [H H4].
    apply andb_prop in H. destruct H as [H H3].
    apply andb_prop in H. destruct H as [H1 H2].
    now rewrite H1, H2, H3, H4.
Qed.

Lemma proper_nonempty c : proper c = true -> nonempty c = true.
Proof.
  unfold proper. intros H.
  apply andb_prop in H. destruct H as [H _].
  apply andb_prop in H. tauto.
Qed.

Lemma filter_nonempty_fields comps :
  Forall field comps -> filter nonempty comps = comps.
Proof.
  intros H. induction H as [|c l [Hc _] Hl IH]; simpl; [reflexivity|].
  now rewrite (proper_nonempty _ Hc), IH.
Qed.

Lemma fcomps_join_sep comps :
  Forall field comps -> fcomps (join_sep comps) = comps.
Proof.
  intros H. destruct comps as [|c l]; [reflexivity|].
  unfold fcomps. rewrite split_join_sep.
  - now apply filter_nonempty_fields.
  - discriminate.
  - eapply Forall_impl; [|exact H]. now intros a [_ Ha].
Qed.

Lemma fcomps_slashes n s : fcomps (slashes n +++ s) = fcomps s.
Proof.
  destruct n as [|[|n]]; simpl; [reflexivity| |].
  - apply fcomps_sep_l.
  - change (fcomps (String sep_char (String sep_char s)) = fcomps s).
    now rewrite !fcomps_sep_l.
Qed.

Lemma norm_abs_fields l :
  Forall (fun c => no_sep c = true) l -> Forall field (norm_comps true l).
Proof.
  intros Hl. unfold norm_comps.
  assert (H1 := norm_abs_proper l (acc:=[]) (Forall_nil _)).
  assert (H2 := norm_no_sep true (acc:=[]) (Forall_nil _) Hl).
  rewrite Forall_forall in *. intros c Hc. split; auto.
Qed.

Lemma initial_slashes_abs p :
  isabs p = true -> initial_slashes p = 1 \/ initial_slashes p = 2.
Proof.
  unfold initial_slashes, isabs. intros ->.
  destruct (_ && _); auto.
Qed.

Lemma isabs_nonempty p : isabs p = true -> nonempty p = true.
Proof. rewrite isabs_spec. now destruct p. Qed.

Lemma isabs_slashes n s : n <> 0 -> isabs (slashes n +++ s) = true.
Proof.
  intros Hn. rewrite isabs_spec.
  destruct n as [|[|n]]; [contradiction| |]; reflexivity.
Qed.

Lemma normpath_abs p :
  isabs p = true ->
  exists n, n <> 0 /\
    normpath p = slashes n +++ join_sep (norm_comps true (split_sep p)).
Proof.
  intros Hp. unfold normpath.
  rewrite (isabs_nonempty _ Hp). cbn [negb].
  destruct (initial_slashes_abs _ Hp) as [-> | ->]; cbn [Nat.eqb negb].
  - exists 1. split; [discriminate|reflexivity].
  - exists 2. split; [discriminate|reflexivity].
Qed.

Lemma isabs_normpath p : isabs p = true -> isabs (normpath p) = true.
Proof.
  intros Hp. destruct (normpath_abs _ Hp) as [n [Hn ->]].
  now apply isabs_slashes.
Qed.

Lemma fcomps_normpath p :
  isabs p = true -> fcomps (normpath p) = norm_comps true (fcomps p).
Proof.
  intros Hp. destruct (normpath_abs _ Hp) as [n [Hn ->]].
  rewrite fcomps_slashes, fcomps_join_sep.
  - unfold norm_comps, fcomps. apply norm_skip_empty.
  - apply norm_abs_fields, split_sep_fields.
Qed.

Section WithCwd.
Variable cwd : list string.


Lemma isabs_getcwd : isabs (getcwd cwd) = true.
Proof. now rewrite isabs_spec. Qed.

Lemma isabs_absolutize p : isabs (absolutize cwd p) = true.
Proof.
  unfold absolutize. destruct (isabs p) eqn:Hp; [exact Hp|].
  rewrite isabs_join_rel by exact Hp. apply isabs_getcwd.
Qed.

Lemma isabs_abspath p : isabs (abspath cwd p) = true.
Proof. apply isabs_normpath, isabs_absolutize. Qed.

Lemma resolve_spec p :
  abs_components cwd p = norm_comps true (fcomps (absolutize cwd p)).
Proof. apply fcomps_normpath, isabs_absolutize. Qed.

Lemma resolve_fields p : Forall field (abs_components cwd p).
Proof.
  rewrite resolve_spec. apply norm_abs_fields.
  eapply Forall_impl; [|apply fcomps_fields]. now intros a [_ Ha].
Qed.

Lemma fcomps_abspath p : fcomps (abspath cwd p) = abs_components cwd p.
Proof. reflexivity. Qed.

Lemma norm_fields l : Forall field l -> norm_comps true l = l.
Proof.
  intros H. unfold norm_comps. rewrite norm_proper; [reflexivity|].
  eapply Forall_impl; [|exact H]. now intros a [Ha _].
Qed.

(** [abspath] names the node its argument names. *)
Lemma resolve_abspath p :
  abs_components cwd (abspath cwd p) = abs_components cwd p.
Proof.
  rewrite (resolve_spec (abspath cwd p)).
  unfold absolutize. rewrite isabs_abspath, fcomps_abspath.
  apply norm_fields, resolve_fields.
Qed.

Lemma fcomps_absolutize_join p r :
  isabs r = false ->
  fcomps (absolutize cwd (join p r)) = fcomps (absolutize cwd p) ++ fcomps r.
Proof.
  intros Hr. unfold absolutize. rewrite (isabs_join_rel _ _ Hr).
  destruct (isabs p) eqn:Hp.
  - now apply fcomps_join_rel.
  - rewrite !fcomps_join_rel, ?app_assoc; auto.
    now rewrite isabs_join_rel.
Qed.

Lemma resolve_join_rel p r :
  isabs r = false ->
  abs_components cwd (join p r)
  = fold_left (norm_step true) (fcomps r) (abs_components cwd p).
Proof.
  intros Hr. rewrite !resolve_spec, fcomps_absolutize_join by exact Hr.
  unfold norm_comps. apply fold_left_app.
Qed.

Lemma valid_name_rel c : valid_name c = true -> isabs c = false.
Proof.
  intros H. rewrite isabs_spec.
  pose proof (valid_name_no_sep _ H) as Hs.
  destruct c as [|x c]; [reflexivity|]. simpl in Hs.
  now destruct (is_sep x).
Qed.

(** Below a directory, a valid name names the entry of that name. *)
Lemma resolve_join_name p name :
  valid_name name = true ->
  abs_components cwd (join p name) = abs_components cwd p ++ [name].
Proof.
  intros H. rewrite resolve_join_rel by now apply valid_name_rel.
  rewrite (fcomps_name _ H). simpl.
  apply norm_step_proper. now apply field_valid in H as [H _].
Qed.

(** The string test of [_safe_extract_zip] puts the destination below
    the target. *)
Lemma startswith_below t x :
  startswith (abspath cwd x) (abspath cwd t +++ "/") = true ->
  exists rest, abs_components cwd x = abs_components cwd t ++ rest.
Proof.
  intros H. apply prefix_split in H. destruct H as [r Hr].
  rewrite append_assoc in Hr.
  exists (fcomps r). rewrite <- !fcomps_abspath, Hr.
  apply fcomps_app.
Qed.
End WithCwd.

End PathFacts.

(* ------------------------------------------------------------------ *)
(** ** Facts about the calls *)

Module CallFacts.
Import PyStr PosixPath FileSys Lib TokenStore FileSysFacts PathFacts.

Section WithRuntime.
Variable rt : Runtime.

Lemma write_file_ok p data fs fs' :
  tree_write (resolve (cwd rt) p) data fs = Ok fs' ->
  write_file (cwd rt) p data fs = (fs', Return tt).
Proof. unfold write_file, lift. now intros ->. Qed.

Lemma write_file_cases p data fs :
  (exists fs', tree_write (resolve (cwd rt) p) data fs = Ok fs'
               /\ write_file (cwd rt) p data fs = (fs', Return tt))
  \/ (exists e, write_file (cwd rt) p data fs = (fs, Raise (OSError e))).
Proof.
  unfold write_file, lift.
  destruct (tree_write _ data fs) as [fs'|e]; [left|right]; eauto.
Qed.

(** Whether it returns or raises, a write changes no other file and no
    directory. *)
Lemma write_file_frame p data fs q :
  q <> resolve (cwd rt) p ->
  file_at q (fst (write_file (cwd rt) p data fs)) = file_at q fs.
Proof.
  intros Hq. destruct (write_file_cases p data fs) as [[fs' [Hw ->]]|[e ->]];
    [|reflexivity].
  simpl. eapply tree_write_frame; eauto.
Qed.

Lemma write_file_dirs p data fs q :
  dir_at q (fst (write_file (cwd rt) p data fs)) = dir_at q fs.
Proof.
  destruct (write_file_cases p data fs) as [[fs' [Hw ->]]|[e ->]];
    [|reflexivity].
  simpl. eapply tree_write_dir; eauto.
Qed.

Lemma makedirs_cases p fs :
  (exists fs', tree_mkdirs (resolve (cwd rt) p) fs = Ok fs'
               /\ makedirs (cwd rt) p fs = (fs', Return tt))
  \/ (exists e, makedirs (cwd rt) p fs = (fs, Raise (OSError e))).
Proof.
  unfold makedirs, lift.
  destruct (tree_mkdirs _ fs) as [fs'|e]; [left|right]; eauto.
Qed.

Lemma makedirs_files p fs q :
  file_at q (fst (makedirs (cwd rt) p fs)) = file_at q fs.
Proof.
  destruct (makedirs_cases p fs) as [[fs' [Hw ->]]|[e ->]]; [|reflexivity].
  simpl. eapply tree_mkdirs_files; eauto.
Qed.

(** A file can be written where the parent is a directory and the entry
    is not one. *)
Lemma tree_write_possible parent name data n :
  dir_at parent n = true -> dir_at (parent ++ [name]) n = false ->
  exists n', tree_write (parent ++ [name]) data n = Ok n'.
Proof.
  unfold dir_at.
  revert n. induction parent as [|c p IH]; intros n Hp Hn.
  - destruct n as [d|es]; [discriminate|]. simpl in *.
    destruct (assoc name es) as [[d|es']|]; simpl; eauto. discriminate.
  - destruct n as [d|es]; [discriminate|]. simpl in *.
    destruct (assoc c es) as [child|]; [|discriminate].
    destruct (IH _ Hp Hn) as [n' ->]. simpl. eauto.
Qed.

Lemma isfile_file_at p fs :
  isfile (cwd rt) p fs = true <-> exists d, file_at (resolve (cwd rt) p) fs = Some d.
Proof.
  unfold isfile, stat, file_at.
  destruct (tree_get _ fs) as [[d|es]|]; split;
    try discriminate; eauto; intros [d' H]; discriminate.
Qed.

Lemma isdir_dir_at p fs :
  isdir (cwd rt) p fs = dir_at (resolve (cwd rt) p) fs.
Proof. reflexivity. Qed.

(** [_write_json] into a directory. *)
Lemma write_json_in_dir t name v fs :
  valid_name name = true ->
  dir_at (resolve (cwd rt) t) fs = true ->
  dir_at (resolve (cwd rt) t ++ [name]) fs = false ->
  exists fs',
    _write_json rt (join t name) v fs = (fs', Return tt)
    /\ file_at (resolve (cwd rt) t ++ [name]) fs' = Some (json_dump rt v)
    /\ (forall q, q <> resolve (cwd rt) t ++ [name] ->
                  file_at q fs' = file_at q fs)
    /\ (forall q, dir_at q fs' = dir_at q fs).
Proof.
  intros Hname Ht Hn. unfold _write_json.
  destruct (tree_write_possible _ _ (json_dump rt v) _ Ht Hn) as [fs' Hw].
  exists fs'. unfold resolve in *.
  rewrite <- (@resolve_join_name (cwd rt) t name Hname) in Hw.
  pose proof (@resolve_join_name (cwd rt) t name Hname) as Hr.
  split; [now apply write_file_ok|]. rewrite <- Hr.
  split; [unfold file_at; now rewrite (tree_write_get _ _ _ Hw)|].
  split; intros q; [intros Hq; eapply tree_write_frame; eauto
                   |eapply tree_write_dir; eauto].
Qed.

End WithRuntime.
End CallFacts.

(* ------------------------------------------------------------------ *)
(** ** [hydrate_token_store_from_legacy_file] *)

Module Hydrate.
Import PyStr PosixPath FileSys Lib TokenStore FileSysFacts PathFacts CallFacts.
Import Spec.

Lemma preserves_ret {A} q (a : A) : preserves q (ret a).
Proof. intros fs. now split. Qed.

Lemma preserves_bind {A B} q (c : M A) (k : A -> M B) :
  preserves q c -> (forall a, preserves q (k a)) -> preserves q (bind c k).
Proof.
  intros Hc Hk fs. unfold bind. specialize (Hc fs).
  destruct (c fs) as [fs' [a|e]]; simpl in *.
  - destruct (Hk a fs') as [H1 H2]. destruct Hc as [H3 H4].
    split; congruence.
  - exact Hc.
Qed.

Lemma preserves_write_json rt q p v :
  q <> resolve (cwd rt) p -> preserves q (_write_json rt p v).
Proof.
  intros Hq fs. unfold _write_json. split.
  - now apply write_file_frame.
  - apply write_file_dirs.
Qed.

(** C7.  When [path] is not a regular file, or its content cannot be read
    and parsed as JSON, or it parses to something that is not an object,
    [hydrate_token_store_from_legacy_file] returns normally and leaves the
    file system as it was: nothing is raised, no file is created. *)
Theorem hydrate_noop rt path directory fs :
  no_legacy_object rt path fs ->
  hydrate_token_store_from_legacy_file rt path directory fs
  = (fs, Return tt).
Proof.
  unfold hydrate_token_store_from_legacy_file, bind, get_fs.
  intros [Hf | [Hl | [v [Hl Hv]]]].
  - now rewrite Hf.
  - destruct (isfile _ path fs); [|reflexivity]. simpl. now rewrite Hl.
  - destruct (isfile _ path fs); [|reflexivity]. simpl. rewrite Hl.
    destruct v; try reflexivity. now destruct (Hv items).
Qed.

Lemma hydrate_noop_witness :
  no_legacy_object Inputs.rt0 "/broken.json" Inputs.fs_legacy
  /\ hydrate_token_store_from_legacy_file
       Inputs.rt0 "/broken.json" "/d" Inputs.fs_legacy
     = (Inputs.fs_legacy, Return tt).
Proof.
  assert (H : no_legacy_object Inputs.rt0 "/broken.json" Inputs.fs_legacy)
    by (right; left; vm_compute; reflexivity).
  split; [exact H | exact (hydrate_noop "/d" H)].
Defined.

(** C10, as the claim states it, fails: when the legacy file is the
    [oauth1_token.json] of the directory, it is overwritten. *)
Lemma hydrate_overwrites_aliased_legacy_file :
  resolve (cwd Inputs.rt0) "/d/oauth1_token.json" = ["d"; "oauth1_token.json"]
  /\ file_at ["d"; "oauth1_token.json"] Inputs.fs_legacy
     = Some (Demo.text (Demo.q "{'oauth1_token': {'a': 1}}"))
  /\ file_at ["d"; "oauth1_token.json"]
             (fst (hydrate_token_store_from_legacy_file
                     Inputs.rt0 "/d/oauth1_token.json" "/d" Inputs.fs_legacy))
     = Some (Demo.text (Demo.q "{'a': 1}"))
  /\ file_at (resolve (cwd Inputs.rt0) "/d/oauth1_token.json")
             (fst (hydrate_token_store_from_legacy_file
                     Inputs.rt0 "/d/oauth1_token.json" "/d" Inputs.fs_legacy))
     <> file_at (resolve (cwd Inputs.rt0) "/d/oauth1_token.json")
                Inputs.fs_legacy.
Proof. vm_compute. repeat split. discriminate. Qed.

(** C10, amended.  Whatever [path] and [directory] are, and whether the
    call returns or raises, every entry other than [oauth1_token.json] and
    [oauth2_token.json] of [directory] is left as it was; so the legacy
    file is left as it was unless [path] names one of these two. *)
Theorem hydrate_frame rt path directory fs q :
  q <> resolve (cwd rt) (join directory OAUTH1_TOKEN_FILENAME) ->
  q <> resolve (cwd rt) (join directory OAUTH2_TOKEN_FILENAME) ->
  let fs' := fst (hydrate_token_store_from_legacy_file rt path directory fs) in
  file_at q fs' = file_at q fs /\ dir_at q fs' = dir_at q fs.
Proof.
  intros H1 H2.
  assert (Hp : preserves q
                 (hydrate_token_store_from_legacy_file rt path directory)).
  { unfold hydrate_token_store_from_legacy_file.
    apply preserves_bind; [intros s; now split|]. intros s.
    destruct (negb _); [apply preserves_ret|].
    destruct (load_json_file rt path s) as [[| | | | |items]|];
      try apply preserves_ret.
    apply preserves_bind.
    - destruct (dict_get "oauth1_token" items) as [[| | | | |o1]|];
        try apply preserves_ret.
      now apply preserves_write_json.
    - intros _.
      destruct (dict_get "oauth2_token" items) as [[| | | | |o2]|];
        try apply preserves_ret.
      now apply preserves_write_json. }
  exact (Hp fs).
Qed.

Lemma hydrate_frame_witness :
  let fs' := fst (hydrate_token_store_from_legacy_file
                    Inputs.rt0 "/legacy.json" "/d" Inputs.fs_legacy) in
  file_at ["legacy.json"] fs' = file_at ["legacy.json"] Inputs.fs_legacy
  /\ dir_at ["legacy.json"] fs' = dir_at ["legacy.json"] Inputs.fs_legacy.
Proof.
  apply (@hydrate_frame Inputs.rt0 "/legacy.json" "/d" Inputs.fs_legacy
           ["legacy.json"]); vm_compute; discriminate.
Defined.

End Hydrate.

(* ------------------------------------------------------------------ *)
(** ** [write_token_store_bytes]: clearing and the legacy fallback *)

Unset Implicit Arguments.

Module WriteBytes.
Import PyStr PosixPath FileSys Lib TokenStore FileSysFacts PathFacts CallFacts.
Import Spec MoreSpec.

Lemma del_entry_absent name es :
  assoc name es = None -> del_entry name es = es.
Proof.
  induction es as [|[k w] es IH]; simpl; [reflexivity|].
  destruct (String.eqb_spec k name); [discriminate|].
  intros H. simpl. now rewrite IH.
Qed.

Lemma tree_del_absent p n : tree_get p n = None -> tree_del p n = n.
Proof.
  revert n. induction p as [|c p IH]; intros n H; [discriminate|].
  destruct n as [d|es]; [reflexivity|]. simpl in H.
  destruct p as [|c' p].
  - simpl. destruct (assoc c es) eqn:Hc; [discriminate|].
    now rewrite del_entry_absent.
  - change (tree_del (c :: c' :: p) (Dir es))
      with (match assoc c es with
            | Some child => Dir (set_entry c (tree_del (c' :: p) child) es)
            | None => Dir es
            end).
    destruct (assoc c es) as [child|] eqn:Hc; [|reflexivity].
    rewrite (IH _ H). now rewrite set_entry_same.
Qed.

Lemma tree_del_idem p n :
  p <> [] -> tree_del p (tree_del p n) = tree_del p n.
Proof.
  intros Hp. apply tree_del_absent.
  rewrite <- (app_nil_r p) at 1. now apply tree_del_gone.
Qed.

Section WithRuntime.
Variable rt : Runtime.
Local Abbreviation resolve := (FileSys.resolve (cwd rt)).

(** What [_clear_and_prepare_dir] does, by what the path names. *)
Lemma clear_unfold p fs :
  _clear_and_prepare_dir rt p fs =
  match tree_get (resolve p) fs with
  | Some (File _) => makedirs (cwd rt) p (tree_del (resolve p) fs)
  | Some (Dir _) =>
      match resolve p with
      | [] => (Dir [], Raise (OSError DeviceBusy))
      | _ :: _ => makedirs (cwd rt) p (tree_del (resolve p) fs)
      end
  | None => makedirs (cwd rt) p fs
  end.
Proof.
  unfold _clear_and_prepare_dir, bind, get_fs, isfile, isdir, os_remove,
    rmtree, stat, ret.
  cbv beta.
  destruct (tree_get (resolve p) fs) as [[d|es]|] eqn:Hg;
    cbv beta iota; rewrite ?Hg; try reflexivity.
  destruct (resolve p); reflexivity.
Qed.

Lemma clear_is_mkdirs_after_del p fs fs1 :
  _clear_and_prepare_dir rt p fs = (fs1, Return tt) ->
  resolve p <> []
  /\ tree_mkdirs (resolve p) (tree_del (resolve p) fs) = Ok fs1.
Proof.
  rewrite clear_unfold. unfold makedirs, lift.
  destruct (tree_get (resolve p) fs) as [[d|es]|] eqn:Hg.
  - destruct (resolve p) as [|c r] eqn:Hr.
    + simpl in Hg. inversion Hg; subst. simpl. discriminate.
    + destruct (tree_mkdirs _ _) eqn:Hm; intros H; inversion H; subst.
      split; [discriminate|reflexivity].
  - destruct (resolve p) as [|c r] eqn:Hr; [discriminate|].
    destruct (tree_mkdirs _ _) eqn:Hm; intros H; inversion H; subst.
    split; [discriminate|reflexivity].
  - rewrite (tree_del_absent _ _ Hg).
    destruct (tree_mkdirs _ _) eqn:Hm; intros H; inversion H; subst.
    split; [|reflexivity]. intros Hr. rewrite Hr in Hg. discriminate.
Qed.

(** After it, the target is an empty directory, and what is not at or
    below the target is as before. *)
Lemma clear_spec p fs fs1 :
  _clear_and_prepare_dir rt p fs = (fs1, Return tt) ->
  tree_get (resolve p) fs1 = Some (Dir [])
  /\ (forall q, ~ below (resolve p) q -> file_at q fs1 = file_at q fs).
Proof.
  intros H. destruct (clear_is_mkdirs_after_del _ _ _ H) as [Hne Hm]. split.
  - apply (tree_mkdirs_fresh _ _ Hm).
    rewrite <- (app_nil_r (resolve p)) at 1. now apply tree_del_gone.
  - intros q Hq. rewrite (tree_mkdirs_files _ _ q Hm).
    now apply tree_del_files.
Qed.

Lemma clear_store_dir p fs fs1 :
  _clear_and_prepare_dir rt p fs = (fs1, Return tt) -> store_dir rt p fs1.
Proof.
  intros H. destruct (clear_spec _ _ _ H) as [Hg _].
  unfold store_dir, dir_at. rewrite !tree_get_app, Hg. now simpl.
Qed.


(** One write of the fallback. *)
Lemma maybe_write_spec t name o fs :
  valid_name name = true ->
  store_dir rt t fs ->
  dir_at (resolve t ++ [name]) fs = false ->
  exists fs',
    maybe_write rt t name o fs = (fs', Return tt)
    /\ store_dir rt t fs'
    /\ file_at (resolve t ++ [name]) fs'
       = match o with
         | Some v => Some (json_dump rt v)
         | None => file_at (resolve t ++ [name]) fs
         end
    /\ (forall q, q <> resolve t ++ [name] -> file_at q fs' = file_at q fs).
Proof.
  intros Hname Hs Hn. destruct o as [v|]; simpl.
  - destruct Hs as [Ht [H1 H2]].
    destruct (@write_json_in_dir rt t name v fs Hname Ht Hn)
      as [fs' [Hw [Hf [Hfr Hd]]]].
    exists fs'. split; [exact Hw|]. split; [|split; assumption].
    unfold store_dir. now rewrite !Hd.
  - exists fs. repeat split; try apply Hs.
Qed.

Lemma legacy_fallback_unfold b t :
  legacy_fallback rt b t =
  match parse_payload rt b with
  | Some (JObject items) =>
      bind (maybe_write rt t OAUTH1_TOKEN_FILENAME
              (sub_object (dict_get "oauth1_token" items)))
        (fun _ =>
      bind (maybe_write rt t OAUTH2_TOKEN_FILENAME
              (sub_object (dict_get "oauth2_token" items)))
        (fun _ =>
      bind (maybe_write rt t OAUTH1_TOKEN_FILENAME
              (when (dict_has "oauth_token" items
                     && dict_has "oauth_token_secret" items)
                    (JObject items)))
        (fun _ =>
           maybe_write rt t OAUTH2_TOKEN_FILENAME
              (when (dict_has "access_token" items) (JObject items)))))
  | _ => ret tt
  end.
Proof.
  unfold legacy_fallback, parse_payload.
  destruct (match utf8_decode rt b with Some text => json_loads rt text
                                      | None => None end)
    as [[| | | | |items]|]; try reflexivity.
  destruct (dict_get "oauth1_token" items) as [[| | | | |o1]|];
    destruct (dict_get "oauth2_token" items) as [[| | | | |o2]|];
    destruct (dict_has "oauth_token" items && dict_has "oauth_token_secret" items);
    destruct (dict_has "access_token" items); reflexivity.
Qed.

(** The fallback on a JSON object, from a cleared target: it returns, and
    each token file holds what the last rule that fired for it wrote. *)
Lemma legacy_fallback_spec b t items fs :
  parse_payload rt b = Some (JObject items) ->
  store_dir rt t fs ->
  exists fs',
    legacy_fallback rt b t fs = (fs', Return tt)
    /\ store_dir rt t fs'
    /\ file_at (resolve t ++ [OAUTH1_TOKEN_FILENAME]) fs'
       = pick (option_map (json_dump rt)
                 (when (dict_has "oauth_token" items
                        && dict_has "oauth_token_secret" items)
                       (JObject items)))
              (option_map (json_dump rt)
                 (sub_object (dict_get "oauth1_token" items)))
              (file_at (resolve t ++ [OAUTH1_TOKEN_FILENAME]) fs)
    /\ file_at (resolve t ++ [OAUTH2_TOKEN_FILENAME]) fs'
       = pick (option_map (json_dump rt)
                 (when (dict_has "access_token" items) (JObject items)))
              (option_map (json_dump rt)
                 (sub_object (dict_get "oauth2_token" items)))
              (file_at (resolve t ++ [OAUTH2_TOKEN_FILENAME]) fs)
    /\ (forall q, q <> resolve t ++ [OAUTH1_TOKEN_FILENAME] ->
                  q <> resolve t ++ [OAUTH2_TOKEN_FILENAME] ->
                  file_at q fs' = file_at q fs).
Proof.
  intros Hp Hs. rewrite legacy_fallback_unfold, Hp.
  assert (Hne : resolve t ++ [OAUTH1_TOKEN_FILENAME]
                <> resolve t ++ [OAUTH2_TOKEN_FILENAME]).
  { intros E. apply app_inv_head in E. discriminate. }
  assert (V1 : valid_name OAUTH1_TOKEN_FILENAME = true) by reflexivity.
  assert (V2 : valid_name OAUTH2_TOKEN_FILENAME = true) by reflexivity.
  destruct (maybe_write_spec t _ (sub_object (dict_get "oauth1_token" items))
              fs V1 Hs (proj1 (proj2 Hs))) as [f1 [E1 [S1 [A1 F1]]]].
  destruct (maybe_write_spec t _ (sub_object (dict_get "oauth2_token" items))
              f1 V2 S1 (proj2 (proj2 S1))) as [f2 [E2 [S2 [A2 F2]]]].
  destruct (maybe_write_spec t _
              (when (dict_has "oauth_token" items
                     && dict_has "oauth_token_secret" items) (JObject items))
              f2 V1 S2 (proj1 (proj2 S2))) as [f3 [E3 [S3 [A3 F3]]]].
  destruct (maybe_write_spec t _
              (when (dict_has "access_token" items) (JObject items))
              f3 V2 S3 (proj2 (proj2 S3))) as [f4 [E4 [S4 [A4 F4]]]].
  exists f4. unfold bind. rewrite E1, E2, E3, E4.
  split; [reflexivity|]. split; [exact S4|].
  split; [|split].
  - rewrite (F4 _ Hne), A3, (F2 _ Hne), A1. unfold pick.
    destruct (when _ _); [reflexivity|].
    destruct (sub_object (dict_get "oauth1_token" items)); reflexivity.
  - rewrite A4, (F3 _ (not_eq_sym Hne)), A2, (F1 _ (not_eq_sym Hne)).
    unfold pick.
    destruct (when (dict_has "access_token" items) (JObject items));
      [reflexivity|].
    destruct (sub_object (dict_get "oauth2_token" items)); reflexivity.
  - intros q Q1 Q2. now rewrite (F4 _ Q2), (F3 _ Q1), (F2 _ Q2), (F1 _ Q1).
Qed.

(** The call is the clearing and what follows it. *)
Lemma write_unfold b t fs :
  write_token_store_bytes rt b t fs
  = bind (_clear_and_prepare_dir rt t) (fun _ => after_clear rt b t) fs.
Proof. reflexivity. Qed.

(** Bytes that are no archive: [BadZipFile] is caught and the fallback
    runs. *)
Lemma after_clear_no_zip b t fs :
  zip_read rt b = None ->
  after_clear rt b t fs = fallback_and_return rt b t fs.
Proof.
  intros Hz. unfold after_clear, try_except, open_and_extract, bind at 1.
  now rewrite Hz.
Qed.

(** Bytes that open as an archive: the extraction, and the fallback when
    it raises [BadZipFile]. *)
Lemma after_clear_zip b t archive fs :
  zip_read rt b = Some archive ->
  after_clear rt b t fs
  = match _safe_extract_zip rt archive t fs with
    | (fs2, Return _) => (fs2, Return t)
    | (fs2, Raise e) =>
        if is_BadZipFile e then fallback_and_return rt b t fs2
        else (fs2, Raise e)
    end.
Proof.
  intros Hz. unfold after_clear, try_except, open_and_extract. rewrite Hz.
  unfold bind at 1. unfold bind at 1.
  destruct (_safe_extract_zip rt archive t fs) as [fs2 [[]|e]];
    [reflexivity|].
  destruct (is_BadZipFile e); reflexivity.
Qed.

Lemma write_unfold_fallback b t fs fs1 :
  _clear_and_prepare_dir rt t fs = (fs1, Return tt) ->
  zip_read rt b = None ->
  write_token_store_bytes rt b t fs
  = match legacy_fallback rt b t fs1 with
    | (fs', Return _) => (fs', Return t)
    | (fs', Raise e) => (fs', Raise e)
    end.
Proof.
  intros Hc Hz. rewrite write_unfold. unfold bind at 1.
  rewrite Hc, (after_clear_no_zip _ _ _ Hz).
  unfold fallback_and_return, bind, ret.
  now destruct (legacy_fallback rt b t fs1) as [fs' [[]|e]].
Qed.

(** Members whose data is read well are extracted one by one. *)
Lemma extraction_of_readable ms target fs :
  _safe_extract_zip rt (map Readable ms) target fs
  = for_each ms (extract_member rt (abspath (cwd rt) target)) fs.
Proof.
  unfold _safe_extract_zip. revert fs.
  induction ms as [|m ms IH]; intros fs; [reflexivity|].
  cbn [map for_each extract_entry]. unfold bind.
  destruct (extract_member rt (abspath (cwd rt) target) m fs)
    as [fs1 [[]|e]];
    [apply IH|reflexivity].
Qed.

(** *** What can raise [BadZipFile] *)

Lemma lift_no_BadZipFile r fs : snd (lift r fs) <> Raise BadZipFile.
Proof. unfold lift. destruct (r fs); discriminate. Qed.

Lemma bind_no_BadZipFile {A B} (c : M A) (k : A -> M B) fs :
  snd (c fs) <> Raise BadZipFile ->
  (forall a s, snd (k a s) <> Raise BadZipFile) ->
  snd (bind c k fs) <> Raise BadZipFile.
Proof.
  intros Hc Hk. unfold bind. destruct (c fs) as [fs' [a|e]]; [apply Hk|].
  cbn in *. intros E. apply Hc. now inversion E.
Qed.

Lemma extract_member_no_BadZipFile target_abs m fs :
  snd (extract_member rt target_abs m fs) <> Raise BadZipFile.
Proof.
  unfold extract_member.
  destruct (negb (nonempty (filename m))); [discriminate|].
  destruct (safe_destination rt target_abs (filename m)) as [dest|];
    [|discriminate].
  destruct (member_is_dir m); [apply lift_no_BadZipFile|].
  apply bind_no_BadZipFile; [apply lift_no_BadZipFile|].
  intros _ s. apply lift_no_BadZipFile.
Qed.

Lemma extract_entry_no_BadZipFile target_abs entry fs :
  reads_without_BadZipFile entry ->
  snd (extract_entry rt target_abs entry fs) <> Raise BadZipFile.
Proof.
  destruct entry as [m|name written e]; intros Hr.
  - apply extract_member_no_BadZipFile.
  - cbn [extract_entry]. unfold extract_unreadable.
    destruct (negb (nonempty name)); [discriminate|].
    destruct (safe_destination rt target_abs name) as [dest|];
      [|discriminate].
    destruct (endswith_sep name); [apply lift_no_BadZipFile|].
    apply bind_no_BadZipFile; [apply lift_no_BadZipFile|].
    intros _ s. destruct written as [data|].
    + apply bind_no_BadZipFile; [apply lift_no_BadZipFile|].
      intros _ s'. cbn. intros E. inversion E; subst e. exact Hr.
    + cbn. intros E. inversion E; subst e. exact Hr.
Qed.

Lemma extraction_raises_no_BadZipFile archive target fs :
  Forall reads_without_BadZipFile archive ->
  snd (_safe_extract_zip rt archive target fs) <> Raise BadZipFile.
Proof.
  unfold _safe_extract_zip. intros Hall. revert fs.
  induction Hall as [|entry archive He Hall IH]; intros fs; [discriminate|].
  cbn [for_each]. apply bind_no_BadZipFile.
  - now apply extract_entry_no_BadZipFile.
  - intros _ s. apply IH.
Qed.

Lemma ready_of_files t fs d1 d2 :
  file_at (resolve t ++ [OAUTH1_TOKEN_FILENAME]) fs = Some d1 ->
  file_at (resolve t ++ [OAUTH2_TOKEN_FILENAME]) fs = Some d2 ->
  token_store_ready rt t fs = true.
Proof.
  intros H1 H2. unfold token_store_ready.
  apply andb_true_intro. split; apply isfile_file_at; unfold FileSys.resolve;
    rewrite resolve_join_name by reflexivity; eauto.
Qed.

End WithRuntime.

(** C5.  Bytes that are no zip archive and parse to a JSON object with the
    keys [oauth_token], [oauth_token_secret] and [access_token]: once the
    target, given by a plain path, is cleared, the whole payload is written as the OAuth1 file and
    as the OAuth2 file, the call returns the target and the store is
    ready. *)
Theorem write_flattened_payload rt token_bytes target fs fs1 items :
  plain target = true ->
  _clear_and_prepare_dir rt target fs = (fs1, Return tt) ->
  zip_read rt token_bytes = None ->
  parse_payload rt token_bytes = Some (JObject items) ->
  dict_has "oauth_token" items = true ->
  dict_has "oauth_token_secret" items = true ->
  dict_has "access_token" items = true ->
  exists fs',
    write_token_store_bytes rt token_bytes target fs = (fs', Return target)
    /\ file_at (resolve (cwd rt) target ++ [OAUTH1_TOKEN_FILENAME]) fs'
       = Some (json_dump rt (JObject items))
    /\ file_at (resolve (cwd rt) target ++ [OAUTH2_TOKEN_FILENAME]) fs'
       = Some (json_dump rt (JObject items))
    /\ token_store_ready rt target fs' = true.
Proof.
  intros _ Hc Hz Hp K1 K2 K3.
  destruct (legacy_fallback_spec rt token_bytes target items fs1 Hp
              (clear_store_dir _ _ _ _ Hc)) as [fs' [E [_ [A1 [A2 _]]]]].
  rewrite K1, K2, K3 in *. simpl in A1, A2.
  exists fs'. rewrite (write_unfold_fallback _ _ _ _ _ Hc Hz), E.
  repeat split; try assumption.
  eapply ready_of_files; eassumption.
Qed.

Lemma write_flattened_payload_witness :
  exists fs',
    write_token_store_bytes Inputs.rt0 Inputs.flat_payload "store"
                            Inputs.fs_legacy = (fs', Return "store")
    /\ file_at (resolve (cwd Inputs.rt0) "store" ++ [OAUTH1_TOKEN_FILENAME]) fs'
       = Some (json_dump Inputs.rt0
                 (JObject [("oauth_token", JString "a");
                           ("oauth_token_secret", JString "b");
                           ("access_token", JString "c")]))
    /\ file_at (resolve (cwd Inputs.rt0) "store" ++ [OAUTH2_TOKEN_FILENAME]) fs'
       = Some (json_dump Inputs.rt0
                 (JObject [("oauth_token", JString "a");
                           ("oauth_token_secret", JString "b");
                           ("access_token", JString "c")]))
    /\ token_store_ready Inputs.rt0 "store" fs' = true.
Proof.
  apply (write_flattened_payload Inputs.rt0 Inputs.flat_payload "store"
           Inputs.fs_legacy
           (fst (_clear_and_prepare_dir Inputs.rt0 "store" Inputs.fs_legacy)));
    vm_compute; reflexivity.
Defined.

(** C9.  In the legacy fallback, for a target given by a plain path, the
    flattened rules come after the sub-object rules and overwrite what they
    wrote: with an [oauth1_token]
    object and the keys [oauth_token] and [oauth_token_secret], the OAuth1
    file ends up holding the whole payload; with an [oauth2_token] object
    and the key [access_token], the OAuth2 file does. *)
Theorem flattened_rules_overwrite rt token_bytes target fs fs1 items :
  plain target = true ->
  _clear_and_prepare_dir rt target fs = (fs1, Return tt) ->
  zip_read rt token_bytes = None ->
  parse_payload rt token_bytes = Some (JObject items) ->
  let fs' := fst (write_token_store_bytes rt token_bytes target fs) in
  (forall o1,
      dict_get "oauth1_token" items = Some (JObject o1) ->
      dict_has "oauth_token" items = true ->
      dict_has "oauth_token_secret" items = true ->
      file_at (resolve (cwd rt) target ++ [OAUTH1_TOKEN_FILENAME]) fs'
      = Some (json_dump rt (JObject items)))
  /\ (forall o2,
         dict_get "oauth2_token" items = Some (JObject o2) ->
         dict_has "access_token" items = true ->
         file_at (resolve (cwd rt) target ++ [OAUTH2_TOKEN_FILENAME]) fs'
         = Some (json_dump rt (JObject items))).
Proof.
  intros _ Hc Hz Hp.
  destruct (legacy_fallback_spec rt token_bytes target items fs1 Hp
              (clear_store_dir _ _ _ _ Hc)) as [fs2 [E [_ [A1 [A2 _]]]]].
  rewrite (write_unfold_fallback _ _ _ _ _ Hc Hz), E. simpl. split.
  - intros o1 _ K1 K2. now rewrite A1, K1, K2.
  - intros o2 _ K3. now rewrite A2, K3.
Qed.

Lemma flattened_rules_overwrite_witness :
  let items :=
    [("oauth1_token", JObject [("x", JNumber "1")]);
     ("oauth_token", JString "a"); ("oauth_token_secret", JString "b");
     ("oauth2_token", JObject [("y", JNumber "2")]);
     ("access_token", JString "c")] in
  let fs' := fst (write_token_store_bytes Inputs.rt0 Inputs.mixed_payload
                    "store" Inputs.fs_legacy) in
  file_at (resolve (cwd Inputs.rt0) "store" ++ [OAUTH1_TOKEN_FILENAME]) fs'
  = Some (json_dump Inputs.rt0 (JObject items))
  /\ file_at (resolve (cwd Inputs.rt0) "store" ++ [OAUTH2_TOKEN_FILENAME]) fs'
     = Some (json_dump Inputs.rt0 (JObject items)).
Proof.
  intros items fs'.
  assert (Hc : _clear_and_prepare_dir Inputs.rt0 "store" Inputs.fs_legacy
               = (fst (_clear_and_prepare_dir Inputs.rt0 "store"
                         Inputs.fs_legacy), Return tt))
    by (vm_compute; reflexivity).
  assert (Hz : zip_read Inputs.rt0 Inputs.mixed_payload = None)
    by (vm_compute; reflexivity).
  assert (Hp : parse_payload Inputs.rt0 Inputs.mixed_payload
               = Some (JObject items)) by (vm_compute; reflexivity).
  destruct (flattened_rules_overwrite Inputs.rt0 Inputs.mixed_payload
              "store" Inputs.fs_legacy _ items eq_refl Hc Hz Hp) as [H1 H2].
  split.
  - exact (H1 [("x", JNumber "1")] eq_refl eq_refl eq_refl).
  - exact (H2 [("y", JNumber "2")] eq_refl eq_refl).
Defined.

(** C3, as the claim states it, fails: bytes that open as an archive,
    with one member whose check is wrong, are no error.  Reading the member
    raises [BadZipFile] after its file was opened for writing; the
    exception is caught like that of bytes that are no archive, the legacy
    fallback is run on the target as the extraction left it, and the call
    returns the target path. *)
Lemma corrupt_member_falls_back :
  zip_read Inputs.rt0 MoreInputs.corrupt_zip
  = Some [Unreadable "oauth1_token.json" (Some []) BadZipFile]
  /\ write_token_store_bytes Inputs.rt0 MoreInputs.corrupt_zip "/dst/store"
                             Inputs.fs_dst
     = (Dir [("home", Dir [("u", Dir [])]);
             ("dst", Dir [("store", Dir [("oauth1_token.json", File [])])])],
        Return "/dst/store")
  /\ (let fs1 := fst (_clear_and_prepare_dir Inputs.rt0 "/dst/store"
                        Inputs.fs_dst) in
      let fs2 := fst (_safe_extract_zip Inputs.rt0
                        [Unreadable "oauth1_token.json" (Some []) BadZipFile]
                        "/dst/store" fs1) in
      snd (_safe_extract_zip Inputs.rt0
             [Unreadable "oauth1_token.json" (Some []) BadZipFile]
             "/dst/store" fs1) = Raise BadZipFile
      /\ write_token_store_bytes Inputs.rt0 MoreInputs.corrupt_zip
                                 "/dst/store" Inputs.fs_dst
         = fallback_and_return Inputs.rt0 MoreInputs.corrupt_zip "/dst/store"
                               fs2).
Proof. vm_compute. repeat split. Qed.

(** C3, amended.  When the bytes open as a zip archive and the target is
    given by a plain path, the call is the clearing followed by the
    extraction, unless the extraction raises [BadZipFile]: when the extraction returns, the call returns the target;
    what the extraction raises other than [BadZipFile], an
    [UnsafeArchiveEntryError] among others, is raised by the call, with the
    file system as the extraction left it; and when no entry raises
    [BadZipFile] on being read, the extraction does not raise it, and the
    text and JSON codecs of the fallback have no part in the result.  When
    the extraction raises [BadZipFile], the call goes on with the legacy
    fallback. *)
Theorem zip_input_never_falls_back rt token_bytes target fs archive :
  plain target = true ->
  zip_read rt token_bytes = Some archive ->
  (forall fs1 fs2,
      _clear_and_prepare_dir rt target fs = (fs1, Return tt) ->
      _safe_extract_zip rt archive target fs1 = (fs2, Return tt) ->
      write_token_store_bytes rt token_bytes target fs = (fs2, Return target))
  /\ (forall fs1 fs2 e,
         _clear_and_prepare_dir rt target fs = (fs1, Return tt) ->
         _safe_extract_zip rt archive target fs1 = (fs2, Raise e) ->
         e <> BadZipFile ->
         write_token_store_bytes rt token_bytes target fs = (fs2, Raise e))
  /\ (forall fs1 fs2 raw_name,
         _clear_and_prepare_dir rt target fs = (fs1, Return tt) ->
         _safe_extract_zip rt archive target fs1
         = (fs2, Raise (UnsafeArchiveEntryError raw_name)) ->
         write_token_store_bytes rt token_bytes target fs
         = (fs2, Raise (UnsafeArchiveEntryError raw_name)))
  /\ (Forall reads_without_BadZipFile archive ->
      (forall fs1,
          snd (_safe_extract_zip rt archive target fs1) <> Raise BadZipFile)
      /\ (forall u l d,
             write_token_store_bytes (with_json rt u l d) token_bytes target
                                     fs
             = write_token_store_bytes rt token_bytes target fs))
  /\ (forall fs1 fs2,
         _clear_and_prepare_dir rt target fs = (fs1, Return tt) ->
         _safe_extract_zip rt archive target fs1 = (fs2, Raise BadZipFile) ->
         write_token_store_bytes rt token_bytes target fs
         = fallback_and_return rt token_bytes target fs2).
Proof.
  intros _ Hz.
  assert (Hother : forall fs1 fs2 e,
             _clear_and_prepare_dir rt target fs = (fs1, Return tt) ->
             _safe_extract_zip rt archive target fs1 = (fs2, Raise e) ->
             e <> BadZipFile ->
             write_token_store_bytes rt token_bytes target fs
             = (fs2, Raise e)).
  { intros fs1 fs2 e Hc He Hne. rewrite write_unfold. unfold bind at 1.
    rewrite Hc, (after_clear_zip rt _ _ _ _ Hz), He.
    destruct e; try reflexivity. now destruct Hne. }
  split; [|split; [exact Hother|split; [|split]]].
  - intros fs1 fs2 Hc He. rewrite write_unfold. unfold bind at 1.
    now rewrite Hc, (after_clear_zip rt _ _ _ _ Hz), He.
  - intros fs1 fs2 raw_name Hc He.
    apply (Hother fs1 fs2 _ Hc He). discriminate.
  - intros Hall. split.
    + intros fs1. now apply extraction_raises_no_BadZipFile.
    + intros u l d. rewrite !write_unfold. unfold bind.
      change (_clear_and_prepare_dir (with_json rt u l d) target fs)
        with (_clear_and_prepare_dir rt target fs).
      destruct (_clear_and_prepare_dir rt target fs) as [fs1 [[]|e]];
        [|reflexivity].
      rewrite (after_clear_zip rt _ _ _ _ Hz).
      rewrite (after_clear_zip (with_json rt u l d) _ _ _ fs1 Hz).
      change (_safe_extract_zip (with_json rt u l d) archive target fs1)
        with (_safe_extract_zip rt archive target fs1).
      pose proof (extraction_raises_no_BadZipFile rt archive target fs1 Hall)
        as Hno.
      destruct (_safe_extract_zip rt archive target fs1) as [fs2 [[]|e]];
        [reflexivity|].
      destruct e; try reflexivity. now destruct Hno.
  - intros fs1 fs2 Hc He. rewrite write_unfold. unfold bind at 1.
    now rewrite Hc, (after_clear_zip rt _ _ _ _ Hz), He.
Qed.

Lemma zip_input_never_falls_back_witness :
  (forall u l d,
      write_token_store_bytes (with_json Inputs.rt0 u l d) Inputs.evil_zip
                              "/dst/.garmin_token_store" Inputs.fs_dst
      = write_token_store_bytes Inputs.rt0 Inputs.evil_zip
                                "/dst/.garmin_token_store" Inputs.fs_dst)
  /\ snd (write_token_store_bytes Inputs.rt0 Inputs.evil_zip
                                  "/dst/.garmin_token_store" Inputs.fs_dst)
     = Raise (UnsafeArchiveEntryError "../evil.txt").
Proof.
  assert (Hz : zip_read Inputs.rt0 Inputs.evil_zip
               = Some (map Readable Inputs.evil_archive))
    by (vm_compute; reflexivity).
  destruct (zip_input_never_falls_back Inputs.rt0 Inputs.evil_zip
              "/dst/.garmin_token_store" Inputs.fs_dst _ eq_refl Hz)
    as [_ [_ [H3 [H4 _]]]].
  split.
  - apply H4. repeat constructor.
  - erewrite H3; [reflexivity| |]; vm_compute; reflexivity.
Defined.

End WriteBytes.

(* ------------------------------------------------------------------ *)
(** ** [_safe_extract_zip] *)

Module SafeExtract.
Import PyStr PosixPath FileSys Lib TokenStore FileSysFacts PathFacts CallFacts.
Import Spec MoreSpec WriteBytes.

Lemma for_each_app {X} (xs ys : list X) body fs :
  for_each (xs ++ ys) body fs
  = bind (for_each xs body) (fun _ => for_each ys body) fs.
Proof.
  revert fs. induction xs as [|x xs IH]; intros fs; simpl.
  - reflexivity.
  - unfold bind. destruct (body x fs) as [fs1 [[]|e]].
    + rewrite IH. reflexivity.
    + reflexivity.
Qed.

Lemma below_dec (p q : path) : {below p q} + {~ below p q}.
Proof.
  revert q. induction p as [|c p IH]; intros q.
  - left. now exists q.
  - destruct q as [|c' q].
    + right. intros [r Hr]. discriminate.
    + destruct (string_dec c c') as [<-|Hne].
      * destruct (IH q) as [Hb|Hb].
        -- left. destruct Hb as [r ->]. now exists r.
        -- right. intros [r Hr]. apply Hb. exists r. now inversion Hr.
      * right. intros [r Hr]. inversion Hr. congruence.
Qed.

Lemma tree_del_no_new p n q d :
  file_at q (tree_del p n) = Some d -> file_at q n = Some d.
Proof.
  destruct (below_dec p q) as [[r ->]|Hb].
  - destruct p as [|c p].
    + now destruct n.
    + unfold file_at at 1. rewrite tree_del_gone; discriminate.
  - now rewrite tree_del_files.
Qed.

Lemma file_at_empty_root q : file_at q (Dir []) = None.
Proof. now destruct q. Qed.

Section WithRuntime.
Variable rt : Runtime.
Local Abbreviation resolve := (FileSys.resolve (cwd rt)).
Local Abbreviation abspath := (PosixPath.abspath (cwd rt)).

(** *** The entry that is refused *)

Lemma unsafe_no_destination target_abs m :
  unsafe_entry rt target_abs m ->
  safe_destination rt target_abs (entry_name m) = None.
Proof.
  intros [_ H]. unfold safe_destination.
  fold (normalized (entry_name m)).
  destruct (startswith (normalized (entry_name m)) "/"
            || startswith (normalized (entry_name m)) "../") eqn:E1;
    [reflexivity|].
  destruct (contains "/../" (normalized (entry_name m))
            || String.eqb (normalized (entry_name m)) "..") eqn:E2;
    [reflexivity|].
  destruct H as [H|H].
  - unfold unsafe_name in H. rewrite <- orb_assoc, E1, E2 in H. discriminate.
  - unfold escapes in H. cbv zeta in *. now rewrite H.
Qed.

(** The name is tested before the data of the entry is opened. *)
Lemma extract_unsafe_member target_abs m fs :
  unsafe_entry rt target_abs m ->
  extract_entry rt target_abs m fs
  = (fs, Raise (UnsafeArchiveEntryError (entry_name m))).
Proof.
  intros H. pose proof (unsafe_no_destination _ _ H) as Hd.
  destruct H as [Hn _].
  destruct m as [m|name written e]; cbn [extract_entry entry_name] in *.
  - unfold extract_member. now rewrite Hd, Hn.
  - unfold extract_unreadable. now rewrite Hd, Hn.
Qed.

Lemma extract_reaches_unsafe pre m post target fs :
  unsafe_entry rt (abspath target) m ->
  (forall fs1,
      _safe_extract_zip rt pre target fs = (fs1, Return tt) ->
      _safe_extract_zip rt (pre ++ m :: post) target fs
      = (fs1, Raise (UnsafeArchiveEntryError (entry_name m))))
  /\ (forall fs1 e,
         _safe_extract_zip rt pre target fs = (fs1, Raise e) ->
         _safe_extract_zip rt (pre ++ m :: post) target fs = (fs1, Raise e)).
Proof.
  intros Hm. unfold _safe_extract_zip. split.
  - intros fs1 H. rewrite for_each_app. unfold bind at 1. rewrite H.
    simpl. unfold bind. now rewrite (extract_unsafe_member _ _ fs1 Hm).
  - intros fs1 e H. rewrite for_each_app. unfold bind. now rewrite H.
Qed.

(** *** Nothing is written outside the target *)

Lemma nnfo_ret {A} t (a : A) : no_new_files_outside t (ret a).
Proof. intros fs q d H. now right. Qed.

Lemma nnfo_raise {A} t e : no_new_files_outside t (@raise A e).
Proof. intros fs q d H. now right. Qed.

Lemma nnfo_bind {A B} t (c : M A) (k : A -> M B) :
  no_new_files_outside t c -> (forall a, no_new_files_outside t (k a)) ->
  no_new_files_outside t (bind c k).
Proof.
  intros Hc Hk fs q d. unfold bind. specialize (Hc fs q d).
  destruct (c fs) as [fs1 [a|e]]; simpl in *; [|exact Hc].
  intros H. destruct (Hk a fs1 q d H) as [Hb|Hf]; auto.
Qed.

Lemma nnfo_try_except {A} t (c : M A) caught handler :
  no_new_files_outside t c -> no_new_files_outside t handler ->
  no_new_files_outside t (try_except c caught handler).
Proof.
  intros Hc Hh fs q d. unfold try_except. specialize (Hc fs q d).
  destruct (c fs) as [fs1 [a|e]]; simpl in *; [exact Hc|].
  destruct (caught e); [|exact Hc].
  intros H. destruct (Hh fs1 q d H) as [Hb|Hf]; auto.
Qed.

Lemma nnfo_for_each {X} t (xs : list X) body :
  (forall x, no_new_files_outside t (body x)) ->
  no_new_files_outside t (for_each xs body).
Proof.
  intros Hb. induction xs as [|x xs IH]; simpl.
  - apply nnfo_ret.
  - apply nnfo_bind; auto.
Qed.

Lemma nnfo_makedirs t p : no_new_files_outside t (makedirs (cwd rt) p).
Proof. intros fs q d H. right. now rewrite makedirs_files in H. Qed.

Lemma nnfo_write_file t p data :
  below t (resolve p) -> no_new_files_outside t (write_file (cwd rt) p data).
Proof.
  intros Hb fs q d H.
  destruct (list_eq_dec string_dec q (resolve p)) as [->|Hne]; [now left|].
  right. now rewrite write_file_frame in H.
Qed.

Lemma kd_ret {A} (a : A) : keeps_dirs (ret a).
Proof. now intros fs q H. Qed.

Lemma kd_raise {A} e : keeps_dirs (@raise A e).
Proof. now intros fs q H. Qed.

Lemma kd_bind {A B} (c : M A) (k : A -> M B) :
  keeps_dirs c -> (forall a, keeps_dirs (k a)) -> keeps_dirs (bind c k).
Proof.
  intros Hc Hk fs q H. unfold bind. specialize (Hc fs q H).
  destruct (c fs) as [fs1 [a|e]]; simpl in *; [|exact Hc].
  now apply Hk.
Qed.

Lemma kd_try_except {A} (c : M A) caught handler :
  keeps_dirs c -> keeps_dirs handler ->
  keeps_dirs (try_except c caught handler).
Proof.
  intros Hc Hh fs q H. unfold try_except. specialize (Hc fs q H).
  destruct (c fs) as [fs1 [a|e]]; simpl in *; [exact Hc|].
  destruct (caught e); [|exact Hc]. now apply Hh.
Qed.

Lemma kd_for_each {X} (xs : list X) body :
  (forall x, keeps_dirs (body x)) -> keeps_dirs (for_each xs body).
Proof.
  intros Hb. induction xs as [|x xs IH]; simpl.
  - apply kd_ret.
  - apply kd_bind; auto.
Qed.

Lemma kd_makedirs p : keeps_dirs (makedirs (cwd rt) p).
Proof.
  intros fs q H.
  destruct (makedirs_cases rt p fs) as [[fs' [Hw ->]]|[e ->]]; [|exact H].
  simpl. eapply tree_mkdirs_keeps_dirs; eauto.
Qed.

Lemma kd_write_file p data : keeps_dirs (write_file (cwd rt) p data).
Proof. intros fs q H. now rewrite write_file_dirs. Qed.

(** The destination that passes the tests is at or below the target. *)
Lemma safe_destination_below target raw dest :
  safe_destination rt (abspath target) raw = Some dest ->
  below (resolve target) (resolve dest).
Proof.
  unfold safe_destination.
  destruct (startswith _ "/" || startswith _ "../"); [discriminate|].
  destruct (contains "/../" _ || String.eqb _ ".."); [discriminate|].
  set (x := join (abspath target) (replace_char backslash sep_char raw)).
  destruct (String.eqb_spec (abspath x) (abspath target)) as [E|E];
    cbn [negb andb].
  - intros H. inversion H; subst dest. rewrite E.
    unfold FileSys.resolve. rewrite (resolve_abspath (cwd rt) target).
    exists []. now rewrite app_nil_r.
  - destruct (startswith (abspath x) (abspath target +++ "/")) eqn:Hs;
      cbn [negb]; [|discriminate].
    intros H. inversion H; subst dest.
    unfold FileSys.resolve. rewrite resolve_abspath.
    destruct (startswith_below _ _ _ Hs) as [rest Hr].
    exists rest. now rewrite Hr.
Qed.

Lemma nnfo_extract_member target m :
  no_new_files_outside (resolve target)
                       (extract_member rt (abspath target) m).
Proof.
  unfold extract_member.
  destruct (negb (nonempty (filename m))); [apply nnfo_ret|].
  destruct (safe_destination rt (abspath target) (filename m)) as [dest|]
    eqn:Hd; [|apply nnfo_raise].
  destruct (member_is_dir m); [apply nnfo_makedirs|].
  apply nnfo_bind; [apply nnfo_makedirs|]. intros _.
  apply nnfo_write_file. eapply safe_destination_below; eauto.
Qed.

Lemma kd_extract_member target_abs m :
  keeps_dirs (extract_member rt target_abs m).
Proof.
  unfold extract_member.
  destruct (negb (nonempty (filename m))); [apply kd_ret|].
  destruct (safe_destination rt target_abs (filename m)) as [dest|];
    [|apply kd_raise].
  destruct (member_is_dir m); [apply kd_makedirs|].
  apply kd_bind; [apply kd_makedirs|]. intros _. apply kd_write_file.
Qed.

Lemma nnfo_extract_entry target entry :
  no_new_files_outside (resolve target)
                       (extract_entry rt (abspath target) entry).
Proof.
  destruct entry as [m|name written e]; [apply nnfo_extract_member|].
  cbn [extract_entry]. unfold extract_unreadable.
  destruct (negb (nonempty name)); [apply nnfo_ret|].
  destruct (safe_destination rt (abspath target) name) as [dest|] eqn:Hd;
    [|apply nnfo_raise].
  destruct (endswith_sep name); [apply nnfo_makedirs|].
  apply nnfo_bind; [apply nnfo_makedirs|]. intros _.
  destruct written as [data|]; [|apply nnfo_raise].
  apply nnfo_bind; [|intros _; apply nnfo_raise].
  apply nnfo_write_file. eapply safe_destination_below; eauto.
Qed.

Lemma kd_extract_entry target_abs entry :
  keeps_dirs (extract_entry rt target_abs entry).
Proof.
  destruct entry as [m|name written e]; [apply kd_extract_member|].
  cbn [extract_entry]. unfold extract_unreadable.
  destruct (negb (nonempty name)); [apply kd_ret|].
  destruct (safe_destination rt target_abs name) as [dest|];
    [|apply kd_raise].
  destruct (endswith_sep name); [apply kd_makedirs|].
  apply kd_bind; [apply kd_makedirs|]. intros _.
  destruct written as [data|]; [|apply kd_raise].
  apply kd_bind; [apply kd_write_file|intros _; apply kd_raise].
Qed.

Lemma nnfo_maybe_write t name o :
  valid_name name = true ->
  no_new_files_outside (resolve t) (maybe_write rt t name o).
Proof.
  intros Hn. destruct o as [v|]; [|apply nnfo_ret].
  apply nnfo_write_file. exists [name].
  unfold FileSys.resolve. now rewrite resolve_join_name.
Qed.

Lemma kd_maybe_write t name o : keeps_dirs (maybe_write rt t name o).
Proof. destruct o as [v|]; [apply kd_write_file|apply kd_ret]. Qed.

Lemma nnfo_legacy_fallback b t :
  no_new_files_outside (resolve t) (legacy_fallback rt b t).
Proof.
  rewrite legacy_fallback_unfold.
  destruct (parse_payload rt b) as [[| | | | |items]|]; try apply nnfo_ret.
  repeat (apply nnfo_bind; [now apply nnfo_maybe_write|intros _]).
  now apply nnfo_maybe_write.
Qed.

Lemma kd_legacy_fallback b t : keeps_dirs (legacy_fallback rt b t).
Proof.
  rewrite legacy_fallback_unfold.
  destruct (parse_payload rt b) as [[| | | | |items]|]; try apply kd_ret.
  repeat (apply kd_bind; [apply kd_maybe_write|intros _]).
  apply kd_maybe_write.
Qed.

(** Clearing creates no file at all. *)
Lemma clear_no_new_files p fs q d :
  file_at q (fst (_clear_and_prepare_dir rt p fs)) = Some d ->
  file_at q fs = Some d.
Proof.
  rewrite clear_unfold.
  destruct (tree_get (resolve p) fs) as [[x|es]|] eqn:Hg.
  - rewrite makedirs_files. apply tree_del_no_new.
  - destruct (resolve p).
    + simpl. now rewrite file_at_empty_root.
    + rewrite makedirs_files. apply tree_del_no_new.
  - now rewrite makedirs_files.
Qed.

Lemma nnfo_after_clear b t :
  no_new_files_outside (resolve t) (after_clear rt b t).
Proof.
  unfold after_clear. apply nnfo_bind.
  - apply nnfo_try_except; [|apply nnfo_ret]. unfold open_and_extract.
    destruct (zip_read rt b) as [archive|]; [|apply nnfo_raise].
    apply nnfo_bind; [|intros; apply nnfo_ret].
    apply nnfo_for_each. intros m. apply nnfo_extract_entry.
  - intros [|]; [apply nnfo_ret|].
    apply nnfo_bind; [|intros; apply nnfo_ret]. apply nnfo_legacy_fallback.
Qed.

Lemma kd_after_clear b t : keeps_dirs (after_clear rt b t).
Proof.
  unfold after_clear. apply kd_bind.
  - apply kd_try_except; [|apply kd_ret]. unfold open_and_extract.
    destruct (zip_read rt b) as [archive|]; [|apply kd_raise].
    apply kd_bind; [|intros; apply kd_ret].
    apply kd_for_each. intros m. apply kd_extract_entry.
  - intros [|]; [apply kd_ret|].
    apply kd_bind; [|intros; apply kd_ret]. apply kd_legacy_fallback.
Qed.

Lemma write_never_escapes b target fs q d :
  file_at q (fst (write_token_store_bytes rt b target fs)) = Some d ->
  strictly_below (resolve target) q \/ file_at q fs = Some d.
Proof.
  change (write_token_store_bytes rt b target fs)
    with (bind (_clear_and_prepare_dir rt target)
               (fun _ => after_clear rt b target) fs).
  unfold bind.
  destruct (_clear_and_prepare_dir rt target fs) as [fs1 [[]|e]] eqn:Hc.
  - intros H.
    destruct (nnfo_after_clear b target fs1 q d H) as [[rest ->]|Hf].
    + destruct rest as [|c rest].
      * exfalso. rewrite app_nil_r in H.
        assert (Hd : dir_at (resolve target) fs1 = true).
        { destruct (clear_spec _ _ _ _ Hc) as [Hg _].
          unfold dir_at. now rewrite Hg. }
        apply (kd_after_clear b target fs1) in Hd.
        unfold dir_at in Hd. unfold file_at in H.
        destruct (tree_get (resolve target) _) as [[x|es]|]; discriminate.
      * left. now exists c, rest.
    + right. apply (clear_no_new_files target fs). now rewrite Hc.
  - intros H. right. apply (clear_no_new_files target fs). now rewrite Hc.
Qed.

End WithRuntime.

(** C1, as the claim states it, fails for one kind of archive: an entry
    named [../evil.txt] after a member whose check is wrong.  Reading the
    first member raises [BadZipFile], the loop never comes to the unsafe
    entry, the exception is caught and the call returns the target path:
    no [UnsafeArchiveEntryError], and no [evil.txt] either. *)
Lemma unsafe_entry_after_corrupt_member :
  zip_read Inputs.rt0 MoreInputs.corrupt_evil_zip
  = Some [Unreadable "ok.txt" (Some []) BadZipFile;
          Readable (mkMember "../evil.txt" (Demo.text "blocked"))]
  /\ unsafe_entry Inputs.rt0
       (abspath (cwd Inputs.rt0) "/dst/.garmin_token_store")
       (Readable (mkMember "../evil.txt" (Demo.text "blocked")))
  /\ write_token_store_bytes Inputs.rt0 MoreInputs.corrupt_evil_zip
       "/dst/.garmin_token_store" Inputs.fs_dst
     = (Dir [("home", Dir [("u", Dir [])]);
             ("dst", Dir [(".garmin_token_store",
                            Dir [("ok.txt", File [])])])],
        Return "/dst/.garmin_token_store").
Proof.
  split; [vm_compute; reflexivity|split].
  - split; [reflexivity|left; reflexivity].
  - vm_compute. reflexivity.
Qed.

(** C1, amended.  An entry with a non-empty name whose normalized name
    starts with [/] or [../], contains [/../], is [..], or whose
    destination is neither the target root nor inside it past a separator,
    makes the extraction raise [UnsafeArchiveEntryError] when the loop
    comes to it, with the file system as the entries before it left it, so
    that no byte of the entry is written; if an entry before it raised,
    that exception stands and the loop never comes to it.  For an archive
    with such an entry and a target given by a plain path,
    [write_token_store_bytes] raises [UnsafeArchiveEntryError] when the
    entries before it are extracted without an exception, and raises some
    exception when none of them raises [BadZipFile] on being read; when
    the entries before it raise [BadZipFile], the call goes on with the
    legacy fallback and does what the fallback does.  And whatever
    the bytes, a file found after [write_token_store_bytes] is inside the
    target directory or was there before with the same content. *)
Theorem unsafe_entry_is_rejected rt target fs :
  (forall pre m post,
      unsafe_entry rt (abspath (cwd rt) target) m ->
      (forall fs1,
          _safe_extract_zip rt pre target fs = (fs1, Return tt) ->
          _safe_extract_zip rt (pre ++ m :: post) target fs
          = (fs1, Raise (UnsafeArchiveEntryError (entry_name m))))
      /\ (forall fs1 e,
             _safe_extract_zip rt pre target fs = (fs1, Raise e) ->
             _safe_extract_zip rt (pre ++ m :: post) target fs
             = (fs1, Raise e)))
  /\ (forall token_bytes pre m post,
         plain target = true ->
         zip_read rt token_bytes = Some (pre ++ m :: post) ->
         unsafe_entry rt (abspath (cwd rt) target) m ->
         (forall fs1 fs2,
             _clear_and_prepare_dir rt target fs = (fs1, Return tt) ->
             _safe_extract_zip rt pre target fs1 = (fs2, Return tt) ->
             write_token_store_bytes rt token_bytes target fs
             = (fs2, Raise (UnsafeArchiveEntryError (entry_name m))))
         /\ (Forall reads_without_BadZipFile pre ->
             exists fs' e,
               write_token_store_bytes rt token_bytes target fs
               = (fs', Raise e))
         /\ (forall fs1 fs2,
                _clear_and_prepare_dir rt target fs = (fs1, Return tt) ->
                _safe_extract_zip rt pre target fs1
                = (fs2, Raise BadZipFile) ->
                write_token_store_bytes rt token_bytes target fs
                = fallback_and_return rt token_bytes target fs2))
  /\ (forall token_bytes q d,
         file_at q (fst (write_token_store_bytes rt token_bytes target fs))
         = Some d ->
         strictly_below (resolve (cwd rt) target) q \/ file_at q fs = Some d).
Proof.
  split; [|split].
  - intros pre m post Hm. now apply extract_reaches_unsafe.
  - intros b pre m post _ Hz Hm. split; [|split].
    + intros fs1 fs2 Hc Hp. rewrite write_unfold. unfold bind at 1.
      rewrite Hc, (after_clear_zip rt _ _ _ _ Hz).
      destruct (extract_reaches_unsafe rt pre m post target fs1 Hm)
        as [H1 _].
      now rewrite (H1 _ Hp).
    + intros Hall. rewrite write_unfold. unfold bind at 1.
      destruct (_clear_and_prepare_dir rt target fs) as [fs1 [[]|e]];
        [|eauto].
      rewrite (after_clear_zip rt _ _ _ _ Hz).
      destruct (extract_reaches_unsafe rt pre m post target fs1 Hm)
        as [H1 H2].
      pose proof (extraction_raises_no_BadZipFile rt pre target fs1 Hall)
        as Hno.
      destruct (_safe_extract_zip rt pre target fs1) as [fs2 [[]|e]] eqn:Hp.
      * rewrite (H1 _ eq_refl). cbn. eauto.
      * rewrite (H2 _ _ eq_refl).
        destruct e; cbn; eauto. now destruct Hno.
    + intros fs1 fs2 Hc Hp. rewrite write_unfold. unfold bind at 1.
      rewrite Hc, (after_clear_zip rt _ _ _ _ Hz).
      destruct (extract_reaches_unsafe rt pre m post target fs1 Hm)
        as [_ H2].
      now rewrite (H2 _ _ Hp).
  - intros b q d. apply write_never_escapes.
Qed.

(** The archive of the repository's zip-slip test: the call raises, the
    member before the unsafe one is extracted, and no [evil.txt] appears
    beside the target. *)
Lemma zip_slip_is_rejected :
  exists fs',
    write_token_store_bytes Inputs.rt0 Inputs.evil_zip
      "/dst/.garmin_token_store" Inputs.fs_dst
    = (fs', Raise (UnsafeArchiveEntryError "../evil.txt"))
    /\ file_at ["dst"; "evil.txt"] fs' = None
    /\ file_at ["dst"; ".garmin_token_store"; "ok.txt"] fs'
       = Some (Demo.text "fine").
Proof.
  destruct (unsafe_entry_is_rejected Inputs.rt0 "/dst/.garmin_token_store"
              Inputs.fs_dst) as [_ [H _]].
  assert (Hz : zip_read Inputs.rt0 Inputs.evil_zip
               = Some ([Readable (mkMember "ok.txt" (Demo.text "fine"))]
                         ++ Readable
                              (mkMember "../evil.txt" (Demo.text "blocked"))
                         :: [])) by (vm_compute; reflexivity).
  assert (Hm : unsafe_entry Inputs.rt0
                 (abspath (cwd Inputs.rt0) "/dst/.garmin_token_store")
                 (Readable (mkMember "../evil.txt" (Demo.text "blocked"))))
    by (split; [reflexivity|left; reflexivity]).
  destruct (H _ _ _ _ eq_refl Hz Hm) as [H2 _].
  eexists. split; [|split].
  - eapply H2; vm_compute; reflexivity.
  - vm_compute. reflexivity.
  - vm_compute. reflexivity.
Defined.

End SafeExtract.

(* ------------------------------------------------------------------ *)
(** ** More facts about path strings *)

Module PathStrings.
Import PyStr PosixPath FileSys PathFacts.

Lemma join_sep_cons c l : join_sep (c :: l) = c +++ tail_str l.
Proof.
  revert c. induction l as [|d l IH]; intros c.
  - simpl. now rewrite append_nil_r.
  - change (join_sep (c :: d :: l)) with (c +++ "/" +++ join_sep (d :: l)).
    rewrite IH. reflexivity.
Qed.

Lemma tail_str_app l1 l2 : tail_str (l1 ++ l2) = tail_str l1 +++ tail_str l2.
Proof.
  induction l1 as [|c l1 IH]; simpl; [reflexivity|].
  now rewrite IH, append_assoc.
Qed.

Lemma join_sep_app l1 l2 :
  l1 <> [] -> join_sep (l1 ++ l2) = join_sep l1 +++ tail_str l2.
Proof.
  destruct l1 as [|c l1]; [contradiction|]. intros _.
  change ((c :: l1) ++ l2) with (c :: (l1 ++ l2)).
  now rewrite !join_sep_cons, tail_str_app, append_assoc.
Qed.

Lemma tail_str_join c l : tail_str (c :: l) = "/" +++ join_sep (c :: l).
Proof. now rewrite join_sep_cons. Qed.

Lemma field_nonempty c : field c -> nonempty c = true.
Proof. intros [H _]. now apply proper_nonempty. Qed.

Lemma field_no_sep c : field c -> no_sep c = true.
Proof. now intros [_ H]. Qed.

Lemma field_first c :
  field c -> exists x r, c = String x r /\ is_sep x = false.
Proof.
  intros [Hp Hs]. destruct c as [|x r]; [discriminate|].
  exists x, r. split; [reflexivity|]. simpl in Hs.
  now destruct (is_sep x).
Qed.

Lemma endswith_sep_app a b :
  nonempty b = true -> endswith_sep (a +++ b) = endswith_sep b.
Proof.
  intros Hb. induction a as [|x a IH]; [reflexivity|].
  simpl. destruct (a +++ b) eqn:E.
  - destruct a; [|discriminate]. simpl in E. subst. discriminate.
  - exact IH.
Qed.

Lemma endswith_sep_no_sep c : no_sep c = true -> endswith_sep c = false.
Proof.
  induction c as [|x c IH]; [reflexivity|]. simpl.
  intros H. apply andb_prop in H. destruct H as [Hx Hc].
  destruct c; [now apply negb_true_iff in Hx|now apply IH].
Qed.

Lemma endswith_sep_field a c : field c -> endswith_sep (a +++ c) = false.
Proof.
  intros Hc. rewrite endswith_sep_app by now apply field_nonempty.
  now apply endswith_sep_no_sep, field_no_sep.
Qed.

Lemma nonempty_app_r a b : nonempty b = true -> nonempty (a +++ b) = true.
Proof. destruct a; [auto|reflexivity]. Qed.

Lemma nonempty_app_l a b : nonempty a = true -> nonempty (a +++ b) = true.
Proof. destruct a; [discriminate|reflexivity]. Qed.

Lemma field_rel c : field c -> isabs c = false.
Proof.
  intros Hc. destruct (field_first _ Hc) as [x [r [-> Hx]]].
  now rewrite isabs_spec.
Qed.

Lemma join_field a c :
  nonempty a = true -> endswith_sep a = false -> field c ->
  join a c = a +++ "/" +++ c.
Proof.
  intros Ha He Hc. unfold join. fold (isabs c).
  now rewrite (field_rel _ Hc), Ha, He.
Qed.

(** [join( *rel_list)] of names is ["/".join(rel_list)]. *)
Lemma fold_join_fields l a :
  nonempty a = true -> endswith_sep a = false -> Forall field l ->
  fold_left join l a = a +++ tail_str l.
Proof.
  intros Ha He Hl. revert a Ha He.
  induction Hl as [|c l Hc Hl IH]; intros a Ha He; simpl.
  - now rewrite append_nil_r.
  - rewrite (join_field _ _ Ha He Hc), IH.
    + now rewrite !append_assoc.
    + now apply nonempty_app_l.
    + rewrite <- append_assoc. now apply endswith_sep_field.
Qed.

Lemma fold_join_names c l :
  Forall field (c :: l) -> fold_left join l c = join_sep (c :: l).
Proof.
  intros H. inversion H as [|? ? Hc Hl]; subst.
  rewrite join_sep_cons. apply fold_join_fields; auto.
  - now apply field_nonempty.
  - now apply endswith_sep_no_sep, field_no_sep.
Qed.

Lemma common_len_app (a rest : list string) :
  common_len a (a ++ rest) = List.length a.
Proof.
  induction a as [|x a IH]; simpl; [reflexivity|].
  now rewrite String.eqb_refl, IH.
Qed.

Lemma join_sep_rel c l :
  field c -> isabs (join_sep (c :: l)) = false
             /\ nonempty (join_sep (c :: l)) = true.
Proof.
  intros Hc. rewrite join_sep_cons.
  destruct (field_first _ Hc) as [x [r [-> Hx]]].
  now rewrite isabs_spec.
Qed.

Lemma initial_slashes_rel s : isabs s = false -> initial_slashes s = 0.
Proof. unfold initial_slashes, isabs. now intros ->. Qed.

Lemma fields_proper l : Forall field l -> Forall (fun c => proper c = true) l.
Proof. intros H. eapply Forall_impl; [|exact H]. now intros a [Ha _]. Qed.

Lemma fields_no_sep l : Forall field l -> Forall (fun c => no_sep c = true) l.
Proof. intros H. eapply Forall_impl; [|exact H]. now intros a [_ Ha]. Qed.

(** [normpath] leaves a relative path made of names as it is. *)
Lemma normpath_names c l :
  Forall field (c :: l) -> normpath (join_sep (c :: l)) = join_sep (c :: l).
Proof.
  intros H. inversion H as [|? ? Hc Hl]; subst.
  destruct (join_sep_rel _ l Hc) as [Ha Hn].
  unfold normpath. rewrite Hn, (initial_slashes_rel _ Ha). cbn [negb Nat.eqb].
  rewrite split_join_sep; [|discriminate|now apply fields_no_sep].
  unfold norm_comps. rewrite norm_proper by now apply fields_proper.
  cbn [slashes app]. change ("" +++ join_sep (c :: l)) with (join_sep (c :: l)).
  now rewrite Hn.
Qed.

Lemma lstrip_sep_names c l :
  field c -> lstrip_sep (join_sep (c :: l)) = join_sep (c :: l).
Proof.
  intros Hc. rewrite join_sep_cons.
  destruct (field_first _ Hc) as [x [r [-> Hx]]]. simpl. now rewrite Hx.
Qed.

Section WithCwd.
Variable cwd : list string.

(** [relpath] of a path below [start] is the names on the way down. *)
Lemma relpath_below path start rest :
  abs_components cwd path = abs_components cwd start ++ rest ->
  rest <> [] -> Forall field rest ->
  relpath cwd path start = join_sep rest.
Proof.
  intros Hp Hne Hf. unfold relpath. rewrite Hp, common_len_app.
  rewrite Nat.sub_diag. cbn [repeat app].
  rewrite skipn_app, skipn_all, Nat.sub_diag. cbn [skipn app].
  destruct rest as [|c l]; [contradiction|].
  cbn [hd tl]. now apply fold_join_names.
Qed.

End WithCwd.
End PathStrings.

(* ------------------------------------------------------------------ *)
(** ** Normal absolute paths and names that need no check *)

Module NormalPaths.
Import PyStr PosixPath FileSys PathFacts PathStrings.

Lemma initial_slashes_normal n x r :
  n = 1 \/ n = 2 -> is_sep x = false ->
  initial_slashes (slashes n +++ String x r) = n.
Proof.
  intros Hn Hx. unfold initial_slashes, startswith.
  assert (E : Ascii.eqb "/" x = false).
  { unfold is_sep, sep_char in Hx. now rewrite Ascii.eqb_sym. }
  destruct Hn as [-> | ->]; cbn [slashes String.append].
  - rewrite !prefix_cons, !prefix_nil, E. reflexivity.
  - rewrite !prefix_cons, !prefix_nil, E. reflexivity.
Qed.

Lemma normpath_abs_form p :
  isabs p = true ->
  (initial_slashes p = 1 \/ initial_slashes p = 2)
  /\ normpath p
     = slashes (initial_slashes p) +++ join_sep (norm_comps true (split_sep p)).
Proof.
  intros Hp. split; [now apply initial_slashes_abs|].
  unfold normpath. rewrite (@isabs_nonempty _ Hp). cbn [negb].
  destruct (@initial_slashes_abs _ Hp) as [-> | ->]; reflexivity.
Qed.

Lemma norm_split_fields n l :
  n <> 0 -> Forall field l ->
  norm_comps true (split_sep (slashes n +++ join_sep l)) = l.
Proof.
  intros Hn Hl. unfold norm_comps. rewrite norm_skip_empty.
  fold (fcomps (slashes n +++ join_sep l)).
  rewrite fcomps_slashes, fcomps_join_sep by exact Hl.
  apply norm_proper. now apply fields_proper.
Qed.

(** [normpath] leaves a normal absolute path as it is. *)
Lemma normpath_normal n l :
  n = 1 \/ n = 2 -> l <> [] -> Forall field l ->
  normpath (slashes n +++ join_sep l) = slashes n +++ join_sep l.
Proof.
  intros Hn Hne Hl. destruct l as [|c l]; [contradiction|].
  assert (H0 : n <> 0) by (destruct Hn; subst; discriminate).
  destruct (normpath_abs_form (slashes n +++ join_sep (c :: l))
              (@isabs_slashes n _ H0)) as [_ ->].
  rewrite (norm_split_fields n (c :: l) H0 Hl).
  rewrite join_sep_cons.
  destruct (field_first c) as [x [r [-> Hx]]]; [now inversion Hl|].
  cbn [String.append]. now rewrite (initial_slashes_normal n x _ Hn Hx).
Qed.

Lemma join_rel a b :
  nonempty a = true -> endswith_sep a = false -> isabs b = false ->
  join a b = a +++ "/" +++ b.
Proof.
  intros Ha He Hb. unfold join. fold (isabs b). now rewrite Hb, Ha, He.
Qed.

Lemma endswith_sep_normal n l :
  l <> [] -> Forall field l -> endswith_sep (slashes n +++ join_sep l) = false.
Proof.
  intros Hne Hl.
  destruct (exists_last Hne) as [l0 [c ->]].
  apply Forall_app in Hl. destruct Hl as [_ Hc]. inversion Hc; subst.
  destruct l0 as [|c0 l0].
  - cbn [app join_sep String.concat]. now apply endswith_sep_field.
  - rewrite join_sep_app by discriminate. cbn [tail_str].
    rewrite append_nil_r, <- !append_assoc.
    now apply endswith_sep_field.
Qed.

Lemma nonempty_slashes n s : n <> 0 -> nonempty (slashes n +++ s) = true.
Proof. now destruct n as [|[|n]]. Qed.

(** *** [dirname] *)

Lemma upto_last_sep_no_sep c : no_sep c = true -> upto_last_sep c = "".
Proof.
  induction c as [|x c IH]; [reflexivity|]. simpl.
  intros H. apply andb_prop in H. destruct H as [Hx Hc].
  rewrite (IH Hc). apply negb_true_iff in Hx. now rewrite Hx.
Qed.

Lemma upto_last_sep_snoc a c :
  no_sep c = true ->
  upto_last_sep (a +++ String sep_char c) = a +++ String sep_char "".
Proof.
  intros Hc. induction a as [|x a IH].
  - cbn [String.append upto_last_sep].
    now rewrite (upto_last_sep_no_sep _ Hc).
  - cbn [String.append upto_last_sep]. rewrite IH.
    now destruct a.
Qed.

Lemma rstrip_sep_snoc a :
  nonempty a = true -> endswith_sep a = false ->
  rstrip_sep (a +++ String sep_char "") = a.
Proof.
  induction a as [|x a IH]; [discriminate|]. intros _ He.
  cbn [String.append rstrip_sep].
  destruct a as [|y a].
  - cbn [String.append rstrip_sep]. simpl in He. unfold is_sep at 1.
    rewrite Ascii.eqb_refl. now rewrite He.
  - rewrite IH; [reflexivity|reflexivity|exact He].
Qed.

Lemma all_sep_snoc a :
  nonempty a = true -> endswith_sep a = false ->
  all_sep (a +++ String sep_char "") = false.
Proof.
  induction a as [|x a IH]; [discriminate|]. intros _ He.
  cbn [String.append all_sep].
  destruct a as [|y a].
  - simpl in He. now rewrite He.
  - rewrite IH; [apply andb_false_r|reflexivity|exact He].
Qed.

Lemma dirname_snoc a c :
  nonempty a = true -> endswith_sep a = false -> no_sep c = true ->
  dirname (a +++ "/" +++ c) = a.
Proof.
  intros Ha He Hc. unfold dirname.
  change (a +++ "/" +++ c) with (a +++ String sep_char c).
  rewrite (upto_last_sep_snoc a c Hc), (all_sep_snoc a Ha He).
  rewrite (nonempty_app_r a (String sep_char "") eq_refl). cbn [negb andb].
  now apply rstrip_sep_snoc.
Qed.

(** *** Names without a backslash pass the four tests *)

Lemma replace_no_backslash b s :
  no_backslash s = true -> replace_char backslash b s = s.
Proof.
  induction s as [|x s IH]; [reflexivity|]. simpl.
  intros H. apply andb_prop in H. destruct H as [Hx Hs].
  apply negb_true_iff in Hx. now rewrite Hx, (IH Hs).
Qed.

Lemma no_backslash_app a b :
  no_backslash (a +++ b) = no_backslash a && no_backslash b.
Proof.
  induction a as [|x a IH]; [reflexivity|]. simpl.
  now rewrite IH, andb_assoc.
Qed.

Lemma no_backslash_tail_str l :
  Forall (fun c => no_backslash c = true) l -> no_backslash (tail_str l) = true.
Proof.
  intros H. induction H as [|c l Hc Hl IH]; [reflexivity|].
  cbn [tail_str]. change ("/" +++ c +++ tail_str l)
    with (String "/" (c +++ tail_str l)).
  cbn [no_backslash]. rewrite no_backslash_app, Hc, IH. reflexivity.
Qed.

Lemma no_backslash_join_sep l :
  Forall (fun c => no_backslash c = true) l -> no_backslash (join_sep l) = true.
Proof.
  intros H. destruct H as [|c l Hc Hl]; [reflexivity|].
  now rewrite join_sep_cons, no_backslash_app, Hc, no_backslash_tail_str.
Qed.

Lemma contains_split sub s :
  contains sub s = true -> exists a b, s = a +++ sub +++ b.
Proof.
  induction s as [|x s IH]; intros H; cbn [contains] in H.
  - rewrite orb_false_r in H. apply prefix_split in H.
    destruct H as [r Hr]. now exists "", r.
  - apply orb_prop in H. destruct H as [H|H].
    + apply prefix_split in H. destruct H as [r Hr]. now exists "", r.
    + destruct (IH H) as [a [b ->]]. now exists (String x a), b.
Qed.

Lemma split_sep_dotdot_mid a b :
  In ".." (split_sep (a +++ "/../" +++ b)).
Proof.
  change (a +++ "/../" +++ b)
    with (a +++ String sep_char (".." +++ String sep_char b)).
  rewrite split_sep_app. apply in_or_app. right.
  rewrite split_sep_app. apply in_or_app. left. now left.
Qed.

Lemma fields_no_dotdot l : Forall field l -> ~ In ".." l.
Proof.
  intros H Hin. rewrite Forall_forall in H.
  destruct (H _ Hin) as [Hp _]. discriminate.
Qed.

Lemma names_pass_tests l :
  l <> [] -> Forall field l ->
  startswith (join_sep l) "/" = false
  /\ startswith (join_sep l) "../" = false
  /\ contains "/../" (join_sep l) = false
  /\ String.eqb (join_sep l) ".." = false.
Proof.
  intros Hne Hl.
  assert (Hs : split_sep (join_sep l) = l)
    by (apply split_join_sep; [exact Hne|now apply fields_no_sep]).
  pose proof (fields_no_dotdot l Hl) as Hdd.
  destruct l as [|c l]; [contradiction|].
  split; [|split; [|split]].
  - apply (join_sep_rel c l). now inversion Hl.
  - destruct (startswith (join_sep (c :: l)) "../") eqn:E; [|reflexivity].
    exfalso. apply prefix_split in E. destruct E as [r Hr].
    apply Hdd. rewrite <- Hs, Hr.
    change ("../" +++ r) with (".." +++ String sep_char r).
    rewrite split_sep_app. now left.
  - destruct (contains "/../" (join_sep (c :: l))) eqn:E; [|reflexivity].
    exfalso. apply contains_split in E. destruct E as [a [b Hab]].
    apply Hdd. rewrite <- Hs, Hab. apply split_sep_dotdot_mid.
  - destruct (String.eqb_spec (join_sep (c :: l)) ".."); [|reflexivity].
    exfalso. apply Hdd. rewrite <- Hs, e. now left.
Qed.

Section WithCwd.
Variable cwd : list string.

(** The string [abspath] returns. *)
Lemma abspath_form p :
  exists n, (n = 1 \/ n = 2)
            /\ abspath cwd p = slashes n +++ join_sep (abs_components cwd p).
Proof.
  destruct (normpath_abs_form (absolutize cwd p) (@isabs_absolutize cwd p))
    as [Hn He].
  exists (initial_slashes (absolutize cwd p)). split; [exact Hn|].
  unfold abspath at 1. rewrite He. f_equal. f_equal.
  rewrite resolve_spec. unfold norm_comps, fcomps. apply norm_skip_empty.
Qed.

(** The node a normal absolute path names. *)
Lemma resolve_normal n l :
  n <> 0 -> Forall field l ->
  abs_components cwd (slashes n +++ join_sep l) = l.
Proof.
  intros Hn Hl. rewrite resolve_spec. unfold absolutize.
  rewrite (@isabs_slashes n _ Hn), fcomps_slashes, fcomps_join_sep by exact Hl.
  now apply norm_fields.
Qed.

(** Below a target that is not the root, the destination of a member
    named by names. *)
Lemma destination_of_names t q :
  abs_components cwd t <> [] -> q <> [] -> Forall field q ->
  let dest := abspath cwd (join (abspath cwd t) (join_sep q)) in
  dest = abspath cwd t +++ "/" +++ join_sep q
  /\ abs_components cwd dest = abs_components cwd t ++ q
  /\ abs_components cwd (dirname dest) = abs_components cwd t ++ removelast q.
Proof.
  intros Ht Hq Hf dest.
  destruct (abspath_form t) as [n [Hn Ha]].
  assert (H0 : n <> 0) by (destruct Hn; subst; discriminate).
  pose proof (@resolve_fields cwd t) as Htf.
  set (tc := abs_components cwd t) in *.
  assert (Hall : Forall field (tc ++ q)) by (apply Forall_app; now split).
  assert (Hrel : isabs (join_sep q) = false).
  { destruct q as [|c l]; [contradiction|].
    apply (join_sep_rel c l). now inversion Hf. }
  assert (Hj : join (abspath cwd t) (join_sep q)
               = slashes n +++ join_sep (tc ++ q)).
  { rewrite join_rel; [| | |exact Hrel].
    - rewrite Ha, join_sep_app by exact Ht.
      destruct q as [|c l]; [contradiction|].
      now rewrite tail_str_join, !append_assoc.
    - rewrite Ha. now apply nonempty_slashes.
    - rewrite Ha. now apply endswith_sep_normal. }
  assert (Hd : dest = slashes n +++ join_sep (tc ++ q)).
  { unfold dest, abspath at 1, absolutize. rewrite Hj.
    rewrite (@isabs_slashes n _ H0).
    apply normpath_normal; auto. now destruct tc. }
  split; [|split].
  - rewrite Hd, Ha, join_sep_app by exact Ht.
    destruct q as [|c l]; [contradiction|].
    now rewrite tail_str_join, !append_assoc.
  - rewrite Hd. now apply resolve_normal.
  - destruct (exists_last Hq) as [q0 [c ->]].
    rewrite removelast_last.
    assert (Hall0 : Forall field (tc ++ q0)).
    { apply Forall_app in Hf. apply Forall_app. tauto. }
    assert (Hc : field c).
    { apply Forall_app in Hf. destruct Hf as [_ Hc]. now inversion Hc. }
    assert (Hd' : dest = (slashes n +++ join_sep (tc ++ q0)) +++ "/" +++ c).
    { rewrite Hd, app_assoc, join_sep_app by now destruct tc.
      cbn [tail_str]. now rewrite append_nil_r, !append_assoc. }
    rewrite Hd', dirname_snoc.
    + now apply resolve_normal.
    + now apply nonempty_slashes.
    + apply endswith_sep_normal; [now destruct tc|exact Hall0].
    + now apply field_no_sep.
Qed.

End WithCwd.
End NormalPaths.

(* ------------------------------------------------------------------ *)
(** ** [encode_token_store_dir_as_zip_b64] *)

Module Encode.
Import PyStr PosixPath FileSys Lib TokenStore FileSysFacts PathFacts CallFacts.
Import Spec.

(** Induction on a tree, with the property at hand for every entry of a
    directory. *)
Section NodeInduction.
Variable P : node -> Prop.
Hypothesis P_file : forall d, P (File d).
Hypothesis P_dir :
  forall es, Forall (fun kv => P (snd kv)) es -> P (Dir es).

Fixpoint node_induction (n : node) : P n :=
  match n with
  | File d => P_file d
  | Dir es =>
      P_dir es
        ((fix all (l : entries_t) : Forall (fun kv => P (snd kv)) l :=
            match l with
            | [] => Forall_nil _
            | (k, v) :: l' =>
                @Forall_cons _ (fun kv => P (snd kv)) (k, v) l'
                             (node_induction v) (all l')
            end) es)
  end.
End NodeInduction.

Lemma collect_pure {X Y} (xs : list X) (f : X -> M (list Y)) fs :
  (forall x, In x xs -> f x fs = (fs, Return [])) ->
  collect xs f fs = (fs, Return []).
Proof.
  induction xs as [|x xs IH]; intros H; simpl; [reflexivity|].
  unfold bind. rewrite (H x (or_introl eq_refl)).
  rewrite IH by (intros y Hy; apply H; now right). reflexivity.
Qed.

Section WithRuntime.
Variable rt : Runtime.

Lemma walk_no_files n :
  has_file n = false ->
  forall top t, In t (walk_node top n) -> snd t = [].
Proof.
  induction n as [d|es IH] using node_induction; [discriminate|].
  intros Hf top t. simpl. intros [<-|Hin].
  - simpl. unfold file_names. clear IH.
    induction es as [|[k v] es IHes]; [reflexivity|].
    simpl in Hf. apply orb_false_elim in Hf. destruct Hf as [Hv Hes].
    simpl. destruct v as [d|es']; [discriminate|]. simpl. now apply IHes.
  - revert Hin. induction IH as [|[k v] es Hv Hes IHes];
      [contradiction|].
    simpl in Hf. apply orb_false_elim in Hf. destruct Hf as [Hfv Hfes].
    intros Hin. apply in_app_or in Hin. destruct Hin as [Hin|Hin].
    + destruct v as [d|es']; [contradiction|].
      exact (Hv Hfv _ _ Hin).
    + now apply IHes.
Qed.

(** Without a regular file below [directory], nothing is written to the
    archive. *)
Lemma archive_members_empty directory fs n :
  stat (cwd rt) directory fs = Some n ->
  has_file n = false ->
  archive_members rt directory fs = (fs, Return []).
Proof.
  intros Hs Hf. unfold archive_members, bind, get_fs, walk. rewrite Hs.
  apply collect_pure. intros [[root dirs] files] Hin.
  pose proof (walk_no_files n Hf _ _ Hin) as Hnil. simpl in Hnil.
  subst files. reflexivity.
Qed.

(** *** The archive of a well-formed tree *)

Lemma assoc_in_nodup (es : entries_t) k v :
  NoDup (map fst es) -> In (k, v) es -> assoc k es = Some v.
Proof.
  induction es as [|[k' v'] es IH]; simpl; [contradiction|].
  intros Hnd [Heq|Hin].
  - inversion Heq; subst. now rewrite String.eqb_refl.
  - inversion Hnd as [|? ? Hni Hnd']; subst.
    destruct (String.eqb_spec k' k) as [->|Hne].
    + exfalso. apply Hni. now apply (in_map fst) in Hin.
    + now apply IH.
Qed.

Lemma in_file_names f (es : entries_t) :
  In f (file_names es) <-> exists d, In (f, File d) es.
Proof.
  unfold file_names. rewrite in_map_iff. split.
  - intros [[k v] [Hk Hin]]. simpl in Hk. subst k.
    apply filter_In in Hin. destruct Hin as [Hin Hd].
    destruct v as [d|es']; [eauto|discriminate].
  - intros [d Hin]. exists (f, File d). split; [reflexivity|].
    apply filter_In. now split.
Qed.

Lemma collect_app_pure {X Y} (xs ys : list X) (f : X -> M (list Y)) fs a b :
  (forall x s, fst (f x s) = s) ->
  collect xs f fs = (fs, Return a) ->
  collect ys f fs = (fs, Return b) ->
  collect (xs ++ ys) f fs = (fs, Return (a ++ b)).
Proof.
  intros Hpure. revert a.
  induction xs as [|x xs IH]; intros a Ha Hb; simpl in *.
  - inversion Ha; subst. exact Hb.
  - unfold bind in *. specialize (Hpure x fs).
    destruct (f x fs) as [fs1 [y|e]]; [|discriminate].
    simpl in Hpure. subst fs1.
    destruct (collect xs f fs) as [fs2 [z|e]] eqn:Hc; [|discriminate].
    unfold ret in Ha. inversion Ha; subst.
    rewrite (IH z eq_refl Hb). unfold ret. now rewrite app_assoc.
Qed.

Lemma collect_reads {X Y} (xs : list X) (f : X -> M (list Y)) :
  (forall x s, fst (f x s) = s) -> forall s, fst (collect xs f s) = s.
Proof.
  intros Hpure. induction xs as [|x xs IH]; intros s; simpl; [reflexivity|].
  unfold bind. specialize (Hpure x s).
  destruct (f x s) as [s1 [y|e]]; simpl in Hpure; subst s1; [|reflexivity].
  specialize (IH s). destruct (collect xs f s) as [s2 [z|e]];
    simpl in IH; subst s2; reflexivity.
Qed.

Lemma archive_write_reads directory root filename s :
  fst (archive_write rt directory root filename s) = s.
Proof.
  unfold archive_write, bind, read_file.
  destruct (stat _ _ s) as [[d|es]|]; reflexivity.
Qed.

Lemma level_reads directory (t : string * list string * list string) s :
  fst ((fun '(root, _dirs, files) =>
          collect (sorted files)
                  (fun filename =>
                     bind (archive_write rt directory root filename)
                          (fun m => ret [m]))) t s) = s.
Proof.
  destruct t as [[root dirs] files]. apply collect_reads.
  intros f s'. unfold bind.
  pose proof (archive_write_reads directory root f s') as H.
  destruct (archive_write rt directory root f s') as [s1 [m|e]];
    simpl in H; subst; reflexivity.
Qed.

Lemma collect_map_pure {X Y} (xs : list X) (f : X -> M (list Y)) fs
      (g : X -> Y) :
  (forall x, In x xs -> f x fs = (fs, Return [g x])) ->
  collect xs f fs = (fs, Return (map g xs)).
Proof.
  induction xs as [|x xs IH]; intros H; simpl; [reflexivity|].
  unfold bind. rewrite (H x (or_introl eq_refl)).
  rewrite IH by (intros y Hy; apply H; now right). reflexivity.
Qed.

Lemma zip_arcname_names l :
  l <> [] -> Forall field l -> zip_arcname (join_sep l) = join_sep l.
Proof.
  destruct l as [|c l]; [contradiction|]. intros _ H.
  unfold zip_arcname. rewrite PathStrings.normpath_names by exact H.
  apply PathStrings.lstrip_sep_names. now inversion H.
Qed.

Lemma sorted_in f l : In f (sorted l) -> In f l.
Proof.
  intros H. eapply Permutation_in; [|exact H].
  apply Permutation_sym, StringSort.Permuted_sort.
Qed.

(** One file of a directory of the tree becomes one member. *)
Lemma archive_write_spec directory top ds es f fs :
  resolve (cwd rt) top = resolve (cwd rt) directory ++ ds ->
  Forall field ds ->
  tree_get (resolve (cwd rt) directory ++ ds) fs = Some (Dir es) ->
  wf_node (Dir es) ->
  In f (file_names es) ->
  archive_write rt directory top f fs
  = (fs, Return (mkMember (join_sep (ds ++ [f])) (file_data f es))).
Proof.
  intros Ht Hds Hg Hwf Hf.
  inversion Hwf as [|? Hnd Hall]; subst.
  apply in_file_names in Hf. destruct Hf as [d Hin].
  assert (Hv : valid_name f = true).
  { rewrite Forall_forall in Hall. now destruct (Hall _ Hin). }
  assert (Ha : assoc f es = Some (File d)) by now apply assoc_in_nodup.
  assert (Hr : resolve (cwd rt) (join top f)
               = resolve (cwd rt) directory ++ (ds ++ [f])).
  { unfold resolve in *. rewrite resolve_join_name by exact Hv.
    now rewrite Ht, app_assoc. }
  assert (Hfs : Forall field (ds ++ [f])).
  { apply Forall_app. split; [exact Hds|]. constructor; [|constructor].
    now apply field_valid. }
  unfold archive_write, bind, read_file, stat. rewrite Hr.
  rewrite app_assoc, tree_get_app, Hg. simpl. rewrite Ha. unfold ret.
  rewrite (PathStrings.relpath_below (cwd rt) _ _ (ds ++ [f]) Hr);
    [|now destruct ds|exact Hfs].
  rewrite zip_arcname_names; [|now destruct ds|exact Hfs].
  unfold file_data. now rewrite Ha.
Qed.

Lemma walk_node_dir top es :
  walk_node top (Dir es)
  = (top, dir_names es, file_names es)
      :: flat_map (fun kv => if is_dir (snd kv)
                             then walk_node (join top (fst kv)) (snd kv)
                             else []) es.
Proof.
  cbn [walk_node]. f_equal.
  induction es as [|[k v] es IH]; [reflexivity|].
  cbn [flat_map fst snd]. now rewrite <- IH.
Qed.

Lemma tree_members_dir ds es :
  tree_members ds (Dir es)
  = map (fun f => mkMember (join_sep (ds ++ [f])) (file_data f es))
        (sorted (file_names es))
    ++ flat_map (fun kv => if is_dir (snd kv)
                           then tree_members (ds ++ [fst kv]) (snd kv)
                           else []) es.
Proof.
  cbn [tree_members]. f_equal.
  induction es as [|[k v] es IH]; [reflexivity|].
  cbn [flat_map fst snd]. now rewrite <- IH.
Qed.

Lemma collect_flat_map_pure {X Y Z} (l : list Z) (w : Z -> list X)
      (t : Z -> list Y) (f : X -> M (list Y)) fs :
  (forall x s, fst (f x s) = s) ->
  (forall z, In z l -> collect (w z) f fs = (fs, Return (t z))) ->
  collect (flat_map w l) f fs = (fs, Return (flat_map t l)).
Proof.
  intros Hpure. induction l as [|z l IH]; intros H; [reflexivity|].
  cbn [flat_map]. apply collect_app_pure; [exact Hpure| |].
  - apply H. now left.
  - apply IH. intros z' Hz'. apply H. now right.
Qed.

Lemma archive_members_of_node directory fs n :
  wf_node n ->
  forall top ds,
    resolve (cwd rt) top = resolve (cwd rt) directory ++ ds ->
    Forall field ds ->
    tree_get (resolve (cwd rt) directory ++ ds) fs = Some n ->
    collect (walk_node top n)
            (fun '(root, _dirs, files) =>
               collect (sorted files)
                       (fun filename =>
                          bind (archive_write rt directory root filename)
                               (fun m => ret [m]))) fs
    = (fs, Return (tree_members ds n)).
Proof.
  induction n as [d|es IH] using node_induction;
    intros Hwf top ds Ht Hds Hg; [reflexivity|].
  rewrite walk_node_dir, tree_members_dir.
  change (collect (?x :: ?l) ?F fs) with (collect ([x] ++ l) F fs).
  apply collect_app_pure; [apply level_reads| |].
  - cbn [collect]. unfold bind at 1.
    rewrite (collect_map_pure _ _ fs
               (fun f => mkMember (join_sep (ds ++ [f])) (file_data f es))).
    + unfold bind, ret. now rewrite app_nil_r.
    + intros f Hf. unfold bind.
      rewrite (archive_write_spec directory top ds es f fs Ht Hds Hg Hwf
                 (sorted_in _ _ Hf)).
      reflexivity.
  - inversion Hwf as [|? Hnd Hall]; subst.
    apply collect_flat_map_pure; [apply level_reads|].
    intros [k child] Hin. cbn [fst snd].
    destruct child as [d|es']; [reflexivity|]. cbn [is_dir].
    rewrite Forall_forall in IH, Hall.
    destruct (Hall _ Hin) as [Hv Hwc]. simpl in Hv, Hwc.
    apply (IH _ Hin Hwc).
    + unfold resolve in *. rewrite resolve_join_name by exact Hv.
      now rewrite Ht, app_assoc.
    + apply Forall_app. split; [exact Hds|]. constructor; [|constructor].
      now apply field_valid.
    + rewrite app_assoc, tree_get_app, Hg. simpl.
      now rewrite (assoc_in_nodup es k (Dir es') Hnd Hin).
Qed.

(** The archive of a well-formed directory is that of its tree. *)
Lemma archive_members_spec directory fs src :
  stat (cwd rt) directory fs = Some src ->
  wf_node src ->
  archive_members rt directory fs = (fs, Return (tree_members [] src)).
Proof.
  intros Hs Hwf. unfold archive_members, bind, get_fs, walk. rewrite Hs.
  apply (archive_members_of_node directory fs src Hwf directory []).
  - now rewrite app_nil_r.
  - constructor.
  - now rewrite app_nil_r.
Qed.

End WithRuntime.

(** C4, on the code.  For a directory with no regular file in it the
    archive has no member; since closing a [ZipFile] writes the
    end-of-central-directory record all the same, the buffer is not empty,
    the test [if not data] does not fire, and the function returns the
    base64 text of the empty archive instead of raising
    [EmptyArchiveError]. *)
Theorem encode_of_empty_directory_returns rt directory fs n :
  stat (cwd rt) directory fs = Some n ->
  has_file n = false ->
  zip_write rt [] <> [] ->
  encode_token_store_dir_as_zip_b64 rt directory fs
  = (fs, Return (b64encode rt (zip_write rt []))).
Proof.
  intros Hs Hf Hz. unfold encode_token_store_dir_as_zip_b64, bind.
  rewrite (archive_members_empty rt directory fs n Hs Hf).
  destruct (zip_write rt []); [contradiction|reflexivity].
Qed.

Lemma encode_of_empty_directory_returns_witness :
  encode_token_store_dir_as_zip_b64 Inputs.rt0 "/dst" Inputs.fs_dst
  = (Inputs.fs_dst, Return "UEsFBgAAAAAAAAAAAAAAAAAAAAAAAA==").
Proof.
  apply (encode_of_empty_directory_returns Inputs.rt0 "/dst" Inputs.fs_dst
           (Dir [])); [reflexivity|reflexivity|discriminate].
Defined.

End Encode.

(* ------------------------------------------------------------------ *)
(** ** The order of the members *)

Module Order.
Import PyStr PosixPath FileSys Lib TokenStore FileSysFacts PathFacts CallFacts.
Import Spec MoreSpec Encode.

Lemma ascii_compare_refl a : Ascii.compare a a = Eq.
Proof. unfold Ascii.compare. apply N.compare_refl. Qed.

Lemma leb_refl s : String.leb s s = true.
Proof.
  unfold String.leb. induction s as [|a s IH]; [reflexivity|].
  simpl. now rewrite ascii_compare_refl.
Qed.

Lemma compare_not_gt_trans a b c :
  String.compare a b <> Gt -> String.compare b c <> Gt ->
  String.compare a c <> Gt.
Proof.
  revert b c. induction a as [|x a IH]; intros [|y b] [|z c]; simpl; try easy.
  unfold Ascii.compare.
  destruct (N.compare_spec (N_of_ascii x) (N_of_ascii y)) as [E1|E1|E1];
    destruct (N.compare_spec (N_of_ascii y) (N_of_ascii z)) as [E2|E2|E2];
    try easy; intros H1 H2.
  - rewrite E1, E2, N.compare_refl. eauto.
  - rewrite E1. apply N.compare_lt_iff in E2. now rewrite E2.
  - rewrite <- E2. apply N.compare_lt_iff in E1. now rewrite E1.
  - assert (E : (N_of_ascii x < N_of_ascii z)%N) by lia.
    apply N.compare_lt_iff in E. now rewrite E.
Qed.

Lemma leb_trans a b c :
  String.leb a b = true -> String.leb b c = true -> String.leb a c = true.
Proof.
  unfold String.leb. intros H1 H2.
  pose proof (compare_not_gt_trans a b c) as H.
  destruct (String.compare a b); destruct (String.compare b c);
    destruct (String.compare a c); try reflexivity; try discriminate;
    exfalso; apply H; try discriminate; reflexivity.
Qed.

Lemma sorted_strongly l : StronglySorted leb_true (sorted l).
Proof.
  apply StringSort.StronglySorted_sort.
  intros a b c. apply leb_trans.
Qed.

(** A list has one sorted arrangement. *)
Lemma strongly_sorted_unique l l' :
  StronglySorted leb_true l -> StronglySorted leb_true l' ->
  Permutation l l' -> l = l'.
Proof.
  intros Hl. revert l'. induction Hl as [|x l Hs IH Hx]; intros l' Hl' Hp.
  - now apply Permutation_nil in Hp.
  - destruct Hl' as [|y l' Hs' Hy].
    + apply Permutation_sym, Permutation_nil in Hp. discriminate.
    + assert (Hxy : x = y).
      { assert (H1 : In x (y :: l'))
          by (eapply Permutation_in; [exact Hp|now left]).
        assert (H2 : In y (x :: l))
          by (eapply Permutation_in;
              [apply Permutation_sym; exact Hp|now left]).
        destruct H1 as [H1|H1]; [now subst|].
        destruct H2 as [H2|H2]; [now subst|].
        rewrite Forall_forall in Hx, Hy.
        apply String.leb_antisym; [now apply Hx|now apply Hy]. }
      subst y. f_equal. apply IH; [exact Hs'|].
      now apply Permutation_cons_inv in Hp.
Qed.

(** [sorted] does not see the order of its argument. *)
Lemma sorted_permutation l l' : Permutation l l' -> sorted l = sorted l'.
Proof.
  intros Hp. apply strongly_sorted_unique; try apply sorted_strongly.
  eapply Permutation_trans;
    [apply Permutation_sym, StringSort.Permuted_sort|].
  eapply Permutation_trans; [exact Hp|apply StringSort.Permuted_sort].
Qed.

Lemma file_entries_in k v es :
  In (k, v) (file_entries es) <-> In (k, v) es /\ is_dir v = false.
Proof.
  unfold file_entries. rewrite filter_In. simpl.
  now rewrite negb_true_iff.
Qed.

Lemma file_data_permutation es es' f :
  NoDup (map fst es) -> NoDup (map fst es') ->
  Permutation (file_entries es) (file_entries es') ->
  In f (file_names es) ->
  file_data f es = file_data f es'.
Proof.
  intros Hnd Hnd' Hp Hf.
  apply in_file_names in Hf. destruct Hf as [d Hin].
  assert (Hin' : In (f, File d) es').
  { apply (file_entries_in f (File d) es').
    eapply Permutation_in; [exact Hp|].
    now apply file_entries_in. }
  unfold file_data.
  now rewrite (assoc_in_nodup es f (File d) Hnd Hin),
    (assoc_in_nodup es' f (File d) Hnd' Hin').
Qed.

Lemma flat_map_dirs {Y} (g : string * node -> list Y) es :
  flat_map (fun kv => if is_dir (snd kv) then g kv else []) es
  = flat_map g (dir_entries es).
Proof.
  induction es as [|[k v] es IH]; [reflexivity|].
  cbn [flat_map dir_entries filter snd]. fold (dir_entries es).
  destruct (is_dir v); cbn [flat_map app]; now rewrite IH.
Qed.

Lemma flat_map_Forall2 {X X' Y} (R : X -> X' -> Prop)
      (g : X -> list Y) (g' : X' -> list Y) l l' :
  Forall2 R l l' ->
  (forall a b, In a l -> In b l' -> R a b -> g a = g' b) ->
  flat_map g l = flat_map g' l'.
Proof.
  intros H. induction H as [|a b l l' Hab Hl IH]; intros Hg; [reflexivity|].
  cbn [flat_map].
  rewrite (Hg a b (or_introl eq_refl) (or_introl eq_refl) Hab), IH;
    [reflexivity|].
  intros a' b' Ha' Hb'. apply Hg; now right.
Qed.

(** The archive of a tree does not see the order in which the files of a
    directory are listed. *)
Lemma tree_members_file_order n :
  forall n' ds,
    wf_node n -> wf_node n' -> same_but_file_order n n' ->
    tree_members ds n = tree_members ds n'.
Proof.
  induction n as [d|es IH] using node_induction;
    intros n' ds Hwf Hwf' Hs; inversion Hs as [|? es' Hp Hd]; subst;
    [reflexivity|].
  inversion Hwf as [|? Hnd Hall]; subst.
  inversion Hwf' as [|? Hnd' Hall']; subst.
  rewrite !tree_members_dir, !flat_map_dirs. f_equal.
  - assert (Hn : Permutation (file_names es) (file_names es'))
      by (apply (Permutation_map fst); exact Hp).
    rewrite <- (sorted_permutation _ _ Hn).
    apply map_ext_in. intros f Hf. f_equal.
    apply file_data_permutation; auto. now apply sorted_in.
  - apply (flat_map_Forall2 _ _ _ _ _ Hd).
    intros [k v] [k' v'] Hin Hin' [Hk Hv]. simpl in Hk, Hv. subst k'.
    cbn [fst snd].
    assert (Hin1 : In (k, v) es)
      by (unfold dir_entries in Hin; now apply filter_In in Hin).
    assert (Hin2 : In (k, v') es')
      by (unfold dir_entries in Hin'; now apply filter_In in Hin').
    rewrite Forall_forall in IH, Hall, Hall'.
    apply (IH _ Hin1); [now destruct (Hall _ Hin1)| |exact Hv].
    now destruct (Hall' _ Hin2).
Qed.

Lemma encode_of_members rt directory fs src :
  stat (cwd rt) directory fs = Some src -> wf_node src ->
  encode_token_store_dir_as_zip_b64 rt directory fs
  = match zip_write rt (tree_members [] src) with
    | [] => (fs, Raise EmptyArchiveError)
    | _ :: _ =>
        (fs, Return (b64encode rt (zip_write rt (tree_members [] src))))
    end.
Proof.
  intros Hs Hwf. unfold encode_token_store_dir_as_zip_b64, bind.
  rewrite (archive_members_spec rt directory fs src Hs Hwf).
  now destruct (zip_write rt (tree_members [] src)).
Qed.

(** C6, as the claim states it, fails: the same directory content with
    two subdirectories listed in the other order gives another archive and
    another base64 text. *)
Lemma encode_depends_on_subdirectory_order :
  same_content Inputs.fs_ab Inputs.fs_ba
  /\ archive_of Inputs.rt0 "/d" Inputs.fs_ab
     = [mkMember "a/x" (Demo.text "1"); mkMember "b/y" (Demo.text "2")]
  /\ archive_of Inputs.rt0 "/d" Inputs.fs_ba
     = [mkMember "b/y" (Demo.text "2"); mkMember "a/x" (Demo.text "1")]
  /\ snd (encode_token_store_dir_as_zip_b64 Inputs.rt0 "/d" Inputs.fs_ab)
     <> snd (encode_token_store_dir_as_zip_b64 Inputs.rt0 "/d" Inputs.fs_ba).
Proof.
  split; [|split; [|split]].
  - apply same_dir with (l := [("d", Dir [("a", Dir [("x", File (Demo.text "1"))]);
                                         ("b", Dir [("y", File (Demo.text "2"))])])]);
      [apply Permutation_refl|].
    constructor; [|constructor]. split; [reflexivity|]. cbn [snd].
    apply same_dir with (l := [("b", Dir [("y", File (Demo.text "2"))]);
                               ("a", Dir [("x", File (Demo.text "1"))])]);
      [apply perm_swap|].
    repeat constructor;
      (eapply same_dir; [apply Permutation_refl|]; repeat constructor).
  - vm_compute. reflexivity.
  - vm_compute. reflexivity.
  - vm_compute. discriminate.
Qed.

(** C6, amended.  The entries of the archive of a directory, given by a
    plain path, are the files of each directory level in sorted order of
    their names, level after level from the top with the subdirectories in
    the order they are listed; so two directory trees that differ only in
    the order in which the files of each directory are listed give the same
    entries, with the same names and the same contents, in the same
    order. *)
Theorem encode_ignores_file_order rt directory fs fs' src src' :
  plain directory = true ->
  stat (cwd rt) directory fs = Some src ->
  stat (cwd rt) directory fs' = Some src' ->
  wf_node src -> wf_node src' ->
  same_but_file_order src src' ->
  archive_members rt directory fs = (fs, Return (tree_members [] src))
  /\ archive_of rt directory fs = tree_members [] src
  /\ archive_of rt directory fs' = archive_of rt directory fs
  /\ (forall files,
         StronglySorted leb_true (sorted files)
         /\ Permutation files (sorted files)).
Proof.
  intros _ Hs Hs' Hwf Hwf' Hsame.
  pose proof (tree_members_file_order src src' [] Hwf Hwf' Hsame) as Hm.
  unfold archive_of.
  rewrite (archive_members_spec rt directory fs src Hs Hwf),
    (archive_members_spec rt directory fs' src' Hs' Hwf').
  cbn [snd]. rewrite <- Hm.
  repeat split.
  - apply sorted_strongly.
  - apply StringSort.Permuted_sort.
Qed.

Lemma encode_ignores_file_order_witness :
  let fs := Dir [("s", Dir [("oauth2_token.json", File (Demo.text "2"));
                            ("oauth1_token.json", File (Demo.text "1"))])] in
  let fs' := Dir [("s", Dir [("oauth1_token.json", File (Demo.text "1"));
                             ("oauth2_token.json", File (Demo.text "2"))])] in
  archive_of Inputs.rt0 "/s" fs' = archive_of Inputs.rt0 "/s" fs
  /\ archive_of Inputs.rt0 "/s" fs
     = [mkMember "oauth1_token.json" (Demo.text "1");
        mkMember "oauth2_token.json" (Demo.text "2")].
Proof.
  intros fs fs'.
  assert (W : forall es, NoDup (map fst es) ->
                         Forall (fun kv => valid_name (fst kv) = true
                                           /\ wf_node (snd kv)) es ->
                         wf_node (Dir es)) by (intros; now constructor).
  assert (Hw : wf_node (Dir [("oauth2_token.json", File (Demo.text "2"));
                             ("oauth1_token.json", File (Demo.text "1"))])).
  { apply W.
    - repeat constructor; simpl; intuition discriminate.
    - repeat constructor. }
  assert (Hw' : wf_node (Dir [("oauth1_token.json", File (Demo.text "1"));
                              ("oauth2_token.json", File (Demo.text "2"))])).
  { apply W.
    - repeat constructor; simpl; intuition discriminate.
    - repeat constructor. }
  destruct (encode_ignores_file_order Inputs.rt0 "/s" fs fs' _ _
              eq_refl eq_refl eq_refl Hw Hw') as [_ [H1 [H2 _]]].
  - constructor; [apply perm_swap|constructor].
  - split; [exact H2|]. rewrite H1. vm_compute. reflexivity.
Defined.

End Order.

(* ------------------------------------------------------------------ *)
(** ** The round trip *)

Module RoundTrip.
Import PyStr PosixPath FileSys Lib TokenStore FileSysFacts PathFacts CallFacts.
Import Spec MoreSpec Encode PathStrings NormalPaths.

(** *** More about the tree *)

Lemma get_below_dir p r n x :
  tree_get (p ++ r) n = Some x -> r <> [] -> dir_at p n = true.
Proof.
  rewrite tree_get_app. unfold dir_at.
  destruct (tree_get p n) as [[d|es]|]; try discriminate; [|reflexivity].
  destruct r; [contradiction|discriminate].
Qed.

Lemma dir_at_prefix p r n : dir_at (p ++ r) n = true -> dir_at p n = true.
Proof.
  destruct r as [|c r]; [now rewrite app_nil_r|].
  unfold dir_at at 1. intros H.
  destruct (tree_get (p ++ c :: r) n) as [x|] eqn:Hg; [|discriminate].
  eapply get_below_dir; [exact Hg|discriminate].
Qed.

Lemma dir_not_file p n : dir_at p n = true -> file_at p n = None.
Proof.
  unfold dir_at, file_at. now destruct (tree_get p n) as [[d|es]|].
Qed.

Lemma file_above_is_dir p r n d :
  file_at (p ++ r) n = Some d -> r <> [] -> dir_at p n = true.
Proof.
  unfold file_at. intros H Hr.
  destruct (tree_get (p ++ r) n) as [x|] eqn:Hg; [|discriminate].
  eapply get_below_dir; eauto.
Qed.

(** [os.makedirs] succeeds when no regular file is on the way. *)
Lemma tree_mkdirs_ok p n :
  is_dir n = true ->
  (forall p1 p2, p = p1 ++ p2 -> file_at p1 n = None) ->
  exists n', tree_mkdirs p n = Ok n'.
Proof.
  revert n. induction p as [|c p IH]; intros n Hd H.
  - destruct n; [discriminate|]. simpl. eauto.
  - destruct n as [d|es]; [discriminate|]. simpl.
    destruct (IH (match assoc c es with Some child => child | None => Dir [] end))
      as [child' Hc].
    + destruct (assoc c es) as [[d|es']|] eqn:Ha; try reflexivity.
      specialize (H [c] p eq_refl). unfold file_at in H. simpl in H.
      rewrite Ha in H. discriminate.
    + intros p1 p2 Hp. specialize (H (c :: p1) p2).
      unfold file_at in *. simpl in H.
      destruct (assoc c es) as [child|] eqn:Ha.
      * apply H. now rewrite Hp.
      * now destruct p1.
    + rewrite Hc. simpl. eauto.
Qed.

(** It makes directories on the way only. *)
Lemma tree_mkdirs_new_dirs p n n' q :
  tree_mkdirs p n = Ok n' -> dir_at q n' = true ->
  dir_at q n = true \/ exists r, p = q ++ r.
Proof.
  unfold dir_at.
  revert n n' q. induction p as [|c p IH]; intros n n' q H.
  - destruct n; simpl in H; [discriminate|]. inversion H; subst. auto.
  - destruct n as [d|es]; simpl in H; [discriminate|].
    destruct (tree_mkdirs p _) as [child'|] eqn:Hm; simpl in H;
      [|discriminate].
    inversion H; subst. destruct q as [|c' q]; [now left|]. simpl.
    destruct (String.eqb_spec c c') as [<-|Hne].
    + rewrite assoc_set_same. intros Hq.
      destruct (IH _ _ q Hm Hq) as [Hold|[r ->]].
      * destruct (assoc c es) as [child|]; [now left|].
        right. destruct q; simpl in Hold; [now exists p|discriminate].
      * right. now exists r.
    + rewrite assoc_set_other by exact Hne. now left.
Qed.

(** *** The members of the archive of a tree *)

Lemma assoc_in (es : entries_t) k v : assoc k es = Some v -> In (k, v) es.
Proof.
  induction es as [|[k' v'] es IH]; simpl; [discriminate|].
  destruct (String.eqb_spec k' k) as [->|Hne]; intros H.
  - inversion H. now left.
  - right. now apply IH.
Qed.

Lemma members_of_tree n :
  wf_node n -> portable n ->
  forall ds m,
    In m (tree_members ds n) ->
    exists r,
      r <> [] /\ Forall field r /\ Forall (fun c => no_backslash c = true) r
      /\ filename m = join_sep (ds ++ r) /\ file_at r n = Some (content m).
Proof.
  induction n as [d|es IH] using node_induction;
    intros Hwf Hp ds m Hin; [contradiction|].
  inversion Hwf as [|? Hnd Hall]; subst.
  inversion Hp as [|? Hpor]; subst.
  rewrite tree_members_dir in Hin. apply in_app_or in Hin.
  rewrite Forall_forall in IH, Hall, Hpor.
  destruct Hin as [Hin|Hin].
  - apply in_map_iff in Hin. destruct Hin as [f [<- Hf]].
    apply sorted_in, in_file_names in Hf. destruct Hf as [d Hd].
    destruct (Hall _ Hd) as [Hv _]. destruct (Hpor _ Hd) as [Hb _].
    simpl in Hv, Hb.
    exists [f]. repeat split.
    + discriminate.
    + constructor; [now apply field_valid|constructor].
    + now constructor.
    + unfold file_at, file_data. simpl.
      now rewrite (assoc_in_nodup es f (File d) Hnd Hd).
  - apply in_flat_map in Hin. destruct Hin as [[k v] [Hkv Hin]].
    cbn [fst snd] in Hin. destruct v as [d|es']; [contradiction|].
    cbn [is_dir] in Hin.
    destruct (Hall _ Hkv) as [Hv Hwc]. destruct (Hpor _ Hkv) as [Hb Hpc].
    simpl in Hv, Hwc, Hb, Hpc.
    destruct (IH _ Hkv Hwc Hpc _ _ Hin) as [r [Hr [Hf [Hn [Hname Hfile]]]]].
    exists (k :: r). repeat split.
    + discriminate.
    + constructor; [now apply field_valid|exact Hf].
    + now constructor.
    + rewrite Hname. now rewrite <- app_assoc.
    + unfold file_at in *. simpl.
      now rewrite (assoc_in_nodup es k (Dir es') Hnd Hkv).
Qed.

Lemma members_of_src src :
  wf_node src -> portable src ->
  Forall (member_of src) (tree_members [] src).
Proof.
  intros Hwf Hp. apply Forall_forall. intros m Hin.
  destruct (members_of_tree src Hwf Hp [] m Hin)
    as [r [Hr [Hf [Hn [Hname Hfile]]]]].
  exists r. repeat split; assumption.
Qed.

(** A file at the top of the tree is a member under its name. *)
Lemma top_file_is_member src name d :
  file_at [name] src = Some d ->
  In (mkMember name d) (tree_members [] src).
Proof.
  unfold file_at. destruct src as [x|es]; [discriminate|].
  cbn [tree_get].
  destruct (assoc name es) as [[d'|es']|] eqn:Ha; try discriminate.
  intros H. inversion H; subst d'.
  rewrite tree_members_dir. apply in_or_app. left.
  apply in_map_iff. exists name. split.
  - unfold file_data. now rewrite Ha.
  - eapply Permutation_in; [apply StringSort.Permuted_sort|].
    apply in_file_names. exists d. now apply assoc_in.
Qed.

Lemma dir_at_root p n : dir_at p n = true -> is_dir n = true.
Proof.
  unfold dir_at. destruct n as [d|es]; [|reflexivity].
  now destruct p.
Qed.

Lemma join_sep_inj q q' :
  q <> [] -> q' <> [] -> Forall field q -> Forall field q' ->
  join_sep q = join_sep q' -> q = q'.
Proof.
  intros Hq Hq' Hf Hf' E.
  rewrite <- (@split_join_sep q Hq (fields_no_sep q Hf)).
  rewrite <- (@split_join_sep q' Hq' (fields_no_sep q' Hf')).
  now rewrite E.
Qed.

Lemma removelast_shorter {A} (q r : list A) :
  q <> [] -> removelast q <> q ++ r.
Proof.
  intros Hq E. apply (f_equal (@List.length A)) in E.
  destruct (exists_last Hq) as [q0 [x Hx]]. subst q.
  rewrite removelast_last, !length_app in E. simpl in E. lia.
Qed.

Section WithRuntime.
Variable rt : Runtime.
Local Abbreviation resolve := (FileSys.resolve (cwd rt)).
Local Abbreviation abspath := (PosixPath.abspath (cwd rt)).

Lemma endswith_sep_names q :
  q <> [] -> Forall field q -> endswith_sep (join_sep q) = false.
Proof. intros Hq Hf. exact (endswith_sep_normal 0 q Hq Hf). Qed.

Lemma nonempty_names q :
  q <> [] -> Forall field q -> nonempty (join_sep q) = true.
Proof.
  intros Hq Hf. destruct q as [|c l]; [contradiction|].
  apply (join_sep_rel c l). now inversion Hf.
Qed.

(** A member named by names without a backslash passes the tests, and its
    destination is the place of that name below the target. *)
Lemma safe_destination_of_names t q :
  resolve t <> [] -> q <> [] -> Forall field q ->
  Forall (fun c => no_backslash c = true) q ->
  exists dest,
    safe_destination rt (abspath t) (join_sep q) = Some dest
    /\ resolve dest = resolve t ++ q
    /\ resolve (dirname dest) = resolve t ++ removelast q.
Proof.
  intros Ht Hq Hf Hn.
  destruct (destination_of_names (cwd rt) t q Ht Hq Hf) as [Hd [Hr Hdn]].
  exists (abspath (join (abspath t) (join_sep q))).
  split; [|split; assumption].
  unfold safe_destination.
  rewrite (replace_no_backslash sep_char _ (no_backslash_join_sep q Hn)).
  destruct (names_pass_tests q Hq Hf) as [T1 [T2 [T3 T4]]].
  rewrite T1, T2, T3, T4. cbn [orb].
  assert (Hs : startswith (abspath (join (abspath t) (join_sep q)))
                          (abspath t +++ "/") = true).
  { rewrite Hd. unfold startswith. rewrite <- append_assoc.
    apply prefix_append. }
  rewrite Hs. now rewrite andb_false_r.
Qed.

(** Extracting a member of the tree keeps the target a mirror of the
    tree, keeps the files already there and adds the file of the member. *)
Lemma extract_member_mirrors t src m fs :
  resolve t <> [] -> mirrors (resolve t) src fs -> member_of src m ->
  exists fs',
    extract_member rt (abspath t) m fs = (fs', Return tt)
    /\ mirrors (resolve t) src fs'
    /\ (forall q d, file_at (resolve t ++ q) fs = Some d ->
                    file_at (resolve t ++ q) fs' = Some d)
    /\ (forall q, q <> [] -> Forall field q -> filename m = join_sep q ->
                  file_at (resolve t ++ q) fs' = Some (content m)).
Proof.
  intros Ht [Mt [Mf Md]] [q [Hq [Hf [Hn [Hname Hfile]]]]].
  set (tc := resolve t) in *.
  destruct (safe_destination_of_names t q Ht Hq Hf Hn) as [dest [Hsd [Hr Hrd]]].
  fold tc in Hr, Hrd.
  assert (Hroot : is_dir fs = true) by now apply (dir_at_root tc).
  assert (Hlast : q = removelast q ++ [last q ""])
    by now apply app_removelast_last.
  assert (Hpre : forall p1 p2, tc ++ removelast q = p1 ++ p2 ->
                               file_at p1 fs = None).
  { intros p1 p2 E. apply app_eq_app in E.
    destruct E as [l [[E1 E2]|[E1 E2]]].
    - apply dir_not_file. apply (dir_at_prefix p1 l). now rewrite <- E1.
    - subst p1. destruct (file_at (tc ++ l) fs) as [d|] eqn:Hd; [|reflexivity].
      exfalso. apply Mf in Hd.
      assert (Hdir : dir_at l src = true).
      { apply (file_above_is_dir l (p2 ++ [last q ""]) src (content m)).
        - now rewrite app_assoc, <- E2, <- Hlast.
        - now destruct p2. }
      apply dir_not_file in Hdir. congruence. }
  destruct (tree_mkdirs_ok (tc ++ removelast q) fs Hroot Hpre) as [fa Ha].
  assert (Hda : dir_at (tc ++ removelast q) fa = true)
    by exact (@tree_mkdirs_dir _ _ _ Ha).
  assert (Hnd : dir_at (tc ++ q) fa = false).
  { destruct (dir_at (tc ++ q) fa) eqn:Hd; [|reflexivity]. exfalso.
    destruct (tree_mkdirs_new_dirs _ _ _ _ Ha Hd) as [Hold|[r Hr']].
    - apply Md in Hold. apply dir_not_file in Hold. congruence.
    - rewrite <- app_assoc in Hr'. apply app_inv_head in Hr'.
      now apply (removelast_shorter q r Hq). }
  assert (Hw : exists fb, tree_write (tc ++ q) (content m) fa = Ok fb).
  { rewrite Hlast, app_assoc. apply tree_write_possible.
    - exact Hda.
    - now rewrite <- app_assoc, <- Hlast. }
  destruct Hw as [fb Hb].
  assert (Hfa : forall p, file_at p fa = file_at p fs)
    by (intros p; exact (@tree_mkdirs_files _ _ _ p Ha)).
  assert (Hnew : file_at (tc ++ q) fb = Some (content m)).
  { unfold file_at. now rewrite (@tree_write_get _ _ _ _ Hb). }
  assert (Hother : forall p, p <> tc ++ q -> file_at p fb = file_at p fs).
  { intros p Hp. rewrite <- Hfa. exact (@tree_write_frame _ _ _ _ p Hb Hp). }
  assert (Hdirs : forall p, dir_at p fb = dir_at p fa)
    by (intros p; exact (@tree_write_dir _ _ _ _ p Hb)).
  exists fb. split; [|split; [|split]].
  - unfold extract_member. rewrite Hname, (nonempty_names q Hq Hf).
    cbn [negb]. rewrite Hsd.
    unfold member_is_dir. rewrite Hname, (endswith_sep_names q Hq Hf).
    unfold bind, makedirs, write_file, lift, FileSys.resolve in *.
    rewrite Hrd, Ha, Hr, Hb. reflexivity.
  - split; [|split].
    + rewrite Hdirs. exact (@tree_mkdirs_keeps_dirs _ _ _ _ Ha Mt).
    + intros q' d Hd.
      destruct (list_eq_dec string_dec q' q) as [->|Hne].
      * rewrite Hnew in Hd. now inversion Hd; subst.
      * rewrite Hother in Hd; [now apply Mf|].
        intros E. apply app_inv_head in E. contradiction.
    + intros q' Hd. rewrite Hdirs in Hd.
      destruct (tree_mkdirs_new_dirs _ _ _ _ Ha Hd) as [Hold|[r Hr']].
      * now apply Md.
      * rewrite <- app_assoc in Hr'. apply app_inv_head in Hr'.
        apply (file_above_is_dir q' (r ++ [last q ""]) src (content m)).
        -- now rewrite app_assoc, <- Hr', <- Hlast.
        -- now destruct r.
  - intros q' d Hd.
    destruct (list_eq_dec string_dec q' q) as [->|Hne].
    + rewrite Hnew. apply Mf in Hd. congruence.
    + rewrite Hother; [exact Hd|].
      intros E. apply app_inv_head in E. contradiction.
  - intros q' Hq' Hf' E.
    assert (q' = q) by (apply join_sep_inj; auto; congruence).
    now subst q'.
Qed.

Lemma extract_all_mirrors t src ms :
  resolve t <> [] -> Forall (member_of src) ms ->
  forall fs,
    mirrors (resolve t) src fs ->
    exists fs',
      for_each ms (extract_member rt (abspath t)) fs = (fs', Return tt)
      /\ mirrors (resolve t) src fs'
      /\ (forall q d, file_at (resolve t ++ q) fs = Some d ->
                      file_at (resolve t ++ q) fs' = Some d)
      /\ (forall m q, In m ms -> q <> [] -> Forall field q ->
                      filename m = join_sep q ->
                      file_at (resolve t ++ q) fs' = Some (content m)).
Proof.
  intros Ht Hms. induction Hms as [|m ms Hm Hms IH]; intros fs Hmir.
  - exists fs. repeat split; try apply Hmir; auto. intros m q [].
  - destruct (extract_member_mirrors t src m fs Ht Hmir Hm)
      as [f1 [E1 [M1 [P1 N1]]]].
    destruct (IH f1 M1) as [f2 [E2 [M2 [P2 N2]]]].
    exists f2. split; [|split; [|split]].
    + cbn [for_each]. unfold bind. now rewrite E1.
    + exact M2.
    + intros q d Hd. now apply P2, P1.
    + intros m' q [<-|Hin] Hq Hf Hname.
      * apply P2. now apply N1.
      * now apply (N2 m' q).
Qed.

(** A fresh target can be prepared. *)
Lemma clear_fresh target fs :
  fresh_target rt target fs ->
  exists fs1, _clear_and_prepare_dir rt target fs = (fs1, Return tt).
Proof.
  intros [Hg Hp]. rewrite WriteBytes.clear_unfold, Hg.
  unfold makedirs, lift.
  destruct (tree_mkdirs_ok (resolve target) fs) as [fs1 H1].
  - now apply (dir_at_root _ _ Hp).
  - intros p1 p2 E. destruct p2 as [|c p2].
    + rewrite app_nil_r in E. subst p1. unfold file_at.
      unfold FileSys.resolve in *. now rewrite Hg.
    + apply dir_not_file.
      destruct (@exists_last _ (c :: p2)) as [p2' [l Hl]]; [discriminate|].
      rewrite Hl, app_assoc in E. unfold FileSys.resolve in *.
      rewrite E, removelast_last in Hp.
      now apply (dir_at_prefix p1 p2').
  - unfold FileSys.resolve in *. rewrite H1. eauto.
Qed.

Lemma ready_files directory fs src :
  stat (cwd rt) directory fs = Some src ->
  token_store_ready rt directory fs = true ->
  exists d1 d2,
    file_at [OAUTH1_TOKEN_FILENAME] src = Some d1
    /\ file_at [OAUTH2_TOKEN_FILENAME] src = Some d2
    /\ file_at (resolve directory ++ [OAUTH1_TOKEN_FILENAME]) fs = Some d1
    /\ file_at (resolve directory ++ [OAUTH2_TOKEN_FILENAME]) fs = Some d2.
Proof.
  intros Hs Hr. unfold token_store_ready in Hr.
  apply andb_prop in Hr. destruct Hr as [H1 H2].
  apply isfile_file_at in H1, H2.
  destruct H1 as [d1 H1]. destruct H2 as [d2 H2].
  unfold FileSys.resolve in *.
  rewrite (@resolve_join_name (cwd rt) directory OAUTH1_TOKEN_FILENAME
             eq_refl) in H1.
  rewrite (@resolve_join_name (cwd rt) directory OAUTH2_TOKEN_FILENAME
             eq_refl) in H2.
  exists d1, d2. unfold stat, FileSys.resolve in Hs.
  repeat split; try assumption.
  - unfold file_at in *. now rewrite tree_get_app, Hs in H1.
  - unfold file_at in *. now rewrite tree_get_app, Hs in H2.
Qed.

End WithRuntime.

(** C2, as the claim states it, fails: a ready store that also holds a
    file whose name starts with two dots and a backslash is encoded, but
    writing it back raises, since the extraction reads the backslash as a
    separator. *)
Lemma round_trip_fails_on_backslash_name :
  token_store_ready Inputs.rt0 "/src" Inputs.fs_store_backslash = true
  /\ fresh_target Inputs.rt0 "/dst/store" Inputs.fs_store_backslash
  /\ (exists encoded,
         encode_token_store_dir_as_zip_b64 Inputs.rt0 "/src"
           Inputs.fs_store_backslash
         = (Inputs.fs_store_backslash, Return encoded))
  /\ snd (Inputs.round_trip Inputs.rt0 "/src" "/dst/store"
            Inputs.fs_store_backslash)
     = Raise (UnsafeArchiveEntryError "..\evil")
  /\ token_store_ready Inputs.rt0 "/dst/store"
       (fst (Inputs.round_trip Inputs.rt0 "/src" "/dst/store"
               Inputs.fs_store_backslash)) = false.
Proof.
  split; [vm_compute; reflexivity|].
  split; [split; vm_compute; reflexivity|].
  split; [eexists; vm_compute; reflexivity|].
  split; vm_compute; reflexivity.
Qed.

(** C2, amended.  A well-formed directory in which both token files are
    regular files and no name has a backslash in it, whatever else it
    holds, a target that does not exist yet in a directory that does, both
    given by plain paths, and an archive that [zipfile] and [base64] give
    back as it was written:
    encoding the directory, decoding the text and writing the bytes into
    the target returns the target, the target is ready, and its two token
    files have the content of the two of the directory. *)
Theorem round_trip_of_portable_store rt directory target fs src :
  plain directory = true -> plain target = true ->
  stat (cwd rt) directory fs = Some src ->
  wf_node src -> portable src ->
  token_store_ready rt directory fs = true ->
  fresh_target rt target fs ->
  codec_round_trip rt (archive_of rt directory fs) ->
  exists encoded token_bytes fs',
    encode_token_store_dir_as_zip_b64 rt directory fs = (fs, Return encoded)
    /\ decode_token_store_b64 rt encoded = Return token_bytes
    /\ write_token_store_bytes rt token_bytes target fs
       = (fs', Return target)
    /\ token_store_ready rt target fs' = true
    /\ file_at (resolve (cwd rt) target ++ [OAUTH1_TOKEN_FILENAME]) fs'
       = file_at (resolve (cwd rt) directory ++ [OAUTH1_TOKEN_FILENAME]) fs
    /\ file_at (resolve (cwd rt) target ++ [OAUTH2_TOKEN_FILENAME]) fs'
       = file_at (resolve (cwd rt) directory ++ [OAUTH2_TOKEN_FILENAME]) fs.
Proof.
  intros _ _ Hs Hwf Hp Hready Hfresh Hcodec.
  unfold archive_of in Hcodec.
  rewrite (archive_members_spec rt directory fs src Hs Hwf) in Hcodec.
  cbn [snd] in Hcodec. destruct Hcodec as [Hne [Hzip Hb64]].
  set (ms := tree_members [] src) in *.
  destruct (ready_files rt directory fs src Hs Hready)
    as [d1 [d2 [S1 [S2 [F1 F2]]]]].
  destruct (clear_fresh rt target fs Hfresh) as [fs1 Hc].
  destruct (WriteBytes.clear_spec rt target fs fs1 Hc) as [Hg _].
  assert (Ht : resolve (cwd rt) target <> []).
  { intros E. destruct Hfresh as [Hf _]. rewrite E in Hf. discriminate. }
  assert (Hsrc : is_dir src = true).
  { destruct src; [discriminate|reflexivity]. }
  assert (Hmir : mirrors (resolve (cwd rt) target) src fs1).
  { unfold mirrors, dir_at, file_at.
    split; [now rewrite Hg|]. split; intros q; rewrite tree_get_app, Hg.
    - destruct q; discriminate.
    - destruct q; [intros _|discriminate]. simpl.
      destruct src; [discriminate|reflexivity]. }
  destruct (extract_all_mirrors rt target src ms Ht
              (members_of_src src Hwf Hp) fs1 Hmir)
    as [fs2 [He [_ [_ Hnew]]]].
  assert (T1 : file_at (resolve (cwd rt) target ++ [OAUTH1_TOKEN_FILENAME]) fs2
               = Some d1).
  { apply (Hnew (mkMember OAUTH1_TOKEN_FILENAME d1) [OAUTH1_TOKEN_FILENAME]).
    - now apply top_file_is_member.
    - discriminate.
    - repeat constructor.
    - reflexivity. }
  assert (T2 : file_at (resolve (cwd rt) target ++ [OAUTH2_TOKEN_FILENAME]) fs2
               = Some d2).
  { apply (Hnew (mkMember OAUTH2_TOKEN_FILENAME d2) [OAUTH2_TOKEN_FILENAME]).
    - now apply top_file_is_member.
    - discriminate.
    - repeat constructor.
    - reflexivity. }
  exists (b64encode rt (zip_write rt ms)), (zip_write rt ms), fs2.
  split; [|split; [|split; [|split; [|split]]]].
  - rewrite (Order.encode_of_members rt directory fs src Hs Hwf). fold ms.
    destruct (zip_write rt ms); [contradiction|reflexivity].
  - unfold decode_token_store_b64. now rewrite Hb64.
  - rewrite WriteBytes.write_unfold. unfold bind at 1.
    rewrite Hc, (WriteBytes.after_clear_zip rt _ _ _ _ Hzip).
    now rewrite WriteBytes.extraction_of_readable, He.
  - now apply (WriteBytes.ready_of_files rt target fs2 d1 d2).
  - now rewrite T1, F1.
  - now rewrite T2, F2.
Qed.

Lemma round_trip_of_portable_store_witness :
  exists encoded token_bytes fs',
    encode_token_store_dir_as_zip_b64 Inputs.rt0 "/src" Inputs.fs_store
    = (Inputs.fs_store, Return encoded)
    /\ decode_token_store_b64 Inputs.rt0 encoded = Return token_bytes
    /\ write_token_store_bytes Inputs.rt0 token_bytes "/dst/store"
                               Inputs.fs_store
       = (fs', Return "/dst/store")
    /\ token_store_ready Inputs.rt0 "/dst/store" fs' = true
    /\ file_at ["dst"; "store"; "oauth1_token.json"] fs'
       = Some Inputs.token1
    /\ file_at ["dst"; "store"; "oauth2_token.json"] fs'
       = Some Inputs.token2.
Proof.
  assert (W : forall es, NoDup (map fst es) ->
                         Forall (fun kv => valid_name (fst kv) = true
                                           /\ wf_node (snd kv)) es ->
                         wf_node (Dir es)) by (intros; now constructor).
  assert (Hwf : wf_node Inputs.store_tree).
  { apply W.
    - repeat constructor; simpl; intuition discriminate.
    - constructor; [split; [reflexivity|constructor]|].
      constructor; [split; [reflexivity|constructor]|].
      constructor; [|constructor]. split; [reflexivity|].
      apply W; [repeat constructor; simpl; tauto|repeat constructor]. }
  assert (Hp : portable Inputs.store_tree) by (repeat constructor).
  destruct (round_trip_of_portable_store Inputs.rt0 "/src" "/dst/store"
              Inputs.fs_store Inputs.store_tree eq_refl eq_refl eq_refl Hwf
              Hp)
    as [encoded [token_bytes [fs' [E [D [Wr [R [F1 F2]]]]]]]].
  - vm_compute. reflexivity.
  - split; vm_compute; reflexivity.
  - split; [vm_compute; discriminate|split; vm_compute; reflexivity].
  - exists encoded, token_bytes, fs'.
    repeat split; assumption.
Defined.

End RoundTrip.
(* ------------------------------------------------------------------ *)
(** ** What [encode_token_store_dir_as_zip_b64] reads and archives *)

Module Archive.
Import PyStr PosixPath FileSys Lib TokenStore FileSysFacts PathFacts CallFacts.
Import Spec MoreSpec Encode.

Lemma archive_members_reads rt directory fs :
  fst (archive_members rt directory fs) = fs.
Proof.
  unfold archive_members, bind, get_fs.
  apply collect_reads. intros x s. apply (level_reads rt directory x s).
Qed.

Lemma in_sorted f l : In f l -> In f (sorted l).
Proof.
  intros H. eapply Permutation_in; [|exact H].
  apply StringSort.Permuted_sort.
Qed.

Lemma nodup_sorted l : NoDup l -> NoDup (sorted l).
Proof.
  intros H. eapply Permutation_NoDup; [|exact H].
  apply StringSort.Permuted_sort.
Qed.

Lemma nodup_file_names (es : entries_t) :
  NoDup (map fst es) -> NoDup (file_names es).
Proof.
  unfold file_names. induction es as [|[k v] es IH]; intros H.
  - constructor.
  - inversion H as [|? ? Hk Hn]; subst. cbn [filter snd].
    destruct (negb (is_dir v)); [|now apply IH].
    cbn [map fst]. constructor; [|now apply IH].
    intros Hin. apply Hk. apply in_map_iff in Hin.
    destruct Hin as [[k' v'] [E Hin]]. apply filter_In in Hin.
    apply in_map_iff. exists (k', v'). now split.
Qed.

(** Every member is a file of the tree, under its path. *)
Lemma members_are_files n :
  wf_node n ->
  forall ds m,
    In m (tree_members ds n) ->
    exists r,
      r <> [] /\ Forall field r
      /\ filename m = join_sep (ds ++ r) /\ file_at r n = Some (content m).
Proof.
  induction n as [d|es IH] using node_induction;
    intros Hwf ds m Hin; [contradiction|].
  inversion Hwf as [|? Hnd Hall]; subst.
  rewrite tree_members_dir in Hin. apply in_app_or in Hin.
  rewrite Forall_forall in IH, Hall.
  destruct Hin as [Hin|Hin].
  - apply in_map_iff in Hin. destruct Hin as [f [<- Hf]].
    apply sorted_in, in_file_names in Hf. destruct Hf as [d Hd].
    destruct (Hall _ Hd) as [Hv _]. simpl in Hv.
    exists [f]. repeat split.
    + discriminate.
    + constructor; [now apply field_valid|constructor].
    + unfold file_at, file_data. simpl.
      now rewrite (assoc_in_nodup es f (File d) Hnd Hd).
  - apply in_flat_map in Hin. destruct Hin as [[k v] [Hkv Hin]].
    cbn [fst snd] in Hin. destruct v as [d|es']; [contradiction|].
    cbn [is_dir] in Hin.
    destruct (Hall _ Hkv) as [Hv Hwc]. simpl in Hv, Hwc.
    destruct (IH _ Hkv Hwc _ _ Hin) as [r [Hr [Hf [Hname Hfile]]]].
    exists (k :: r). repeat split.
    + discriminate.
    + constructor; [now apply field_valid|exact Hf].
    + rewrite Hname. now rewrite <- app_assoc.
    + unfold file_at in *. simpl.
      now rewrite (assoc_in_nodup es k (Dir es') Hnd Hkv).
Qed.

(** Every file of the tree is a member, under its path. *)
Lemma files_are_members n :
  forall ds q d,
    q <> [] -> file_at q n = Some d ->
    In (mkMember (join_sep (ds ++ q)) d) (tree_members ds n).
Proof.
  induction n as [x|es IH] using node_induction; intros ds q d Hq Hf.
  - destruct q; [contradiction|discriminate].
  - destruct q as [|c r]; [contradiction|].
    unfold file_at in Hf. cbn [tree_get] in Hf.
    destruct (assoc c es) as [child|] eqn:Ha; [|discriminate].
    rewrite tree_members_dir. apply in_or_app.
    destruct r as [|c' r'].
    + left. destruct child as [d'|es']; [|discriminate].
      cbn [tree_get] in Hf. inversion Hf; subst d'.
      apply in_map_iff. exists c. split.
      * unfold file_data. now rewrite Ha.
      * apply in_sorted, in_file_names. exists d.
        now apply RoundTrip.assoc_in.
    + right. destruct child as [d'|es']; [discriminate|].
      apply in_flat_map. exists (c, Dir es'). split.
      * now apply RoundTrip.assoc_in.
      * cbn [fst snd is_dir]. rewrite Forall_forall in IH.
        pose proof (IH _ (RoundTrip.assoc_in _ _ _ Ha) (ds ++ [c]) (c' :: r') d)
          as H.
        cbn [snd] in H. rewrite <- app_assoc in H. apply H; [discriminate|].
        exact Hf.
Qed.


Lemma nodup_flat_map {X Y} (g : X -> list Y) l :
  (forall x, In x l -> NoDup (g x)) ->
  ForallOrdPairs (fun x y => forall a, In a (g x) -> ~ In a (g y)) l ->
  NoDup (flat_map g l).
Proof.
  intros Hg Hd. induction Hd as [|x l Hx Hd IH]; [constructor|].
  cbn [flat_map]. apply NoDup_app.
  - apply Hg. now left.
  - apply IH. intros y Hy. apply Hg. now right.
  - intros a Ha Hin. apply in_flat_map in Hin. destruct Hin as [y [Hy Hay]].
    rewrite Forall_forall in Hx. exact (Hx y Hy a Ha Hay).
Qed.

Lemma map_flat_map {X Y Z} (f : Y -> Z) (g : X -> list Y) l :
  map f (flat_map g l) = flat_map (fun x => map f (g x)) l.
Proof.
  induction l as [|x l IH]; [reflexivity|].
  cbn [flat_map]. now rewrite map_app, IH.
Qed.

Lemma ord_pairs_of_keys {V} (P : string * V -> string * V -> Prop) l :
  NoDup (map fst l) ->
  (forall x y, In x l -> In y l -> fst x <> fst y -> P x y) ->
  ForallOrdPairs P l.
Proof.
  induction l as [|x l IH]; intros Hn HP; [constructor|].
  inversion Hn as [|? ? Hx Hn']; subst. constructor.
  - apply Forall_forall. intros y Hy. apply HP; [now left|now right|].
    intros E. apply Hx. rewrite E. now apply in_map.
  - apply IH; [exact Hn'|]. intros a b Ha Hb. apply HP; now right.
Qed.

(** No two members have the same name. *)
Lemma members_nodup n :
  wf_node n ->
  forall ds, Forall field ds -> NoDup (map filename (tree_members ds n)).
Proof.
  induction n as [d|es IH] using node_induction; intros Hwf ds Hds;
    [constructor|].
  inversion Hwf as [|? Hnd Hall]; subst.
  rewrite tree_members_dir, map_app, map_map. cbn [filename].
  rewrite Forall_forall in IH, Hall.
  assert (Hfield : forall f, In f (file_names es) -> field f).
  { intros f Hf. apply in_file_names in Hf. destruct Hf as [d Hd].
    apply field_valid. exact (proj1 (Hall _ Hd)). }
  apply NoDup_app.
  - apply NoDup_map_NoDup_ForallPairs;
      [|now apply nodup_sorted, nodup_file_names].
    intros f f' Hf Hf' E. apply sorted_in in Hf, Hf'.
    apply RoundTrip.join_sep_inj in E.
    + apply app_inv_head in E. now inversion E.
    + now destruct ds.
    + now destruct ds.
    + apply Forall_app. split; [exact Hds|]. constructor; auto.
    + apply Forall_app. split; [exact Hds|]. constructor; auto.
  - rewrite map_flat_map. apply nodup_flat_map.
    + intros [k v] Hkv. cbn [fst snd].
      destruct v as [d|es']; [constructor|]. cbn [is_dir].
      destruct (Hall _ Hkv) as [Hv Hwc]. cbn [fst snd] in Hv, Hwc.
      apply (IH _ Hkv Hwc). apply Forall_app. split; [exact Hds|].
      constructor; [now apply field_valid|constructor].
    + apply ord_pairs_of_keys; [exact Hnd|].
      intros [k v] [k' v'] Hkv Hkv' Hne a Ha Ha'. cbn [fst snd] in *.
      destruct v as [d|es1]; [contradiction|].
      destruct v' as [d|es2]; [contradiction|]. cbn [is_dir] in Ha, Ha'.
      apply in_map_iff in Ha, Ha'.
      destruct Ha as [m [Em Hm]]. destruct Ha' as [m' [Em' Hm']].
      destruct (Hall _ Hkv) as [Hv Hwc]. destruct (Hall _ Hkv') as [Hv' Hwc'].
      cbn [fst snd] in Hv, Hwc, Hv', Hwc'.
      destruct (members_are_files _ Hwc _ _ Hm) as [r [Hr [Hfr [Hname _]]]].
      destruct (members_are_files _ Hwc' _ _ Hm') as [r' [Hr' [Hfr' [Hname' _]]]].
      rewrite <- Em' in Em. rewrite Hname, Hname' in Em.
      rewrite <- !app_assoc in Em.
      apply RoundTrip.join_sep_inj in Em.
      * apply app_inv_head in Em. inversion Em. now apply Hne.
      * now destruct ds.
      * now destruct ds.
      * apply Forall_app. split; [exact Hds|].
        constructor; [now apply field_valid|exact Hfr].
      * apply Forall_app. split; [exact Hds|].
        constructor; [now apply field_valid|exact Hfr'].
  - intros a Ha Ha'. apply in_map_iff in Ha. destruct Ha as [f [Ef Hf]].
    apply sorted_in in Hf.
    rewrite map_flat_map in Ha'. apply in_flat_map in Ha'.
    destruct Ha' as [[k v] [Hkv Ha']]. cbn [fst snd] in Ha'.
    destruct v as [d|es']; [contradiction|]. cbn [is_dir] in Ha'.
    apply in_map_iff in Ha'. destruct Ha' as [m [Em Hm]].
    destruct (Hall _ Hkv) as [Hv Hwc]. cbn [fst snd] in Hv, Hwc.
    destruct (members_are_files _ Hwc _ _ Hm) as [r [Hr [Hfr [Hname _]]]].
    rewrite <- Em in Ef. rewrite Hname in Ef. rewrite <- app_assoc in Ef.
    apply RoundTrip.join_sep_inj in Ef.
    + apply app_inv_head in Ef. inversion Ef. now apply Hr.
    + now destruct ds.
    + now destruct ds.
    + apply Forall_app. split; [exact Hds|]. constructor; auto.
    + apply Forall_app. split; [exact Hds|].
      constructor; [now apply field_valid|exact Hfr].
Qed.


Lemma store_tree_wf : wf_node Inputs.store_tree.
Proof.
  assert (W : forall es, NoDup (map fst es) ->
                         Forall (fun kv => valid_name (fst kv) = true
                                           /\ wf_node (snd kv)) es ->
                         wf_node (Dir es)) by (intros; now constructor).
  apply W.
  - repeat constructor; simpl; intuition discriminate.
  - constructor; [split; [reflexivity|constructor]|].
    constructor; [split; [reflexivity|constructor]|].
    constructor; [|constructor]. split; [reflexivity|].
    apply W; [repeat constructor; simpl; tauto|repeat constructor].
Qed.

(** X1.  [encode_token_store_dir_as_zip_b64] only reads: whatever the
    directory is, and whether the call returns or raises, the file system
    is afterwards what it was before. *)
Theorem encode_leaves_file_system rt directory fs :
  fst (encode_token_store_dir_as_zip_b64 rt directory fs) = fs.
Proof.
  unfold encode_token_store_dir_as_zip_b64, bind.
  pose proof (archive_members_reads rt directory fs) as H.
  destruct (archive_members rt directory fs) as [fs1 [ms|e]];
    cbn [fst] in H; subst fs1; [|reflexivity].
  destruct (zip_write rt ms); reflexivity.
Qed.

(** X2.  When [directory] is not a directory (nothing is there, or a
    regular file is), [os.walk] yields nothing and no exception: the
    archive has no member, and, the closed archive being the
    end-of-central-directory record and not the empty byte string, the call
    returns the base64 text of the empty archive; nothing tells the caller
    that the directory was not there. *)
Theorem encode_of_missing_directory_returns rt directory fs :
  isdir (cwd rt) directory fs = false ->
  zip_write rt [] <> [] ->
  encode_token_store_dir_as_zip_b64 rt directory fs
  = (fs, Return (b64encode rt (zip_write rt []))).
Proof.
  intros Hd Hz.
  unfold encode_token_store_dir_as_zip_b64, archive_members, bind, get_fs,
    walk.
  unfold isdir in Hd.
  destruct (stat (cwd rt) directory fs) as [[d|es]|]; try discriminate;
    cbn [walk_node collect]; unfold ret;
    (destruct (zip_write rt []); [contradiction|reflexivity]).
Qed.

Lemma encode_of_missing_directory_returns_witness :
  isdir (cwd Inputs.rt0) "/dst/nothing" Inputs.fs_dst = false
  /\ encode_token_store_dir_as_zip_b64 Inputs.rt0 "/dst/nothing" Inputs.fs_dst
     = (Inputs.fs_dst, Return "UEsFBgAAAAAAAAAAAAAAAAAAAAAAAA==").
Proof.
  split; [reflexivity|].
  apply (encode_of_missing_directory_returns Inputs.rt0 "/dst/nothing"
           Inputs.fs_dst); [reflexivity|vm_compute; discriminate].
Defined.

(** X3.  The archive of an existing directory, given by a plain path, holds
    exactly the regular files below it: the walk and the reads raise
    nothing; every member is a file of the tree, named by its path from the
    directory with [/] between the components, with the content of the
    file, and none stands for a directory (so that a directory without
    files leaves no trace); every regular file of the tree, at any depth,
    is a member; no name is there twice; and, the bytes of the archive not
    being empty, the call returns the base64 text of that archive. *)
Theorem archive_holds_exactly_the_files rt directory fs src :
  plain directory = true ->
  stat (cwd rt) directory fs = Some src ->
  wf_node src ->
  exists ms,
    archive_members rt directory fs = (fs, Return ms)
    /\ (forall m, In m ms ->
                  member_is_dir m = false
                  /\ exists q, q <> [] /\ filename m = join_sep q
                               /\ file_at q src = Some (content m))
    /\ (forall q d, q <> [] -> file_at q src = Some d ->
                    In (mkMember (join_sep q) d) ms)
    /\ NoDup (map filename ms)
    /\ (zip_write rt ms <> [] ->
        encode_token_store_dir_as_zip_b64 rt directory fs
        = (fs, Return (b64encode rt (zip_write rt ms)))).
Proof.
  intros _ Hs Hwf. exists (tree_members [] src).
  pose proof (archive_members_spec rt directory fs src Hs Hwf) as Hm.
  split; [exact Hm|]. split; [|split; [|split]].
  - intros m Hin.
    destruct (members_are_files src Hwf [] m Hin) as [r [Hr [Hf [Hn Hfile]]]].
    cbn [app] in Hn. split.
    + unfold member_is_dir. rewrite Hn.
      now apply RoundTrip.endswith_sep_names.
    + exists r. now repeat split.
  - intros q d Hq Hf. exact (files_are_members src [] q d Hq Hf).
  - apply members_nodup; [exact Hwf|constructor].
  - intros Hz. unfold encode_token_store_dir_as_zip_b64, bind.
    rewrite Hm. destruct (zip_write rt (tree_members [] src));
      [contradiction|reflexivity].
Qed.

Lemma archive_holds_exactly_the_files_witness :
  exists ms,
    archive_members Inputs.rt0 "/src" Inputs.fs_store
    = (Inputs.fs_store, Return ms)
    /\ (forall m, In m ms ->
                  member_is_dir m = false
                  /\ exists q, q <> [] /\ filename m = join_sep q
                               /\ file_at q Inputs.store_tree
                                  = Some (content m))
    /\ (forall q d, q <> [] -> file_at q Inputs.store_tree = Some d ->
                    In (mkMember (join_sep q) d) ms)
    /\ NoDup (map filename ms)
    /\ (zip_write Inputs.rt0 ms <> [] ->
        encode_token_store_dir_as_zip_b64 Inputs.rt0 "/src" Inputs.fs_store
        = (Inputs.fs_store,
           Return (b64encode Inputs.rt0 (zip_write Inputs.rt0 ms)))).
Proof.
  apply (archive_holds_exactly_the_files Inputs.rt0 "/src" Inputs.fs_store
           Inputs.store_tree); [reflexivity|reflexivity|exact store_tree_wf].
Defined.

End Archive.
(* ------------------------------------------------------------------ *)
(** ** What [hydrate_token_store_from_legacy_file] writes *)

Module HydrateWrites.
Import PyStr PosixPath FileSys Lib TokenStore FileSysFacts PathFacts CallFacts.
Import Spec MoreSpec WriteBytes.

Lemma hydrate_unfold rt path directory fs items :
  isfile (cwd rt) path fs = true ->
  load_json_file rt path fs = Some (JObject items) ->
  hydrate_token_store_from_legacy_file rt path directory fs
  = bind (maybe_write rt directory OAUTH1_TOKEN_FILENAME
            (sub_object (dict_get "oauth1_token" items)))
         (fun _ =>
            maybe_write rt directory OAUTH2_TOKEN_FILENAME
              (sub_object (dict_get "oauth2_token" items))) fs.
Proof.
  intros Hf Hl.
  unfold hydrate_token_store_from_legacy_file at 1. unfold bind at 1.
  unfold get_fs. rewrite Hf. cbn [negb]. rewrite Hl.
  unfold maybe_write, sub_object, bind.
  destruct (dict_get "oauth1_token" items) as [[| | | | |o1]|];
    destruct (dict_get "oauth2_token" items) as [[| | | | |o2]|];
    reflexivity.
Qed.

(** Opening a file for writing where the directory is not there. *)
Lemma tree_write_no_dir p c data n :
  dir_at p n = false ->
  tree_write (p ++ [c]) data n = Err FileNotFoundError
  \/ tree_write (p ++ [c]) data n = Err NotADirectoryError.
Proof.
  unfold dir_at. revert n. induction p as [|a p IH]; intros n H.
  - destruct n; [now right|discriminate].
  - destruct n as [d|es]; [now right|]. cbn [app tree_write tree_get] in *.
    destruct (assoc a es) as [child|].
    + destruct (IH child H) as [E|E]; rewrite E; [now left|now right].
    + destruct p; now left.
Qed.

Lemma maybe_write_no_dir rt t name v fs :
  valid_name name = true ->
  dir_at (resolve (cwd rt) t) fs = false ->
  maybe_write rt t name (Some v) fs = (fs, Raise (OSError FileNotFoundError))
  \/ maybe_write rt t name (Some v) fs
     = (fs, Raise (OSError NotADirectoryError)).
Proof.
  intros Hv Hd. unfold maybe_write, _write_json, write_file, lift.
  unfold resolve in *. rewrite (@resolve_join_name (cwd rt) t name Hv).
  destruct (tree_write_no_dir _ name (json_dump rt v) _ Hd) as [E|E];
    rewrite E; [now left|now right].
Qed.


(** X4.  For plain paths: when the legacy file holds a JSON object and
    [directory] is a directory (in which neither token file name is taken
    by a directory), the call returns; [oauth1_token.json] then holds
    [json.dump] of the value under [oauth1_token] when that value is an
    object, and is what it was before otherwise, and the same for
    [oauth2_token.json] and [oauth2_token]; with both values objects the
    store is ready. *)
Theorem hydrate_writes_sub_objects rt path directory fs items :
  plain path = true -> plain directory = true ->
  isfile (cwd rt) path fs = true ->
  load_json_file rt path fs = Some (JObject items) ->
  store_dir rt directory fs ->
  exists fs',
    hydrate_token_store_from_legacy_file rt path directory fs
    = (fs', Return tt)
    /\ file_at (resolve (cwd rt) directory ++ [OAUTH1_TOKEN_FILENAME]) fs'
       = match dict_get "oauth1_token" items with
         | Some (JObject o1) => Some (json_dump rt (JObject o1))
         | _ => file_at (resolve (cwd rt) directory
                           ++ [OAUTH1_TOKEN_FILENAME]) fs
         end
    /\ file_at (resolve (cwd rt) directory ++ [OAUTH2_TOKEN_FILENAME]) fs'
       = match dict_get "oauth2_token" items with
         | Some (JObject o2) => Some (json_dump rt (JObject o2))
         | _ => file_at (resolve (cwd rt) directory
                           ++ [OAUTH2_TOKEN_FILENAME]) fs
         end
    /\ (forall o1 o2,
           dict_get "oauth1_token" items = Some (JObject o1) ->
           dict_get "oauth2_token" items = Some (JObject o2) ->
           token_store_ready rt directory fs' = true).
Proof.
  intros _ _ Hf Hl Hs.
  rewrite (hydrate_unfold rt path directory fs items Hf Hl).
  destruct (maybe_write_spec rt directory OAUTH1_TOKEN_FILENAME
              (sub_object (dict_get "oauth1_token" items)) fs eq_refl Hs
              (proj1 (proj2 Hs)))
    as [fs1 [E1 [Hs1 [C1 F1]]]].
  destruct (maybe_write_spec rt directory OAUTH2_TOKEN_FILENAME
              (sub_object (dict_get "oauth2_token" items)) fs1 eq_refl Hs1
              (proj2 (proj2 Hs1)))
    as [fs2 [E2 [Hs2 [C2 F2]]]].
  assert (Hne : resolve (cwd rt) directory ++ [OAUTH1_TOKEN_FILENAME]
                <> resolve (cwd rt) directory ++ [OAUTH2_TOKEN_FILENAME]).
  { intros E. apply app_inv_head in E. discriminate. }
  assert (A1 : file_at (resolve (cwd rt) directory ++ [OAUTH1_TOKEN_FILENAME])
                       fs2
               = match dict_get "oauth1_token" items with
                 | Some (JObject o1) => Some (json_dump rt (JObject o1))
                 | _ => file_at (resolve (cwd rt) directory
                                   ++ [OAUTH1_TOKEN_FILENAME]) fs
                 end).
  { rewrite (F2 _ Hne), C1.
    destruct (dict_get "oauth1_token" items) as [[| | | | |o1]|];
      reflexivity. }
  assert (A2 : file_at (resolve (cwd rt) directory ++ [OAUTH2_TOKEN_FILENAME])
                       fs2
               = match dict_get "oauth2_token" items with
                 | Some (JObject o2) => Some (json_dump rt (JObject o2))
                 | _ => file_at (resolve (cwd rt) directory
                                   ++ [OAUTH2_TOKEN_FILENAME]) fs
                 end).
  { rewrite C2.
    destruct (dict_get "oauth2_token" items) as [[| | | | |o2]|];
      try reflexivity; cbn [sub_object]; apply F1; congruence. }
  exists fs2. split; [|split; [exact A1|split; [exact A2|]]].
  - unfold bind. rewrite E1. exact E2.
  - intros o1 o2 K1 K2. rewrite K1 in A1. rewrite K2 in A2.
    exact (ready_of_files rt directory fs2 _ _ A1 A2).
Qed.

Lemma hydrate_writes_sub_objects_witness :
  exists fs',
    hydrate_token_store_from_legacy_file Inputs.rt0 "/legacy.json" "/d"
                                         Inputs.fs_legacy
    = (fs', Return tt)
    /\ file_at ["d"; "oauth1_token.json"] fs'
       = Some (Demo.text (Demo.q "{'oauth_token': 'a', 'oauth_token_secret': 'b'}"))
    /\ file_at ["d"; "oauth2_token.json"] fs'
       = Some (Demo.text (Demo.q "{'access_token': 'c'}"))
    /\ token_store_ready Inputs.rt0 "/d" fs' = true.
Proof.
  destruct (hydrate_writes_sub_objects Inputs.rt0 "/legacy.json" "/d"
              Inputs.fs_legacy
              [("oauth1_token",
                JObject [("oauth_token", JString "a");
                         ("oauth_token_secret", JString "b")]);
               ("oauth2_token", JObject [("access_token", JString "c")])])
    as [fs' [E [A1 [A2 R]]]].
  - reflexivity.
  - reflexivity.
  - reflexivity.
  - vm_compute. reflexivity.
  - repeat split; reflexivity.
  - exists fs'. split; [exact E|]. split; [exact A1|]. split; [exact A2|].
    exact (R _ _ eq_refl eq_refl).
Defined.

(** X5.  When the legacy file holds a JSON object in which neither the
    value under [oauth1_token] nor the value under [oauth2_token] is an
    object (the key is missing, or the value is a string, a number, a list
    or null), nothing is written and nothing is raised, whatever other keys
    the object has: the flattened keys [oauth_token], [oauth_token_secret]
    and [access_token], which [write_token_store_bytes] accepts, are not
    looked at here. *)
Theorem hydrate_ignores_flattened_keys rt path directory fs items :
  isfile (cwd rt) path fs = true ->
  load_json_file rt path fs = Some (JObject items) ->
  (forall o1, dict_get "oauth1_token" items <> Some (JObject o1)) ->
  (forall o2, dict_get "oauth2_token" items <> Some (JObject o2)) ->
  hydrate_token_store_from_legacy_file rt path directory fs
  = (fs, Return tt).
Proof.
  intros Hf Hl H1 H2.
  rewrite (hydrate_unfold rt path directory fs items Hf Hl).
  destruct (dict_get "oauth1_token" items) as [[| | | | |o1]|];
    try (now destruct (H1 o1));
    destruct (dict_get "oauth2_token" items) as [[| | | | |o2]|];
    try (now destruct (H2 o2)); reflexivity.
Qed.

Lemma hydrate_ignores_flattened_keys_witness :
  load_json_file Inputs.rt0 "/flat.json" MoreInputs.fs_flat
  = Some (JObject [("oauth_token", JString "a");
                   ("oauth_token_secret", JString "b");
                   ("access_token", JString "c")])
  /\ hydrate_token_store_from_legacy_file Inputs.rt0 "/flat.json" "/d"
                                          MoreInputs.fs_flat
     = (MoreInputs.fs_flat, Return tt).
Proof.
  split; [vm_compute; reflexivity|].
  apply (hydrate_ignores_flattened_keys Inputs.rt0 "/flat.json" "/d"
           MoreInputs.fs_flat
           [("oauth_token", JString "a");
            ("oauth_token_secret", JString "b");
            ("access_token", JString "c")]).
  - reflexivity.
  - vm_compute. reflexivity.
  - intros o1. discriminate.
  - intros o2. discriminate.
Defined.

(** X6.  The function does not create [directory]: when the legacy file,
    given by a plain path, holds a JSON object with an object under
    [oauth1_token] or under [oauth2_token] and [directory] is not a
    directory, the [OSError] of [open] ([FileNotFoundError], or
    [NotADirectoryError] when a regular file is in the way) reaches the
    caller, and nothing is written. *)
Theorem hydrate_raises_without_directory rt path directory fs items :
  plain path = true ->
  isfile (cwd rt) path fs = true ->
  load_json_file rt path fs = Some (JObject items) ->
  (exists o, dict_get "oauth1_token" items = Some (JObject o)
             \/ dict_get "oauth2_token" items = Some (JObject o)) ->
  dir_at (resolve (cwd rt) directory) fs = false ->
  exists e,
    hydrate_token_store_from_legacy_file rt path directory fs
    = (fs, Raise (OSError e))
    /\ (e = FileNotFoundError \/ e = NotADirectoryError).
Proof.
  intros _ Hf Hl [o Ho] Hd.
  rewrite (hydrate_unfold rt path directory fs items Hf Hl).
  unfold bind.
  destruct (sub_object (dict_get "oauth1_token" items)) as [v1|] eqn:S1.
  - destruct (maybe_write_no_dir rt directory OAUTH1_TOKEN_FILENAME v1 fs
                eq_refl Hd) as [E|E]; rewrite E; eauto.
  - cbn [maybe_write]. unfold ret.
    destruct (sub_object (dict_get "oauth2_token" items)) as [v2|] eqn:S2.
    + destruct (maybe_write_no_dir rt directory OAUTH2_TOKEN_FILENAME v2 fs
                  eq_refl Hd) as [E|E]; rewrite E; eauto.
    + destruct Ho as [Ho|Ho]; rewrite Ho in *; discriminate.
Qed.

Lemma hydrate_raises_without_directory_witness :
  exists e,
    hydrate_token_store_from_legacy_file Inputs.rt0 "/legacy.json" "/nothing"
                                         Inputs.fs_legacy
    = (Inputs.fs_legacy, Raise (OSError e))
    /\ (e = FileNotFoundError \/ e = NotADirectoryError).
Proof.
  apply (hydrate_raises_without_directory Inputs.rt0 "/legacy.json" "/nothing"
           Inputs.fs_legacy
           [("oauth1_token",
             JObject [("oauth_token", JString "a");
                      ("oauth_token_secret", JString "b")]);
            ("oauth2_token", JObject [("access_token", JString "c")])]).
  - reflexivity.
  - reflexivity.
  - vm_compute. reflexivity.
  - eexists. left. reflexivity.
  - reflexivity.
Defined.

End HydrateWrites.
(* ------------------------------------------------------------------ *)
(** ** The legacy fallback of [write_token_store_bytes] *)

Module Fallback.
Import PyStr PosixPath FileSys Lib TokenStore FileSysFacts PathFacts CallFacts.
Import Spec MoreSpec WriteBytes.

(** Nothing is below an empty directory. *)
Lemma empty_dir_below t fs r :
  tree_get t fs = Some (Dir []) -> r <> [] -> tree_get (t ++ r) fs = None.
Proof.
  intros H Hr. rewrite (@tree_get_app t r fs), H.
  destruct r; [contradiction|reflexivity].
Qed.

Lemma empty_dir_not_ready rt target fs :
  tree_get (resolve (cwd rt) target) fs = Some (Dir []) ->
  token_store_ready rt target fs = false.
Proof.
  intros H. unfold token_store_ready, isfile, stat, resolve in *.
  rewrite (@resolve_join_name (cwd rt) target OAUTH1_TOKEN_FILENAME eq_refl).
  now rewrite (empty_dir_below _ _ [OAUTH1_TOKEN_FILENAME] H).
Qed.

(** X7.  Bytes that are no zip archive and parse to a JSON object: once the
    target, given by a plain path, is cleared the call returns the target,
    and the target holds [oauth1_token.json] with the whole payload when
    the payload has the keys [oauth_token] and [oauth_token_secret], else
    with the object under [oauth1_token] when there is one, and no such
    file otherwise; [oauth2_token.json] with the whole payload when the
    payload has the key [access_token], else with the object under
    [oauth2_token] when there is one, and no such file otherwise; and no
    other file. *)
Theorem write_legacy_payload rt token_bytes target fs fs1 items :
  plain target = true ->
  _clear_and_prepare_dir rt target fs = (fs1, Return tt) ->
  zip_read rt token_bytes = None ->
  parse_payload rt token_bytes = Some (JObject items) ->
  exists fs',
    write_token_store_bytes rt token_bytes target fs = (fs', Return target)
    /\ file_at (resolve (cwd rt) target ++ [OAUTH1_TOKEN_FILENAME]) fs'
       = (if dict_has "oauth_token" items
             && dict_has "oauth_token_secret" items
          then Some (json_dump rt (JObject items))
          else match dict_get "oauth1_token" items with
               | Some (JObject o1) => Some (json_dump rt (JObject o1))
               | _ => None
               end)
    /\ file_at (resolve (cwd rt) target ++ [OAUTH2_TOKEN_FILENAME]) fs'
       = (if dict_has "access_token" items
          then Some (json_dump rt (JObject items))
          else match dict_get "oauth2_token" items with
               | Some (JObject o2) => Some (json_dump rt (JObject o2))
               | _ => None
               end)
    /\ (forall r, r <> [OAUTH1_TOKEN_FILENAME] ->
                  r <> [OAUTH2_TOKEN_FILENAME] ->
                  file_at (resolve (cwd rt) target ++ r) fs' = None).
Proof.
  intros _ Hc Hz Hp.
  destruct (legacy_fallback_spec rt token_bytes target items fs1 Hp
              (clear_store_dir _ _ _ _ Hc)) as [fs' [E [_ [A1 [A2 F]]]]].
  destruct (clear_spec rt target fs fs1 Hc) as [Hg _].
  assert (Hnone : forall r, file_at (resolve (cwd rt) target ++ r) fs1 = None).
  { intros r. unfold file_at. rewrite (@tree_get_app _ r fs1), Hg.
    destruct r; reflexivity. }
  exists fs'. rewrite (write_unfold_fallback _ _ _ _ _ Hc Hz), E.
  split; [reflexivity|]. split; [|split].
  - rewrite A1, Hnone. unfold pick, when.
    destruct (dict_has "oauth_token" items
              && dict_has "oauth_token_secret" items); [reflexivity|].
    destruct (dict_get "oauth1_token" items) as [[| | | | |o1]|];
      reflexivity.
  - rewrite A2, Hnone. unfold pick, when.
    destruct (dict_has "access_token" items); [reflexivity|].
    destruct (dict_get "oauth2_token" items) as [[| | | | |o2]|];
      reflexivity.
  - intros r R1 R2. rewrite F; [apply Hnone| |];
      intros Eq; apply app_inv_head in Eq; contradiction.
Qed.

Lemma write_legacy_payload_witness :
  exists fs',
    write_token_store_bytes Inputs.rt0 MoreInputs.nested_payload
                            "/dst/.garmin_token_store" Inputs.fs_dst
    = (fs', Return "/dst/.garmin_token_store")
    /\ file_at ["dst"; ".garmin_token_store"; "oauth1_token.json"] fs'
       = Some Inputs.token1
    /\ file_at ["dst"; ".garmin_token_store"; "oauth2_token.json"] fs'
       = Some Inputs.token2
    /\ token_store_ready Inputs.rt0 "/dst/.garmin_token_store" fs' = true.
Proof.
  destruct (write_legacy_payload Inputs.rt0 MoreInputs.nested_payload
              "/dst/.garmin_token_store" Inputs.fs_dst
              (Dir [("home", Dir [("u", Dir [])]);
                    ("dst", Dir [(".garmin_token_store", Dir [])])])
              [("oauth1_token",
                JObject [("oauth_token", JString "a");
                         ("oauth_token_secret", JString "b")]);
               ("oauth2_token", JObject [("access_token", JString "c")])])
    as [fs' [E [A1 [A2 _]]]].
  - reflexivity.
  - reflexivity.
  - vm_compute. reflexivity.
  - vm_compute. reflexivity.
  - exists fs'. split; [exact E|]. split; [exact A1|]. split; [exact A2|].
    exact (ready_of_files Inputs.rt0 "/dst/.garmin_token_store" fs' _ _
             A1 A2).
Defined.

(** X8.  Bytes that are no zip archive and do not parse to a JSON object
    (they are not UTF-8, not JSON, or JSON that is a list, a string, a
    number or null) raise nothing: once the target, given by a plain path,
    is cleared the call returns the target path, and leaves the target an
    empty directory, a store that is not ready. *)
Theorem write_of_unusable_bytes rt token_bytes target fs fs1 :
  plain target = true ->
  _clear_and_prepare_dir rt target fs = (fs1, Return tt) ->
  zip_read rt token_bytes = None ->
  (forall items, parse_payload rt token_bytes <> Some (JObject items)) ->
  write_token_store_bytes rt token_bytes target fs = (fs1, Return target)
  /\ tree_get (resolve (cwd rt) target) fs1 = Some (Dir [])
  /\ token_store_ready rt target fs1 = false.
Proof.
  intros _ Hc Hz Hp.
  destruct (clear_spec rt target fs fs1 Hc) as [Hg _].
  split; [|split; [exact Hg|now apply empty_dir_not_ready]].
  rewrite (write_unfold_fallback _ _ _ _ _ Hc Hz), legacy_fallback_unfold.
  destruct (parse_payload rt token_bytes) as [[| | | | |items]|];
    try reflexivity.
  now destruct (Hp items).
Qed.

Lemma write_of_unusable_bytes_witness :
  let fs1 := Dir [("home", Dir [("u", Dir [])]);
                  ("dst", Dir [(".garmin_token_store", Dir [])])] in
  write_token_store_bytes Inputs.rt0 MoreInputs.junk
                          "/dst/.garmin_token_store" Inputs.fs_dst
  = (fs1, Return "/dst/.garmin_token_store")
  /\ tree_get (resolve (cwd Inputs.rt0) "/dst/.garmin_token_store") fs1
     = Some (Dir [])
  /\ token_store_ready Inputs.rt0 "/dst/.garmin_token_store" fs1 = false.
Proof.
  apply (write_of_unusable_bytes Inputs.rt0 MoreInputs.junk
           "/dst/.garmin_token_store" Inputs.fs_dst).
  - reflexivity.
  - reflexivity.
  - vm_compute. reflexivity.
  - intros items. vm_compute. discriminate.
Defined.

End Fallback.
(* ------------------------------------------------------------------ *)
(** ** When [_clear_and_prepare_dir] returns, and what
    [write_token_store_bytes] leaves alone *)

Module Clearing.
Import PyStr PosixPath FileSys Lib TokenStore FileSysFacts PathFacts CallFacts.
Import Spec MoreSpec WriteBytes SafeExtract.

Lemma tree_mkdirs_through_file p1 p2 n d :
  file_at p1 n = Some d -> p2 <> [] ->
  tree_mkdirs (p1 ++ p2) n = Err NotADirectoryError.
Proof.
  unfold file_at. revert n. induction p1 as [|a p1 IH]; intros n H Hp.
  - destruct n as [x|es]; [|discriminate].
    destruct p2; [contradiction|reflexivity].
  - destruct n as [x|es]; [discriminate|]. cbn [app tree_mkdirs tree_get] in *.
    destruct (assoc a es) as [child|]; [|discriminate].
    now rewrite (IH child H Hp).
Qed.

Lemma proper_prefix_not_below (p1 p2 : path) :
  p2 <> [] -> ~ below (p1 ++ p2) p1.
Proof.
  intros Hp [rest E]. rewrite <- app_assoc in E.
  rewrite <- (app_nil_r p1) in E at 1. apply app_inv_head in E.
  destruct p2; [contradiction|discriminate].
Qed.

Lemma is_dir_tree_del p n : is_dir (tree_del p n) = is_dir n.
Proof.
  destruct n as [d|es]; [destruct p; reflexivity|].
  destruct p as [|c [|c' p]]; cbn [tree_del]; try reflexivity.
  destruct (assoc c es); reflexivity.
Qed.

Lemma mkdirs_after_del p n :
  p <> [] -> no_file_above p n ->
  exists n', tree_mkdirs p (tree_del p n) = Ok n'.
Proof.
  intros Hp Hn. apply RoundTrip.tree_mkdirs_ok.
  - rewrite is_dir_tree_del.
    pose proof (Hn [] p eq_refl Hp) as H. unfold file_at in H.
    cbn [tree_get] in H. destruct n; [discriminate|reflexivity].
  - intros p1 p2 E. destruct p2 as [|c p2].
    + rewrite app_nil_r in E. subst p1. unfold file_at.
      pose proof (@tree_del_gone p [] n Hp) as G.
      rewrite app_nil_r in G. now rewrite G.
    + rewrite (@tree_del_files p n p1).
      * apply (Hn p1 (c :: p2) E). discriminate.
      * rewrite E. apply proper_prefix_not_below. discriminate.
Qed.


Lemma clear_returns rt target fs :
  resolve (cwd rt) target <> [] ->
  no_file_above (resolve (cwd rt) target) fs ->
  exists fs1, _clear_and_prepare_dir rt target fs = (fs1, Return tt).
Proof.
  intros Hp Hn. rewrite clear_unfold. unfold makedirs, lift.
  destruct (tree_get (resolve (cwd rt) target) fs) as [[d|es]|] eqn:Hg.
  - destruct (mkdirs_after_del _ fs Hp Hn) as [n' E]. rewrite E. eauto.
  - destruct (resolve (cwd rt) target) as [|c r] eqn:Hr; [contradiction|].
    destruct (mkdirs_after_del _ fs Hp Hn) as [n' E]. rewrite E. eauto.
  - destruct (RoundTrip.tree_mkdirs_ok (resolve (cwd rt) target) fs)
      as [n' E].
    + pose proof (Hn [] _ eq_refl Hp) as H. unfold file_at in H.
      cbn [tree_get] in H. destruct fs; [discriminate|reflexivity].
    + intros p1 p2 E. destruct p2 as [|c p2].
      * rewrite app_nil_r in E. subst p1. unfold file_at. now rewrite Hg.
      * apply (Hn p1 (c :: p2) E). discriminate.
    + rewrite E. eauto.
Qed.

Lemma clear_raises rt target fs p1 p2 d :
  resolve (cwd rt) target = p1 ++ p2 -> p2 <> [] ->
  file_at p1 fs = Some d ->
  _clear_and_prepare_dir rt target fs
  = (fs, Raise (OSError NotADirectoryError)).
Proof.
  intros E Hp Hf. rewrite clear_unfold. unfold makedirs, lift.
  assert (Hg : tree_get (resolve (cwd rt) target) fs = None).
  { rewrite E, (@tree_get_app p1 p2 fs). unfold file_at in Hf.
    destruct (tree_get p1 fs) as [[x|es]|]; try discriminate.
    destruct p2; [contradiction|reflexivity]. }
  rewrite Hg, E. now rewrite (tree_mkdirs_through_file p1 p2 fs d Hf Hp).
Qed.

(** X9.  For a target other than the root, given by a plain path,
    [_clear_and_prepare_dir] returns, with the target an empty directory
    and the missing directories on the way to it made, whenever no regular
    file stands at a proper prefix of the target path; when one does, it
    raises [NotADirectoryError] and changes nothing, and so does
    [write_token_store_bytes], whatever the bytes. *)
Theorem clearing_returns_unless_a_file_is_in_the_way rt target fs :
  plain target = true ->
  resolve (cwd rt) target <> [] ->
  (no_file_above (resolve (cwd rt) target) fs ->
   exists fs1,
     _clear_and_prepare_dir rt target fs = (fs1, Return tt)
     /\ tree_get (resolve (cwd rt) target) fs1 = Some (Dir []))
  /\ (forall p1 p2 d token_bytes,
         resolve (cwd rt) target = p1 ++ p2 -> p2 <> [] ->
         file_at p1 fs = Some d ->
         _clear_and_prepare_dir rt target fs
         = (fs, Raise (OSError NotADirectoryError))
         /\ write_token_store_bytes rt token_bytes target fs
            = (fs, Raise (OSError NotADirectoryError))).
Proof.
  intros _ Hp. split.
  - intros Hn. destruct (clear_returns rt target fs Hp Hn) as [fs1 E].
    exists fs1. split; [exact E|].
    exact (proj1 (clear_spec rt target fs fs1 E)).
  - intros p1 p2 d token_bytes E Hp2 Hf.
    pose proof (clear_raises rt target fs p1 p2 d E Hp2 Hf) as Hc.
    split; [exact Hc|]. rewrite write_unfold. unfold bind.
    now rewrite Hc.
Qed.

Lemma clearing_returns_unless_a_file_is_in_the_way_witness :
  (exists fs1,
      _clear_and_prepare_dir Inputs.rt0 "/d/new/store" Inputs.fs_legacy
      = (fs1, Return tt)
      /\ tree_get ["d"; "new"; "store"] fs1 = Some (Dir []))
  /\ write_token_store_bytes Inputs.rt0 MoreInputs.junk "/legacy.json/store"
                             Inputs.fs_legacy
     = (Inputs.fs_legacy, Raise (OSError NotADirectoryError)).
Proof.
  split.
  - apply (proj1 (clearing_returns_unless_a_file_is_in_the_way
                    Inputs.rt0 "/d/new/store" Inputs.fs_legacy
                    eq_refl ltac:(discriminate))).
    intros p1 p2 E Hp2.
    destruct p1 as [|a [|b [|c [|x p1]]]]; inversion E; subst;
      try reflexivity; try contradiction.
  - apply (proj2 (clearing_returns_unless_a_file_is_in_the_way
                    Inputs.rt0 "/legacy.json/store" Inputs.fs_legacy
                    eq_refl ltac:(discriminate))
             ["legacy.json"] ["store"]
             (Demo.text (Demo.q "{'oauth1_token': {'oauth_token': 'a', 'oauth_token_secret': 'b'}, 'oauth2_token': {'access_token': 'c'}}"))
             MoreInputs.junk); [reflexivity|discriminate|reflexivity].
Defined.

(** *** Nothing outside the target is touched *)

Section WithRuntime.
Variable rt : Runtime.
Local Abbreviation resolve := (FileSys.resolve (cwd rt)).

Lemma ko_ret {A} t (a : A) : keeps_outside t (ret a).
Proof. intros fs q _. now split. Qed.

Lemma ko_raise {A} t e : keeps_outside t (@raise A e).
Proof. intros fs q _. now split. Qed.

Lemma ko_bind {A B} t (c : M A) (k : A -> M B) :
  keeps_outside t c -> (forall a, keeps_outside t (k a)) ->
  keeps_outside t (bind c k).
Proof.
  intros Hc Hk fs q Hq. unfold bind. destruct (Hc fs q Hq) as [F D].
  destruct (c fs) as [fs' [a|e]]; cbn [fst] in *; [|now split].
  destruct (Hk a fs' q Hq) as [F' D']. split; [congruence|auto].
Qed.

Lemma ko_for_each {X} t (xs : list X) body :
  (forall x, keeps_outside t (body x)) ->
  keeps_outside t (for_each xs body).
Proof.
  intros H. induction xs as [|x xs IH]; [apply ko_ret|].
  cbn [for_each]. apply ko_bind; [apply H|now intros _].
Qed.

Lemma ko_makedirs t p : keeps_outside t (makedirs (cwd rt) p).
Proof.
  intros fs q _. split; [apply makedirs_files|apply (kd_makedirs rt p fs q)].
Qed.

Lemma ko_write_file t p data :
  below t (resolve p) -> keeps_outside t (write_file (cwd rt) p data).
Proof.
  intros Hb fs q Hq. split.
  - apply write_file_frame. intros E. subst q. contradiction.
  - intros Hd. now rewrite write_file_dirs.
Qed.

Lemma ko_extract_member target m :
  keeps_outside (resolve target)
                (extract_member rt (abspath (cwd rt) target) m).
Proof.
  unfold extract_member.
  destruct (negb (nonempty (filename m))); [apply ko_ret|].
  destruct (safe_destination rt (abspath (cwd rt) target) (filename m))
    as [dest|] eqn:Hd; [|apply ko_raise].
  destruct (member_is_dir m); [apply ko_makedirs|].
  apply ko_bind; [apply ko_makedirs|]. intros _.
  apply ko_write_file. exact (safe_destination_below rt target _ dest Hd).
Qed.

Lemma ko_maybe_write t name o :
  valid_name name = true ->
  keeps_outside (resolve t) (maybe_write rt t name o).
Proof.
  intros Hn. destruct o as [v|]; [|apply ko_ret].
  apply ko_write_file. exists [name].
  unfold FileSys.resolve. now rewrite resolve_join_name.
Qed.

Lemma ko_legacy_fallback b t :
  keeps_outside (resolve t) (legacy_fallback rt b t).
Proof.
  rewrite legacy_fallback_unfold.
  destruct (parse_payload rt b) as [[| | | | |items]|]; try apply ko_ret.
  repeat (apply ko_bind; [now apply ko_maybe_write|intros _]).
  now apply ko_maybe_write.
Qed.

Lemma ko_try_except {A} t (c : M A) caught handler :
  keeps_outside t c -> keeps_outside t handler ->
  keeps_outside t (try_except c caught handler).
Proof.
  intros Hc Hh fs q Hq. unfold try_except. destruct (Hc fs q Hq) as [F D].
  destruct (c fs) as [fs' [a|e]]; cbn [fst] in *; [now split|].
  destruct (caught e); [|now split].
  destruct (Hh fs' q Hq) as [F' D']. split; [congruence|auto].
Qed.

Lemma ko_extract_entry target entry :
  keeps_outside (resolve target)
                (extract_entry rt (abspath (cwd rt) target) entry).
Proof.
  destruct entry as [m|name written e]; [apply ko_extract_member|].
  cbn [extract_entry]. unfold extract_unreadable.
  destruct (negb (nonempty name)); [apply ko_ret|].
  destruct (safe_destination rt (abspath (cwd rt) target) name)
    as [dest|] eqn:Hd; [|apply ko_raise].
  destruct (endswith_sep name); [apply ko_makedirs|].
  apply ko_bind; [apply ko_makedirs|]. intros _.
  destruct written as [data|]; [|apply ko_raise].
  apply ko_bind; [|intros _; apply ko_raise].
  apply ko_write_file. exact (safe_destination_below rt target _ dest Hd).
Qed.

Lemma ko_after_clear b t : keeps_outside (resolve t) (after_clear rt b t).
Proof.
  unfold after_clear. apply ko_bind.
  - apply ko_try_except; [|apply ko_ret]. unfold open_and_extract.
    destruct (zip_read rt b) as [archive|]; [|apply ko_raise].
    apply ko_bind; [|intros; apply ko_ret].
    apply ko_for_each. intros m. apply ko_extract_entry.
  - intros [|]; [apply ko_ret|].
    apply ko_bind; [|intros; apply ko_ret]. apply ko_legacy_fallback.
Qed.


Lemma ko_clear t : keeps_outside (resolve t) (_clear_and_prepare_dir rt t).
Proof.
  intros fs q Hq. rewrite clear_unfold.
  destruct (tree_get (resolve t) fs) as [[x|es]|] eqn:Hg.
  - destruct (ko_makedirs (resolve t) t (tree_del (resolve t) fs) q Hq)
      as [F D].
    rewrite F, (@tree_del_files (resolve t) fs q Hq). split; [reflexivity|].
    intros Hd. apply D. now rewrite (@tree_del_dirs (resolve t) fs q Hq).
  - destruct (resolve t) as [|c r] eqn:Hr.
    + exfalso. apply Hq. now exists q.
    + rewrite <- Hr in *.
      destruct (ko_makedirs (resolve t) t (tree_del (resolve t) fs) q Hq)
        as [F D].
      rewrite F, (@tree_del_files (resolve t) fs q Hq). split; [reflexivity|].
      intros Hd. apply D. now rewrite (@tree_del_dirs (resolve t) fs q Hq).
  - exact (ko_makedirs (resolve t) t fs q Hq).
Qed.

End WithRuntime.

(** X10.  Whatever the bytes, and whether the call returns or raises,
    [write_token_store_bytes] changes and removes no regular file that is
    not at or below the target, and removes no directory that is not at or
    below it. *)
Theorem write_touches_nothing_outside rt token_bytes target fs q :
  ~ below (resolve (cwd rt) target) q ->
  file_at q (fst (write_token_store_bytes rt token_bytes target fs))
  = file_at q fs
  /\ (dir_at q fs = true ->
      dir_at q (fst (write_token_store_bytes rt token_bytes target fs))
      = true).
Proof.
  intros Hq.
  assert (H : keeps_outside (resolve (cwd rt) target)
                            (write_token_store_bytes rt token_bytes target)).
  { change (write_token_store_bytes rt token_bytes target)
      with (bind (_clear_and_prepare_dir rt target)
                 (fun _ => after_clear rt token_bytes target)).
    apply ko_bind; [apply ko_clear|intros _; apply ko_after_clear]. }
  exact (H fs q Hq).
Qed.

Lemma write_touches_nothing_outside_witness :
  file_at ["src"; "oauth1_token.json"]
          (fst (write_token_store_bytes Inputs.rt0 Inputs.evil_zip "/dst"
                                        Inputs.fs_store))
  = Some Inputs.token1.
Proof.
  apply (write_touches_nothing_outside Inputs.rt0 Inputs.evil_zip "/dst"
           Inputs.fs_store ["src"; "oauth1_token.json"]).
  intros [rest E]. discriminate.
Defined.



End Clearing.
(* ------------------------------------------------------------------ *)
(** ** The round trip copies the whole tree *)

Module Mirror.
Import PyStr PosixPath FileSys Lib TokenStore FileSysFacts PathFacts CallFacts.
Import Spec MoreSpec WriteBytes Encode Archive.

Lemma file_path_fields n :
  wf_node n -> forall q d, file_at q n = Some d -> Forall field q.
Proof.
  induction n as [x|es IH] using node_induction; intros Hwf q d Hf.
  - destruct q; [constructor|discriminate].
  - destruct q as [|c q]; [constructor|].
    inversion Hwf as [|? Hnd Hall]; subst.
    unfold file_at in Hf. cbn [tree_get] in Hf.
    destruct (assoc c es) as [child|] eqn:Ha; [|discriminate].
    apply RoundTrip.assoc_in in Ha. rewrite Forall_forall in IH, Hall.
    destruct (Hall _ Ha) as [Hv Hwc]. cbn [fst snd] in Hv, Hwc.
    constructor; [now apply field_valid|].
    exact (IH _ Ha Hwc q d Hf).
Qed.

(** Encode [directory], decode, and write into [target], when the clearing
    of the target returns: the target then holds the files of the
    directory as it was, and no other. *)
Lemma round_trip_mirror rt directory target fs es fs1 :
  stat (cwd rt) directory fs = Some (Dir es) ->
  wf_node (Dir es) -> portable (Dir es) ->
  _clear_and_prepare_dir rt target fs = (fs1, Return tt) ->
  codec_round_trip rt (archive_of rt directory fs) ->
  exists encoded token_bytes fs',
    encode_token_store_dir_as_zip_b64 rt directory fs = (fs, Return encoded)
    /\ decode_token_store_b64 rt encoded = Return token_bytes
    /\ write_token_store_bytes rt token_bytes target fs
       = (fs', Return target)
    /\ (forall q, file_at (resolve (cwd rt) target ++ q) fs'
                  = file_at q (Dir es))
    /\ (forall q, dir_at (resolve (cwd rt) target ++ q) fs' = true ->
                  dir_at q (Dir es) = true).
Proof.
  intros Hs Hwf Hp Hc Hcodec.
  set (src := Dir es) in *.
  unfold archive_of in Hcodec.
  rewrite (archive_members_spec rt directory fs src Hs Hwf) in Hcodec.
  cbn [snd] in Hcodec. destruct Hcodec as [Hne [Hzip Hb64]].
  set (ms := tree_members [] src) in *.
  destruct (clear_spec rt target fs fs1 Hc) as [Hg _].
  destruct (clear_is_mkdirs_after_del rt target fs fs1 Hc) as [Ht _].
  assert (Hmir : mirrors (resolve (cwd rt) target) src fs1).
  { unfold mirrors, dir_at, file_at.
    split; [now rewrite Hg|]. split; intros q; rewrite tree_get_app, Hg.
    - destruct q; discriminate.
    - destruct q; [intros _; reflexivity|discriminate]. }
  destruct (RoundTrip.extract_all_mirrors rt target src ms Ht
              (RoundTrip.members_of_src src Hwf Hp) fs1 Hmir)
    as [fs2 [He [[_ [Hfiles Hdirs]] [_ Hnew]]]].
  exists (b64encode rt (zip_write rt ms)), (zip_write rt ms), fs2.
  split; [|split; [|split; [|split]]].
  - unfold encode_token_store_dir_as_zip_b64, bind.
    rewrite (archive_members_spec rt directory fs src Hs Hwf). fold ms.
    destruct (zip_write rt ms); [contradiction|reflexivity].
  - unfold decode_token_store_b64. now rewrite Hb64.
  - rewrite WriteBytes.write_unfold. unfold bind at 1.
    rewrite Hc, (WriteBytes.after_clear_zip rt _ _ _ _ Hzip).
    now rewrite WriteBytes.extraction_of_readable, He.
  - intros q.
    destruct (file_at q src) as [d|] eqn:Hq.
    + assert (Hq0 : q <> []) by (intros ->; discriminate).
      apply (Hnew (mkMember (join_sep q) d) q).
      * exact (files_are_members src [] q d Hq0 Hq).
      * exact Hq0.
      * exact (file_path_fields src Hwf q d Hq).
      * reflexivity.
    + destruct (file_at (resolve (cwd rt) target ++ q) fs2) as [d|] eqn:Hq2;
        [|reflexivity].
      rewrite (Hfiles q d Hq2) in Hq. discriminate.
  - exact Hdirs.
Qed.


Lemma isfile_as_file_at rt p fs :
  isfile (cwd rt) p fs
  = match file_at (resolve (cwd rt) p) fs with
    | Some _ => true
    | None => false
    end.
Proof.
  unfold isfile, stat, file_at.
  now destruct (tree_get (resolve (cwd rt) p) fs) as [[d|l]|].
Qed.

Lemma ready_as_file_at rt t fs :
  token_store_ready rt t fs
  = match file_at (resolve (cwd rt) t ++ [OAUTH1_TOKEN_FILENAME]) fs with
    | Some _ => true
    | None => false
    end
    && match file_at (resolve (cwd rt) t ++ [OAUTH2_TOKEN_FILENAME]) fs with
       | Some _ => true
       | None => false
       end.
Proof.
  unfold token_store_ready. rewrite !isfile_as_file_at. unfold resolve.
  rewrite (@resolve_join_name (cwd rt) t OAUTH1_TOKEN_FILENAME eq_refl).
  now rewrite (@resolve_join_name (cwd rt) t OAUTH2_TOKEN_FILENAME eq_refl).
Qed.

(** X11.  The round trip copies the whole tree, not only the two token
    files. For plain paths, a directory in which no name has a backslash,
    and a target whose clearing returns (it may exist already, and may even
    be the directory itself): encoding the directory, decoding the text and
    writing the bytes to the target returns the target, and the target then
    holds, at every depth, a regular file exactly where the directory held
    one when it was encoded, with the same content; it holds no directory
    that the directory did not hold; and it is ready exactly when the
    directory was. *)
Theorem round_trip_copies_the_tree rt directory target fs es fs1 :
  plain directory = true -> plain target = true ->
  stat (cwd rt) directory fs = Some (Dir es) ->
  wf_node (Dir es) -> portable (Dir es) ->
  _clear_and_prepare_dir rt target fs = (fs1, Return tt) ->
  codec_round_trip rt (archive_of rt directory fs) ->
  exists encoded token_bytes fs',
    encode_token_store_dir_as_zip_b64 rt directory fs = (fs, Return encoded)
    /\ decode_token_store_b64 rt encoded = Return token_bytes
    /\ write_token_store_bytes rt token_bytes target fs
       = (fs', Return target)
    /\ (forall q, file_at (resolve (cwd rt) target ++ q) fs'
                  = file_at q (Dir es))
    /\ (forall q, dir_at (resolve (cwd rt) target ++ q) fs' = true ->
                  dir_at q (Dir es) = true)
    /\ token_store_ready rt target fs' = token_store_ready rt directory fs.
Proof.
  intros _ _ Hs Hwf Hp Hc Hcodec.
  destruct (round_trip_mirror rt directory target fs es fs1 Hs Hwf Hp Hc
              Hcodec)
    as [encoded [token_bytes [fs' [E [D [W [Hf Hd]]]]]]].
  exists encoded, token_bytes, fs'.
  repeat (split; [assumption|]).
  rewrite !ready_as_file_at, !Hf. unfold file_at.
  unfold stat in Hs. now rewrite !(@tree_get_app _ _ fs), Hs.
Qed.

Lemma round_trip_copies_the_tree_witness :
  exists encoded token_bytes fs',
    encode_token_store_dir_as_zip_b64 Inputs.rt0 "/src" Inputs.fs_store
    = (Inputs.fs_store, Return encoded)
    /\ decode_token_store_b64 Inputs.rt0 encoded = Return token_bytes
    /\ write_token_store_bytes Inputs.rt0 token_bytes "/dst/store"
                               Inputs.fs_store
       = (fs', Return "/dst/store")
    /\ (forall q, file_at (["dst"; "store"] ++ q) fs'
                  = file_at q Inputs.store_tree)
    /\ token_store_ready Inputs.rt0 "/dst/store" fs' = true.
Proof.
  destruct (round_trip_copies_the_tree Inputs.rt0 "/src" "/dst/store"
              Inputs.fs_store
              [("oauth2_token.json", File Inputs.token2);
               ("oauth1_token.json", File Inputs.token1);
               ("sub", Dir [("note", File (Demo.text "n"))])]
              (Dir [("home", Dir [("u", Dir [])]); ("src", Inputs.store_tree);
                    ("dst", Dir [("store", Dir [])])]))
    as [encoded [token_bytes [fs' [E [D [W [Hf [_ R]]]]]]]].
  - reflexivity.
  - reflexivity.
  - reflexivity.
  - exact store_tree_wf.
  - repeat constructor.
  - reflexivity.
  - split; [vm_compute; discriminate|split; vm_compute; reflexivity].
  - exists encoded, token_bytes, fs'.
    split; [exact E|]. split; [exact D|]. split; [exact W|].
    split; [exact Hf|]. rewrite R. reflexivity.
Defined.

End Mirror.
(* ------------------------------------------------------------------ *)
(** ** Where [_safe_extract_zip] writes a member *)

Module Extraction.
Import PyStr PosixPath FileSys Lib TokenStore FileSysFacts PathFacts CallFacts.
Import Spec MoreSpec WriteBytes PathStrings NormalPaths.

Lemma replace_has_no_backslash s :
  no_backslash (replace_char backslash sep_char s) = true.
Proof.
  induction s as [|x s IH]; [reflexivity|]. cbn [replace_char no_backslash].
  rewrite IH, andb_true_r.
  destruct (Ascii.eqb x backslash) eqn:E; [reflexivity|now rewrite E].
Qed.

Lemma replace_nonempty a b s :
  nonempty (replace_char a b s) = nonempty s.
Proof. now destruct s. Qed.

Lemma replace_endswith_sep s :
  endswith_sep s = true ->
  endswith_sep (replace_char backslash sep_char s) = true.
Proof.
  induction s as [|x s IH]; [discriminate|].
  destruct s as [|y s].
  - cbn. unfold is_sep. intros H. apply Ascii.eqb_eq in H. now subst x.
  - intros H. apply IH in H. exact H.
Qed.

Lemma no_backslash_tail_parts l :
  no_backslash (tail_str l) = true ->
  Forall (fun c => no_backslash c = true) l.
Proof.
  induction l as [|c l IH]; intros H; [constructor|].
  cbn [tail_str] in H.
  change ("/" +++ c +++ tail_str l) with (String "/" (c +++ tail_str l)) in H.
  cbn [no_backslash] in H. apply andb_prop in H. destruct H as [_ H].
  rewrite no_backslash_app in H. apply andb_prop in H. destruct H as [Hc Hl].
  constructor; [exact Hc|now apply IH].
Qed.

Lemma no_backslash_parts l :
  no_backslash (join_sep l) = true ->
  Forall (fun c => no_backslash c = true) l.
Proof.
  destruct l as [|c l]; intros H; [constructor|].
  rewrite join_sep_cons, no_backslash_app in H.
  apply andb_prop in H. destruct H as [Hc Hl].
  constructor; [exact Hc|now apply no_backslash_tail_parts].
Qed.

(** The tests look at the normalized name only. *)
Lemma safe_destination_normalized rt target_abs raw :
  safe_destination rt target_abs raw
  = safe_destination rt target_abs (normalized raw).
Proof.
  unfold safe_destination, normalized.
  now rewrite (replace_no_backslash sep_char _ (replace_has_no_backslash raw)).
Qed.

(** X12.  A member whose data is read well and whose name, with every
    backslash read as [/], is the relative path [q] of plain names is
    written at [q] below the target: when the target is a directory, no
    regular file stands at a proper prefix of [q] below it and no directory
    stands at [q], the member is extracted without an exception; the missing directories on the way are
    made, the file at [q] below the target holds the content of the member
    (in place of what a file there held before), and every other regular
    file and every directory is kept as it was. *)
Theorem member_is_written_below_target rt target m q fs :
  resolve (cwd rt) target <> [] ->
  q <> [] -> Forall field q ->
  normalized (filename m) = join_sep q ->
  dir_at (resolve (cwd rt) target) fs = true ->
  (forall p1 p2, q = p1 ++ p2 -> p2 <> [] ->
                 file_at (resolve (cwd rt) target ++ p1) fs = None) ->
  dir_at (resolve (cwd rt) target ++ q) fs = false ->
  exists fs',
    extract_member rt (abspath (cwd rt) target) m fs = (fs', Return tt)
    /\ file_at (resolve (cwd rt) target ++ q) fs' = Some (content m)
    /\ (forall p, p <> resolve (cwd rt) target ++ q ->
                  file_at p fs' = file_at p fs)
    /\ (forall p1 p2, q = p1 ++ p2 ->
                      p2 <> [] ->
                      dir_at (resolve (cwd rt) target ++ p1) fs' = true)
    /\ (forall p, dir_at p fs = true -> dir_at p fs' = true).
Proof.
  intros Ht Hq Hf Hname Mt Hfree Hnodir.
  set (tc := resolve (cwd rt) target) in *.
  assert (Hn : Forall (fun c => no_backslash c = true) q).
  { apply no_backslash_parts. rewrite <- Hname.
    apply replace_has_no_backslash. }
  destruct (RoundTrip.safe_destination_of_names rt target q Ht Hq Hf Hn)
    as [dest [Hsd [Hr Hrd]]].
  fold tc in Hr, Hrd.
  rewrite <- Hname, <- safe_destination_normalized in Hsd.
  assert (Hroot : is_dir fs = true) by now apply (RoundTrip.dir_at_root tc).
  assert (Hlast : q = removelast q ++ [last q ""])
    by now apply app_removelast_last.
  assert (Hpre : forall p1 p2, tc ++ removelast q = p1 ++ p2 ->
                               file_at p1 fs = None).
  { intros p1 p2 E. apply app_eq_app in E.
    destruct E as [l [[E1 E2]|[E1 E2]]].
    - apply RoundTrip.dir_not_file. apply (RoundTrip.dir_at_prefix p1 l).
      now rewrite <- E1.
    - subst p1. apply (Hfree l (p2 ++ [last q ""])).
      + now rewrite app_assoc, <- E2, <- Hlast.
      + now destruct p2. }
  destruct (RoundTrip.tree_mkdirs_ok (tc ++ removelast q) fs Hroot Hpre)
    as [fa Ha].
  assert (Hda : dir_at (tc ++ removelast q) fa = true)
    by exact (@tree_mkdirs_dir _ _ _ Ha).
  assert (Hnd : dir_at (tc ++ q) fa = false).
  { destruct (dir_at (tc ++ q) fa) eqn:Hd; [|reflexivity]. exfalso.
    destruct (RoundTrip.tree_mkdirs_new_dirs _ _ _ _ Ha Hd) as [Hold|[r Hr']].
    - congruence.
    - rewrite <- app_assoc in Hr'. apply app_inv_head in Hr'.
      now apply (RoundTrip.removelast_shorter q r Hq). }
  assert (Hw : exists fb, tree_write (tc ++ q) (content m) fa = Ok fb).
  { rewrite Hlast, app_assoc. apply tree_write_possible.
    - exact Hda.
    - now rewrite <- app_assoc, <- Hlast. }
  destruct Hw as [fb Hb].
  assert (Hraw : nonempty (filename m) = true).
  { rewrite <- (replace_nonempty backslash sep_char).
    fold (normalized (filename m)).
    rewrite Hname. now apply RoundTrip.nonempty_names. }
  assert (Hnotdir : member_is_dir m = false).
  { unfold member_is_dir.
    destruct (endswith_sep (filename m)) eqn:E; [|reflexivity].
    apply replace_endswith_sep in E. fold (normalized (filename m)) in E.
    rewrite Hname, (RoundTrip.endswith_sep_names q Hq Hf) in E.
    discriminate. }
  exists fb. split; [|split; [|split; [|split]]].
  - unfold extract_member. rewrite Hraw. cbn [negb]. rewrite Hsd, Hnotdir.
    unfold bind, makedirs, write_file, lift, FileSys.resolve in *.
    rewrite Hrd, Ha, Hr, Hb. reflexivity.
  - unfold file_at. now rewrite (@tree_write_get _ _ _ _ Hb).
  - intros p Hp. rewrite (@tree_write_frame _ _ _ _ p Hb Hp).
    exact (@tree_mkdirs_files _ _ _ p Ha).
  - intros p1 p2 E Hp2. rewrite (@tree_write_dir _ _ _ _ _ Hb).
    destruct (exists_last Hp2) as [p2' [x Hx]]. subst p2.
    rewrite app_assoc in E. rewrite Hlast in E.
    apply app_inj_tail in E. destruct E as [E _].
    apply (RoundTrip.dir_at_prefix (tc ++ p1) p2').
    now rewrite <- app_assoc, <- E.
  - intros p Hp. rewrite (@tree_write_dir _ _ _ _ _ Hb).
    exact (@tree_mkdirs_keeps_dirs _ _ _ _ Ha Hp).
Qed.

Lemma member_is_written_below_target_witness :
  exists fs',
    extract_member Inputs.rt0 (abspath (cwd Inputs.rt0) "/dst")
                   (mkMember "a\b/c.json" (Demo.text "x")) Inputs.fs_dst
    = (fs', Return tt)
    /\ file_at ["dst"; "a"; "b"; "c.json"] fs' = Some (Demo.text "x")
    /\ dir_at ["dst"; "a"; "b"] fs' = true.
Proof.
  destruct (member_is_written_below_target Inputs.rt0 "/dst"
              (mkMember "a\b/c.json" (Demo.text "x")) ["a"; "b"; "c.json"]
              Inputs.fs_dst)
    as [fs' [E [F [_ [D _]]]]].
  - discriminate.
  - discriminate.
  - repeat constructor.
  - reflexivity.
  - reflexivity.
  - intros p1 p2 Eq Hp2.
    destruct p1 as [|a [|b [|c p1]]]; inversion Eq; subst; try reflexivity;
      try contradiction.
  - reflexivity.
  - exists fs'. split; [exact E|]. split; [exact F|].
    apply (D ["a"; "b"] ["c.json"]); [reflexivity|discriminate].
Defined.

End Extraction.
(* ------------------------------------------------------------------ *)
(** ** Members that stand for a directory *)

Module DirectoryMembers.
Import PyStr PosixPath FileSys Lib TokenStore FileSysFacts PathFacts CallFacts.
Import Spec MoreSpec WriteBytes PathStrings NormalPaths.

Lemma split_dir_name q :
  q <> [] -> Forall field q ->
  split_sep (join_sep q +++ "/") = q ++ [""].
Proof.
  intros Hq Hf.
  change (join_sep q +++ "/") with (join_sep q +++ String sep_char "").
  rewrite split_sep_app.
  now rewrite (split_join_sep Hq (fields_no_sep q Hf)).
Qed.

Lemma dir_name_rel q :
  q <> [] -> Forall field q -> isabs (join_sep q +++ "/") = false.
Proof.
  intros Hq Hf. destruct q as [|c l]; [contradiction|].
  rewrite join_sep_cons.
  destruct (field_first c) as [x [r [-> Hx]]]; [now inversion Hf|].
  now rewrite isabs_spec.
Qed.

Lemma dir_name_tests q :
  q <> [] -> Forall field q ->
  startswith (join_sep q +++ "/") "/" = false
  /\ startswith (join_sep q +++ "/") "../" = false
  /\ contains "/../" (join_sep q +++ "/") = false
  /\ String.eqb (join_sep q +++ "/") ".." = false.
Proof.
  intros Hq Hf.
  pose proof (split_dir_name q Hq Hf) as Hs.
  assert (Hdd : ~ In ".." (q ++ [""])).
  { intros Hin. apply in_app_or in Hin. destruct Hin as [Hin|[Hin|[]]].
    - now apply (fields_no_dotdot q Hf).
    - discriminate. }
  split; [|split; [|split]].
  - exact (dir_name_rel q Hq Hf).
  - destruct (startswith (join_sep q +++ "/") "../") eqn:E; [|reflexivity].
    exfalso. apply prefix_split in E. destruct E as [r Hr].
    apply Hdd. rewrite <- Hs, Hr.
    change ("../" +++ r) with (".." +++ String sep_char r).
    rewrite split_sep_app. now left.
  - destruct (contains "/../" (join_sep q +++ "/")) eqn:E; [|reflexivity].
    exfalso. apply contains_split in E. destruct E as [a [b Hab]].
    apply Hdd. rewrite <- Hs, Hab. apply split_sep_dotdot_mid.
  - destruct (String.eqb_spec (join_sep q +++ "/") ".."); [|reflexivity].
    exfalso. apply Hdd. rewrite <- Hs, e. now left.
Qed.


(** Below a target that is not the root, the destination of a member
    named by names and a final separator. *)
Lemma destination_of_dir_name cwd t q :
  abs_components cwd t <> [] -> q <> [] -> Forall field q ->
  let dest := abspath cwd (join (abspath cwd t) (join_sep q +++ "/")) in
  dest = abspath cwd t +++ "/" +++ join_sep q
  /\ abs_components cwd dest = abs_components cwd t ++ q.
Proof.
  intros Ht Hq Hf dest.
  destruct (abspath_form cwd t) as [n [Hn Ha]].
  assert (H0 : n <> 0) by (destruct Hn; subst; discriminate).
  pose proof (@resolve_fields cwd t) as Htf.
  set (tc := abs_components cwd t) in *.
  assert (Hall : Forall field (tc ++ q)) by (apply Forall_app; now split).
  assert (Hne : tc ++ q <> []) by now destruct tc.
  assert (Hj : join (abspath cwd t) (join_sep q +++ "/")
               = slashes n +++ join_sep (tc ++ q) +++ "/").
  { rewrite join_rel; [| | |exact (dir_name_rel q Hq Hf)].
    - rewrite Ha, join_sep_app by exact Ht.
      destruct q as [|c l]; [contradiction|].
      now rewrite tail_str_join, !append_assoc.
    - rewrite Ha. now apply nonempty_slashes.
    - rewrite Ha. now apply endswith_sep_normal. }
  assert (Hd : dest = slashes n +++ join_sep (tc ++ q)).
  { unfold dest, abspath at 1, absolutize. rewrite Hj.
    rewrite (@isabs_slashes n _ H0).
    destruct (normpath_abs_form (slashes n +++ join_sep (tc ++ q) +++ "/")
                (@isabs_slashes n _ H0)) as [_ ->].
    assert (Hc : norm_comps true
                   (split_sep (slashes n +++ join_sep (tc ++ q) +++ "/"))
                 = tc ++ q).
    { unfold norm_comps. rewrite norm_skip_empty.
      fold (fcomps (slashes n +++ join_sep (tc ++ q) +++ "/")).
      rewrite fcomps_slashes.
      change (join_sep (tc ++ q) +++ "/")
        with (join_sep (tc ++ q) +++ String sep_char "").
      rewrite fcomps_app, fcomps_empty, app_nil_r, fcomps_join_sep
        by exact Hall.
      exact (@norm_proper true (tc ++ q) [] (fields_proper _ Hall)). }
    rewrite Hc. f_equal. f_equal.
    destruct (tc ++ q) as [|c l] eqn:E; [contradiction|].
    rewrite join_sep_cons.
    destruct (field_first c) as [x [r [-> Hx]]]; [now inversion Hall|].
    cbn [String.append]. exact (initial_slashes_normal n x _ Hn Hx). }
  split.
  - rewrite Hd, Ha, join_sep_app by exact Ht.
    destruct q as [|c l]; [contradiction|].
    now rewrite tail_str_join, !append_assoc.
  - rewrite Hd. now apply resolve_normal.
Qed.


Lemma safe_destination_of_dir_name rt t q :
  resolve (cwd rt) t <> [] -> q <> [] -> Forall field q ->
  Forall (fun c => no_backslash c = true) q ->
  exists dest,
    safe_destination rt (abspath (cwd rt) t) (join_sep q +++ "/") = Some dest
    /\ resolve (cwd rt) dest = resolve (cwd rt) t ++ q.
Proof.
  intros Ht Hq Hf Hn.
  destruct (destination_of_dir_name (cwd rt) t q Ht Hq Hf) as [Hd Hr].
  exists (abspath (cwd rt) (join (abspath (cwd rt) t) (join_sep q +++ "/"))).
  split; [|exact Hr].
  unfold safe_destination.
  assert (Hnb : no_backslash (join_sep q +++ "/") = true).
  { rewrite no_backslash_app, (no_backslash_join_sep q Hn). reflexivity. }
  rewrite (replace_no_backslash sep_char _ Hnb).
  destruct (dir_name_tests q Hq Hf) as [T1 [T2 [T3 T4]]].
  rewrite T1, T2, T3, T4. cbn [orb].
  assert (Hs : startswith
                 (abspath (cwd rt)
                    (join (abspath (cwd rt) t) (join_sep q +++ "/")))
                 (abspath (cwd rt) t +++ "/") = true).
  { rewrite Hd. unfold startswith. rewrite <- append_assoc.
    apply prefix_append. }
  rewrite Hs. now rewrite andb_false_r.
Qed.

(** X13.  A member whose name ends with [/] stands for a directory: when
    its name, with every backslash read as [/], is the relative path [q] of
    plain names followed by [/], the target is a directory and no regular
    file stands at [q] below it or at a prefix of it, the member is
    extracted without an exception; the directory at [q] below the target
    is there afterwards, with the directories on the way to it; no regular
    file is written, changed or removed (the content of the member is not
    looked at), and no directory is removed. *)
Theorem directory_member_makes_the_directory rt target m q fs :
  resolve (cwd rt) target <> [] ->
  q <> [] -> Forall field q ->
  normalized (filename m) = join_sep q +++ "/" ->
  member_is_dir m = true ->
  dir_at (resolve (cwd rt) target) fs = true ->
  (forall p1 p2, q = p1 ++ p2 ->
                 file_at (resolve (cwd rt) target ++ p1) fs = None) ->
  exists fs',
    extract_member rt (abspath (cwd rt) target) m fs = (fs', Return tt)
    /\ (forall p1 p2, q = p1 ++ p2 ->
                      dir_at (resolve (cwd rt) target ++ p1) fs' = true)
    /\ (forall p, file_at p fs' = file_at p fs)
    /\ (forall p, dir_at p fs = true -> dir_at p fs' = true).
Proof.
  intros Ht Hq Hf Hname Hdir Mt Hfree.
  set (tc := resolve (cwd rt) target) in *.
  assert (Hnb : no_backslash (join_sep q +++ "/") = true).
  { rewrite <- Hname. apply Extraction.replace_has_no_backslash. }
  assert (Hn : Forall (fun c => no_backslash c = true) q).
  { apply Extraction.no_backslash_parts.
    rewrite no_backslash_app in Hnb. apply andb_prop in Hnb. tauto. }
  destruct (safe_destination_of_dir_name rt target q Ht Hq Hf Hn)
    as [dest [Hsd Hr]].
  fold tc in Hr.
  rewrite <- Hname, <- Extraction.safe_destination_normalized in Hsd.
  assert (Hroot : is_dir fs = true) by now apply (RoundTrip.dir_at_root tc).
  assert (Hpre : forall p1 p2, tc ++ q = p1 ++ p2 -> file_at p1 fs = None).
  { intros p1 p2 E. apply app_eq_app in E.
    destruct E as [l [[E1 E2]|[E1 E2]]].
    - apply RoundTrip.dir_not_file. apply (RoundTrip.dir_at_prefix p1 l).
      now rewrite <- E1.
    - subst p1. exact (Hfree l p2 E2). }
  destruct (RoundTrip.tree_mkdirs_ok (tc ++ q) fs Hroot Hpre) as [fa Ha].
  assert (Hraw : nonempty (filename m) = true).
  { rewrite <- (Extraction.replace_nonempty backslash sep_char).
    fold (normalized (filename m)). rewrite Hname.
    apply nonempty_app_r. reflexivity. }
  exists fa. split; [|split; [|split]].
  - unfold extract_member. rewrite Hraw. cbn [negb]. rewrite Hsd, Hdir.
    unfold makedirs, lift, FileSys.resolve in *. now rewrite Hr, Ha.
  - intros p1 p2 E. apply (RoundTrip.dir_at_prefix (tc ++ p1) p2).
    rewrite <- app_assoc, <- E. exact (@tree_mkdirs_dir _ _ _ Ha).
  - intros p. exact (@tree_mkdirs_files _ _ _ p Ha).
  - intros p Hp. exact (@tree_mkdirs_keeps_dirs _ _ _ _ Ha Hp).
Qed.

Lemma directory_member_makes_the_directory_witness :
  exists fs',
    extract_member Inputs.rt0 (abspath (cwd Inputs.rt0) "/dst")
                   (mkMember "sub\inner/" (Demo.text "ignored"))
                   Inputs.fs_dst
    = (fs', Return tt)
    /\ dir_at ["dst"; "sub"; "inner"] fs' = true
    /\ file_at ["dst"; "sub"; "inner"] fs' = None.
Proof.
  destruct (directory_member_makes_the_directory Inputs.rt0 "/dst"
              (mkMember "sub\inner/" (Demo.text "ignored")) ["sub"; "inner"]
              Inputs.fs_dst)
    as [fs' [E [D [F _]]]].
  - discriminate.
  - discriminate.
  - repeat constructor.
  - reflexivity.
  - reflexivity.
  - reflexivity.
  - intros p1 p2 Eq.
    destruct p1 as [|a [|b [|c p1]]]; inversion Eq; subst; reflexivity.
  - exists fs'. split; [exact E|]. split.
    + apply (D ["sub"; "inner"] []). reflexivity.
    + rewrite F. reflexivity.
Defined.

End DirectoryMembers.
(* ------------------------------------------------------------------ *)
(** ** The three outcomes of [_write_json] *)

Module WriteJson.
Import PyStr PosixPath FileSys Lib TokenStore FileSysFacts PathFacts CallFacts.
Import Spec MoreSpec.

Lemma tree_write_on_dir p data n :
  dir_at p n = true -> tree_write p data n = Err IsADirectoryError.
Proof.
  unfold dir_at. revert n. induction p as [|c p IH]; intros n H.
  - destruct n; [discriminate|reflexivity].
  - destruct n as [d|es]; [discriminate|]. cbn [tree_get tree_write] in *.
    destruct (assoc c es) as [child|]; [|discriminate].
    now rewrite (IH child H).
Qed.

(** X18.  [_write_json(path, payload)], for a plain path, has three
    outcomes. When [path] names a directory it raises [IsADirectoryError];
    when the directory [path] lies in is not there it raises
    [FileNotFoundError], or [NotADirectoryError] if a regular file is in
    the way; in both cases nothing is changed. Otherwise it returns, the
    file at [path] holds [json.dump] of the payload, whether there was a
    file before or not, and every other file and every directory is as it
    was. *)
Theorem write_json_outcomes rt path payload fs :
  plain path = true ->
  (dir_at (resolve (cwd rt) path) fs = true ->
   _write_json rt path payload fs = (fs, Raise (OSError IsADirectoryError)))
  /\ (forall parent name,
         resolve (cwd rt) path = parent ++ [name] ->
         dir_at parent fs = false ->
         _write_json rt path payload fs
         = (fs, Raise (OSError FileNotFoundError))
         \/ _write_json rt path payload fs
            = (fs, Raise (OSError NotADirectoryError)))
  /\ (forall parent name,
         resolve (cwd rt) path = parent ++ [name] ->
         dir_at parent fs = true ->
         dir_at (resolve (cwd rt) path) fs = false ->
         exists fs',
           _write_json rt path payload fs = (fs', Return tt)
           /\ file_at (resolve (cwd rt) path) fs'
              = Some (json_dump rt payload)
           /\ (forall q, q <> resolve (cwd rt) path ->
                         file_at q fs' = file_at q fs)
           /\ (forall q, dir_at q fs' = dir_at q fs)).
Proof.
  intros _. unfold _write_json, write_file, lift. split; [|split].
  - intros Hd. now rewrite (tree_write_on_dir _ _ _ Hd).
  - intros parent name E Hd. rewrite E.
    destruct (HydrateWrites.tree_write_no_dir parent name
                (json_dump rt payload) fs Hd) as [H|H];
      rewrite H; [now left|now right].
  - intros parent name E Hp Hd. rewrite E in *.
    destruct (@tree_write_possible parent name (json_dump rt payload) fs
                Hp Hd) as [fs' Hw].
    exists fs'. rewrite Hw. split; [reflexivity|]. split; [|split].
    + unfold file_at. now rewrite (@tree_write_get _ _ _ _ Hw).
    + intros q Hq. exact (@tree_write_frame _ _ _ _ q Hw Hq).
    + intros q. exact (@tree_write_dir _ _ _ _ q Hw).
Qed.

Lemma write_json_outcomes_witness :
  _write_json Inputs.rt0 "/d" (JObject []) Inputs.fs_legacy
  = (Inputs.fs_legacy, Raise (OSError IsADirectoryError))
  /\ (_write_json Inputs.rt0 "/nothing/x.json" (JObject []) Inputs.fs_legacy
      = (Inputs.fs_legacy, Raise (OSError FileNotFoundError))
      \/ _write_json Inputs.rt0 "/nothing/x.json" (JObject [])
                     Inputs.fs_legacy
         = (Inputs.fs_legacy, Raise (OSError NotADirectoryError)))
  /\ exists fs',
       _write_json Inputs.rt0 "/d/oauth1_token.json" (JObject [])
                   Inputs.fs_legacy
       = (fs', Return tt)
       /\ file_at ["d"; "oauth1_token.json"] fs' = Some (Demo.text "{}").
Proof.
  split; [|split].
  - apply (proj1 (write_json_outcomes Inputs.rt0 "/d" (JObject [])
                    Inputs.fs_legacy eq_refl)).
    reflexivity.
  - apply (proj1 (proj2 (write_json_outcomes Inputs.rt0 "/nothing/x.json"
                           (JObject []) Inputs.fs_legacy eq_refl))
             ["nothing"] "x.json"); reflexivity.
  - destruct (proj2 (proj2 (write_json_outcomes Inputs.rt0
                              "/d/oauth1_token.json" (JObject [])
                              Inputs.fs_legacy eq_refl))
                ["d"] "oauth1_token.json" eq_refl eq_refl eq_refl)
      as [fs' [E [F _]]].
    exists fs'. split; [exact E|exact F].
Defined.

End WriteJson.
(* ------------------------------------------------------------------ *)
(** ** The tests of the module pass *)

Module TestsPass.
Import PyStr PosixPath FileSys Lib TokenStore FileSysFacts PathFacts CallFacts.
Import Spec MoreSpec WriteBytes Encode Tests.

Lemma clear_in_directory rt dst name fs :
  valid_name name = true ->
  dir_at (resolve (cwd rt) dst) fs = true ->
  exists fs1, _clear_and_prepare_dir rt (join dst name) fs = (fs1, Return tt).
Proof.
  intros Hv Hd. apply Clearing.clear_returns; unfold resolve in *;
    rewrite (@resolve_join_name (cwd rt) dst name Hv).
  - now destruct (abs_components (cwd rt) dst).
  - intros p1 p2 E Hp2. destruct (exists_last Hp2) as [p2' [x Hx]]. subst p2.
    rewrite app_assoc in E. apply app_inj_tail in E. destruct E as [E _].
    apply RoundTrip.dir_not_file. apply (RoundTrip.dir_at_prefix p1 p2').
    now rewrite <- E.
Qed.

(** X14.  [test_write_legacy_json_payload] passes wherever the temporary
    directory, given by a plain path, is a directory: given that the JSON
    text of the payload is no zip archive and is parsed back to the
    payload, the store written from it is ready. *)
Theorem test_write_legacy_json_payload_passes rt dst_dir fs :
  plain dst_dir = true ->
  dir_at (resolve (cwd rt) dst_dir) fs = true ->
  zip_read rt (json_dump rt legacy_payload) = None ->
  parse_payload rt (json_dump rt legacy_payload) = Some legacy_payload ->
  exists fs',
    test_write_legacy_json_payload rt dst_dir fs = (fs', Return true).
Proof.
  intros _ Hd Hz Hp.
  set (t := join dst_dir ".garmin_token_store").
  destruct (clear_in_directory rt dst_dir ".garmin_token_store" fs eq_refl Hd)
    as [fs1 Hc].
  fold t in Hc.
  destruct (legacy_fallback_spec rt (json_dump rt legacy_payload) t _ fs1 Hp
              (clear_store_dir _ _ _ _ Hc)) as [fs' [E [_ [A1 [A2 _]]]]].
  cbn in A1, A2.
  exists fs'. unfold test_write_legacy_json_payload. fold t.
  unfold bind at 1.
  rewrite (write_unfold_fallback _ _ _ _ _ Hc Hz), E.
  unfold bind, get_fs, ret.
  now rewrite (ready_of_files rt t fs' _ _ A1 A2).
Qed.

Lemma test_write_legacy_json_payload_passes_witness :
  exists fs',
    test_write_legacy_json_payload Inputs.rt0 "/dst" Inputs.fs_dst
    = (fs', Return true).
Proof.
  apply (test_write_legacy_json_payload_passes Inputs.rt0 "/dst"
           Inputs.fs_dst); vm_compute; reflexivity.
Defined.

(** X15.  [test_hydrate_from_legacy_file] passes wherever the temporary
    directory, given by a plain path, is a directory in which none of the
    three file names is taken by a directory: given that the JSON text of
    the payload is parsed back to the payload, the directory is ready after
    the legacy file is written into it and hydrated from. *)
Theorem test_hydrate_from_legacy_file_passes rt tmpdir fs :
  plain tmpdir = true ->
  store_dir rt tmpdir fs ->
  dir_at (resolve (cwd rt) tmpdir ++ ["garth-session.json"]) fs = false ->
  parse_payload rt (json_dump rt legacy_payload) = Some legacy_payload ->
  exists fs',
    test_hydrate_from_legacy_file rt tmpdir fs = (fs', Return true).
Proof.
  intros _ Hs Hg Hp.
  set (tc := resolve (cwd rt) tmpdir) in *.
  destruct (write_json_in_dir rt tmpdir "garth-session.json" legacy_payload fs
              eq_refl (proj1 Hs) Hg) as [fs1 [Ew [Hfile [_ Hdirs]]]].
  fold tc in Hfile.
  assert (Hs1 : store_dir rt tmpdir fs1).
  { destruct Hs as [S0 [S1 S2]]. unfold store_dir. now rewrite !Hdirs. }
  assert (Hres : resolve (cwd rt) (join tmpdir "garth-session.json")
                 = tc ++ ["garth-session.json"]).
  { unfold tc, resolve. now apply resolve_join_name. }
  assert (Hget : tree_get (tc ++ ["garth-session.json"]) fs1
                 = Some (File (json_dump rt legacy_payload))).
  { unfold file_at in Hfile.
    destruct (tree_get (tc ++ ["garth-session.json"]) fs1) as [[d|l]|];
      congruence. }
  assert (Hisf : isfile (cwd rt) (join tmpdir "garth-session.json") fs1
                 = true).
  { unfold isfile, stat. now rewrite Hres, Hget. }
  assert (Hload : load_json_file rt (join tmpdir "garth-session.json") fs1
                  = Some legacy_payload).
  { unfold load_json_file, read_file, stat. rewrite Hres, Hget. exact Hp. }
  destruct (maybe_write_spec rt tmpdir OAUTH1_TOKEN_FILENAME
              (Some oauth1_payload) fs1 eq_refl Hs1 (proj1 (proj2 Hs1)))
    as [fs2 [E1 [Hs2 [C1 F1]]]].
  destruct (maybe_write_spec rt tmpdir OAUTH2_TOKEN_FILENAME
              (Some oauth2_payload) fs2 eq_refl Hs2 (proj2 (proj2 Hs2)))
    as [fs3 [E2 [Hs3 [C2 F2]]]].
  assert (A1 : file_at (tc ++ [OAUTH1_TOKEN_FILENAME]) fs3
               = Some (json_dump rt oauth1_payload)).
  { rewrite F2; [exact C1|].
    intros E. apply app_inv_head in E. discriminate. }
  exists fs3. unfold test_hydrate_from_legacy_file.
  unfold bind at 1. unfold _write_json in Ew. rewrite Ew.
  unfold bind at 1.
  rewrite (HydrateWrites.hydrate_unfold rt _ tmpdir fs1 _ Hisf Hload).
  cbn [dict_get String.eqb Ascii.eqb Bool.eqb sub_object oauth1_payload
       oauth2_payload legacy_payload].
  unfold bind at 1. fold oauth1_payload. rewrite E1.
  fold oauth2_payload. rewrite E2.
  unfold bind, get_fs, ret.
  now rewrite (ready_of_files rt tmpdir fs3 _ _ A1 C2).
Qed.

Lemma test_hydrate_from_legacy_file_passes_witness :
  exists fs',
    test_hydrate_from_legacy_file Inputs.rt0 "/dst" Inputs.fs_dst
    = (fs', Return true).
Proof.
  apply (test_hydrate_from_legacy_file_passes Inputs.rt0 "/dst"
           Inputs.fs_dst).
  - reflexivity.
  - repeat split; reflexivity.
  - reflexivity.
  - vm_compute. reflexivity.
Defined.


(** Writing a file into a directory puts it into the listing of the
    directory. *)
Lemma tree_write_into_dir p name data n es :
  tree_get p n = Some (Dir es) ->
  (forall l, assoc name es <> Some (Dir l)) ->
  exists n',
    tree_write (p ++ [name]) data n = Ok n'
    /\ tree_get p n' = Some (Dir (set_entry name (File data) es)).
Proof.
  revert n. induction p as [|c p IH]; intros n Hg Hn.
  - cbn [tree_get] in Hg. inversion Hg; subst n. cbn [app tree_write].
    destruct (assoc name es) as [[d|l]|] eqn:Ha.
    + cbn. eauto.
    + now destruct (Hn l).
    + eauto.
  - destruct n as [d|es0]; [discriminate|]. cbn [tree_get] in Hg.
    destruct (assoc c es0) as [child|] eqn:Hc; [|discriminate].
    destruct (IH child Hg Hn) as [child' [Hw Hg']].
    exists (Dir (set_entry c child' es0)). cbn [app tree_write].
    rewrite Hc, Hw. split; [reflexivity|].
    cbn [tree_get]. rewrite (@assoc_set_same c child' es0). exact Hg'.
Qed.

Lemma required_tokens_written rt src_dir fs :
  tree_get (resolve (cwd rt) src_dir) fs = Some (Dir []) ->
  exists fs2,
    _write_required_tokens rt src_dir fs = (fs2, Return tt)
    /\ tree_get (resolve (cwd rt) src_dir) fs2
       = Some (Dir [("oauth1_token.json", File (json_dump rt oauth1_payload));
                    ("oauth2_token.json", File (json_dump rt oauth2_payload))])
    /\ (forall q, dir_at q fs2 = dir_at q fs).
Proof.
  intros Hg.
  destruct (tree_write_into_dir (resolve (cwd rt) src_dir) "oauth1_token.json"
              (json_dump rt oauth1_payload) fs [] Hg)
    as [fs1 [W1 G1]]; [intros l; discriminate|].
  destruct (tree_write_into_dir (resolve (cwd rt) src_dir) "oauth2_token.json"
              (json_dump rt oauth2_payload) fs1 _ G1)
    as [fs2 [W2 G2]]; [intros l; discriminate|].
  exists fs2. split; [|split].
  - unfold _write_required_tokens, bind, write_file, lift, resolve in *.
    rewrite (@resolve_join_name (cwd rt) src_dir "oauth1_token.json" eq_refl).
    rewrite W1.
    rewrite (@resolve_join_name (cwd rt) src_dir "oauth2_token.json" eq_refl).
    now rewrite W2.
  - exact G2.
  - intros q. rewrite (@tree_write_dir _ _ _ _ q W2).
    exact (@tree_write_dir _ _ _ _ q W1).
Qed.

(** X16.  [test_round_trip_zip_b64_write] passes wherever, for plain paths,
    the source directory is an empty directory and the destination
    directory is a directory: given that [zipfile] and [base64] give the
    archive of the two token files back, the store written from the encoded
    source is ready. *)
Theorem test_round_trip_zip_b64_write_passes rt src_dir dst_dir fs :
  plain src_dir = true -> plain dst_dir = true ->
  tree_get (resolve (cwd rt) src_dir) fs = Some (Dir []) ->
  dir_at (resolve (cwd rt) dst_dir) fs = true ->
  codec_round_trip rt
    [mkMember "oauth1_token.json" (json_dump rt oauth1_payload);
     mkMember "oauth2_token.json" (json_dump rt oauth2_payload)] ->
  exists fs',
    test_round_trip_zip_b64_write rt src_dir dst_dir fs = (fs', Return true).
Proof.
  intros _ _ Hsrc Hdst Hcodec.
  destruct (required_tokens_written rt src_dir fs Hsrc)
    as [fs2 [Ew [Hg Hdirs]]].
  set (es := [("oauth1_token.json", File (json_dump rt oauth1_payload));
              ("oauth2_token.json", File (json_dump rt oauth2_payload))])
    in *.
  set (t := join dst_dir ".garmin_token_store").
  assert (Hwf : wf_node (Dir es)).
  { constructor.
    - repeat constructor; simpl; intuition discriminate.
    - repeat constructor. }
  assert (Hport : portable (Dir es)) by (repeat constructor).
  assert (Hd2 : dir_at (resolve (cwd rt) dst_dir) fs2 = true)
    by now rewrite Hdirs.
  destruct (clear_in_directory rt dst_dir ".garmin_token_store" fs2 eq_refl
              Hd2) as [fs3 Hc].
  fold t in Hc.
  assert (Harch : archive_of rt src_dir fs2
                  = [mkMember "oauth1_token.json" (json_dump rt oauth1_payload);
                     mkMember "oauth2_token.json"
                              (json_dump rt oauth2_payload)]).
  { unfold archive_of.
    rewrite (archive_members_spec rt src_dir fs2 (Dir es) Hg Hwf).
    reflexivity. }
  rewrite <- Harch in Hcodec.
  destruct (Mirror.round_trip_mirror rt src_dir t fs2 es fs3 Hg Hwf Hport Hc
              Hcodec)
    as [encoded [token_bytes [fs' [E [D [W [Hf _]]]]]]].
  exists fs'. unfold test_round_trip_zip_b64_write. fold t.
  unfold bind at 1. rewrite Ew.
  unfold bind at 1. rewrite E.
  unfold bind at 1. rewrite D.
  unfold bind at 1. rewrite W.
  unfold bind, get_fs, ret.
  rewrite Mirror.ready_as_file_at, !Hf. reflexivity.
Qed.

Lemma test_round_trip_zip_b64_write_passes_witness :
  exists fs',
    test_round_trip_zip_b64_write Inputs.rt0 "/dst" "/home/u" Inputs.fs_dst
    = (fs', Return true).
Proof.
  apply (test_round_trip_zip_b64_write_passes Inputs.rt0 "/dst" "/home/u"
           Inputs.fs_dst).
  - reflexivity.
  - reflexivity.
  - reflexivity.
  - reflexivity.
  - split; [vm_compute; discriminate|split; vm_compute; reflexivity].
Defined.

End TestsPass.
